(** * Coconut's pyparsing adapter and kernel installer

    A shallow embedding of [coconut/_pyparsing.py] and of the versioning and
    Jupyter-kernel parts of [coconut/util.py], together with the properties
    that the specification states about them.

    Conventions of the embedding.
    - Python [int] is [Z]; Python [str] is [string] (ASCII code points).
    - A Python call that may raise returns a [result]: [Return v] or
      [Raise e].
    - Module-level and object state that the code mutates is threaded
      explicitly.
    - Python [float] is [Q]: times are added and compared exactly, without
      the rounding of the program, so a statement about the value of a sum
      is one about exact arithmetic.
    - Semantics are those of Python 3. *)

From Stdlib Require Import ZArith QArith Lia Lqa Ascii String List Sorted.
From stdpp Require Import base option list strings gmap.

Local Open Scope string_scope.
Local Open Scope list_scope.
Local Open Scope Z_scope.

(** ** Python strings and integers *)

Module PyStr.

(** [all_chars p s]: every character of [s] satisfies [p]. *)
Fixpoint all_chars (p : ascii -> bool) (s : string) : bool :=
  match s with
  | EmptyString => true
  | String c s' => p c && all_chars p s'
  end.

Definition is_digit (c : ascii) : bool :=
  let n := nat_of_ascii c in (48 <=? n)%nat && (n <=? 57)%nat.

Definition digit_val (c : ascii) : Z := Z.of_nat (nat_of_ascii c) - 48.

Definition digit_char (d : Z) : ascii := ascii_of_nat (48 + Z.to_nat d).

(** Characters that [str.strip()] treats as white space (the ASCII ones:
    TAB, LF, VT, FF, CR, FS, GS, RS, US and SPACE). *)
Definition is_space (c : ascii) : bool :=
  let n := nat_of_ascii c in
  ((9 <=? n)%nat && (n <=? 13)%nat) || ((28 <=? n)%nat && (n <=? 32)%nat).

Fixpoint lstrip (s : string) : string :=
  match s with
  | EmptyString => EmptyString
  | String c s' => if is_space c then lstrip s' else s
  end.

Fixpoint rstrip (s : string) : string :=
  match s with
  | EmptyString => EmptyString
  | String c s' =>
      match rstrip s' with
      | EmptyString => if is_space c then EmptyString else String c EmptyString
      | r => String c r
      end
  end.

Definition strip (s : string) : string := rstrip (lstrip s).

(** [str(n)] for a non-negative [n]: the decimal digits, most significant
    first.  [fuel] bounds the number of digits. *)
Fixpoint str_digits (fuel : nat) (n : Z) (acc : string) : string :=
  match fuel with
  | O => acc
  | S f =>
      let acc' := String (digit_char (n mod 10)) acc in
      if n / 10 =? 0 then acc' else str_digits f (n / 10) acc'
  end.

Definition digits_fuel (n : Z) : nat := S (Z.to_nat (Z.log2 n)).

(** [str(z)] for an [int]. *)
Definition str_int (z : Z) : string :=
  if z <? 0 then String "-" (str_digits (digits_fuel (- z)) (- z) EmptyString)
  else str_digits (digits_fuel z) z EmptyString.

(** The digits of an integer literal as [int()] reads them: decimal digits,
    with single underscores allowed between digits.  [prev] records whether
    the previous character was a digit. *)
Fixpoint int_digits (prev : bool) (acc : Z) (s : string) : option Z :=
  match s with
  | EmptyString => if prev then Some acc else None
  | String c s' =>
      if is_digit c then int_digits true (10 * acc + digit_val c) s'
      else if Ascii.eqb c "_" then
        if prev then int_digits false acc s' else None
      else None
  end.

(** The characters that [int()] passes over around a literal: TAB, LF, VT,
    FF, CR and SPACE.  Unlike [str.strip()] it does not pass over FS, GS,
    RS and US. *)
Definition is_int_space (c : ascii) : bool :=
  let n := nat_of_ascii c in
  ((9 <=? n)%nat && (n <=? 13)%nat) || (n =? 32)%nat.

Fixpoint int_lstrip (s : string) : string :=
  match s with
  | EmptyString => EmptyString
  | String c s' => if is_int_space c then int_lstrip s' else s
  end.

Fixpoint int_rstrip (s : string) : string :=
  match s with
  | EmptyString => EmptyString
  | String c s' =>
      match int_rstrip s' with
      | EmptyString => if is_int_space c then EmptyString else String c EmptyString
      | r => String c r
      end
  end.

Definition int_strip (s : string) : string := int_rstrip (int_lstrip s).

(** [int(s)] in base 10: [None] stands for [ValueError]. *)
Definition int (s : string) : option Z :=
  match int_strip s with
  | String "+" ds => int_digits false 0 ds
  | String "-" ds => Z.opp <$> int_digits false 0 ds
  | ds => int_digits false 0 ds
  end.

(** [s.split(sep)] for a one-character separator: always at least one
    field; an empty string gives one empty field. *)
Fixpoint split (sep : ascii) (s : string) : list string :=
  match s with
  | EmptyString => [EmptyString]
  | String c s' =>
      if Ascii.eqb c sep then EmptyString :: split sep s'
      else match split sep s' with
           | h :: t => String c h :: t
           | [] => [String c EmptyString]
           end
  end.

(** [sub in s] for strings. *)
Fixpoint contains (sub s : string) : bool :=
  String.prefix sub s ||
  match s with
  | EmptyString => false
  | String _ s' => contains sub s'
  end.

(** [sep.join(l)]. *)
Fixpoint join (sep : string) (l : list string) : string :=
  match l with
  | [] => EmptyString
  | [x] => x
  | x :: l' => x +:+ sep +:+ join sep l'
  end.

End PyStr.

(** ** Results of calls that may raise *)

Inductive result (E A : Type) : Type :=
  | Return (a : A)
  | Raise (e : E).
Arguments Return {E A} a.
Arguments Raise {E A} e.

#[export] Instance result_ret {E} : MRet (result E) := fun _ a => Return a.
#[export] Instance result_bind {E} : MBind (result E) := fun _ _ k m =>
  match m with
  | Return a => k a
  | Raise e => Raise e
  end.

(** Python sequence indexing [l[i]] (negative indices count from the end;
    [None] stands for [IndexError]) and the slice [l[:i]]. *)
Definition py_index {A} (l : list A) (i : Z) : option A :=
  let n := Z.of_nat (length l) in
  let j := if i <? 0 then i + n else i in
  if (0 <=? j) && (j <? n) then l !! Z.to_nat j else None.

Definition py_slice_to {A} (l : list A) (i : Z) : list A :=
  let n := Z.of_nat (length l) in
  let j := if i <? 0 then Z.max 0 (i + n) else Z.min i n in
  take (Z.to_nat j) l.

(** ** Versions ([coconut/util.py], VERSIONING) *)

Module Version.

(** An item of a version tuple: [ver_str_to_tuple] keeps a field that is
    not an integer literal as the string it was. *)
Inductive item : Type :=
  | VInt (z : Z)
  | VStr (s : string).

Abbreviation tuple := (list item).

Definition ints (t : list Z) : tuple := VInt <$> t.

Definition str (x : item) : string :=
  match x with
  | VInt z => PyStr.str_int z
  | VStr s => s
  end.

(** [item_eqb x y] is [x == y]: an [int] never equals a [str]. *)
Definition item_eqb (x y : item) : bool :=
  match x, y with
  | VInt a, VInt b => a =? b
  | VStr a, VStr b => String.eqb a b
  | _, _ => false
  end.

(** Ordering of two items; [None] is the [TypeError] that Python 3 raises
    for an [int] against a [str]. *)
Definition item_compare (x y : item) : option comparison :=
  match x, y with
  | VInt a, VInt b => Some (a ?= b)
  | VStr a, VStr b => Some (String.compare a b)
  | _, _ => None
  end.

(** Rich comparison of tuples: the first pair of items that are not equal
    decides; when one tuple is a prefix of the other, the shorter one is
    smaller. *)
Fixpoint compare (a b : tuple) : option comparison :=
  match a, b with
  | [], [] => Some Eq
  | [], _ :: _ => Some Lt
  | _ :: _, [] => Some Gt
  | x :: a', y :: b' => if item_eqb x y then compare a' b' else item_compare x y
  end.

Inductive exc : Type :=
  | ImportError (msg : string)
  | TypeError
  | IndexError.

(** [a < b] and [a >= b] on tuples. *)
Definition lt (a b : tuple) : result exc bool :=
  match compare a b with
  | Some Lt => Return true
  | Some _ => Return false
  | None => Raise TypeError
  end.

Definition ge (a b : tuple) : result exc bool :=
  match compare a b with
  | Some Lt => Return false
  | Some _ => Return true
  | None => Raise TypeError
  end.

(** The same order on tuples of integers, where it is total. *)
Fixpoint compare_ints (a b : list Z) : comparison :=
  match a, b with
  | [], [] => Eq
  | [], _ :: _ => Lt
  | _ :: _, [] => Gt
  | x :: a', y :: b' => if x =? y then compare_ints a' b' else x ?= y
  end.

Definition ltb (a b : list Z) : bool :=
  match compare_ints a b with Lt => true | _ => false end.

(** The order that [compare_ints] decides: the lexicographic order on tuples of integers, a proper prefix being
    smaller. *)
Inductive tuple_lt : list Z -> list Z -> Prop :=
  | tuple_lt_prefix y b : tuple_lt [] (y :: b)
  | tuple_lt_head x y a b : x < y -> tuple_lt (x :: a) (y :: b)
  | tuple_lt_tail x a b : tuple_lt a b -> tuple_lt (x :: a) (x :: b).

(** [min(a, b)] and [max(a, b)]: the first argument wins ties. *)
Definition min (a b : list Z) : list Z := if ltb b a then b else a.
Definition max (a b : list Z) : list Z := if ltb a b then b else a.

Definition ver_tuple_to_str (req_ver : tuple) : string :=
  PyStr.join "." (str <$> req_ver).

Definition ver_str_to_tuple (ver_str : string) : tuple :=
  (fun x => match PyStr.int x with
            | Some n => VInt n
            | None => VStr x
            end) <$> PyStr.split "." ver_str.

Definition get_next_version (req_ver : list Z) (point_to_increment : Z)
  : result exc (list Z) :=
  match py_index req_ver point_to_increment with
  | Some x => Return (py_slice_to req_ver point_to_increment ++ [x + 1])
  | None => Raise IndexError
  end.

End Version.

(** ** Engine selection and version gate ([coconut/_pyparsing.py]) *)

Module Engine.
Import Version.

(** What the import block at the top of the module leaves behind. *)
Record handle : Type := Handle {
  __version__ : option string;
  PYPARSING_PACKAGE : string;
  PYPARSING_INFO : option string;
}.

(** [cPyparsing] and [pyparsing] give the [__version__] of the installed
    package, or [None] when importing it raises [ImportError]. *)
Definition import_engine (PURE_PYTHON : bool) (cPyparsing pyparsing : option string)
  : handle :=
  match (if PURE_PYTHON then None else cPyparsing) with
  | Some v => Handle (Some v) "cPyparsing" (Some ("Cython cPyparsing v" +:+ v))
  | None =>
      match pyparsing with
      | Some v => Handle (Some v) "pyparsing" (Some ("Python pyparsing v" +:+ v))
      | None => Handle None "cPyparsing" None
      end
  end.

Definition got (PYPARSING_INFO : option string) : string :=
  match PYPARSING_INFO with
  | Some info => "; got " +:+ info
  | None => EmptyString
  end.

Definition too_old_msg (min_ver_str : string) (info : option string)
    (python package : string) : string :=
  "This version of Coconut requires pyparsing/cPyparsing version >= " +:+ min_ver_str
  +:+ got info
  +:+ (" (run '" +:+ python +:+ " -m pip install --upgrade " +:+ package +:+ "' to fix)").

Definition too_new_msg (max_ver_str : string) (info : option string)
    (python package : string) : string :=
  "This version of Coconut was built for pyparsing/cPyparsing versions < " +:+ max_ver_str
  +:+ got info
  +:+ (" (run '" +:+ python +:+ " -m pip install " +:+ package +:+ "<" +:+ max_ver_str
       +:+ "' to fix)").

Definition modern_msg (max_ver_str python : string) : string :=
  "This version of Coconut is not built for pyparsing v3; some syntax features WILL NOT WORK"
  +:+ (" (run either '" +:+ python +:+ " -m pip install cPyparsing<" +:+ max_ver_str
       +:+ "' or '" +:+ python +:+ " -m pip install pyparsing<" +:+ max_ver_str
       +:+ "' to fix)").

(** Lines 94 to 116: the gate on [cur_ver].  The result is the list of
    the warnings emitted, in order, and then either [MODERN_PYPARSING] or
    the exception that ends the import. *)
Definition version_gate (min_ver max_ver : list Z) (cur_ver : option tuple)
    (info : option string) (package python : string) : list string * result exc bool :=
  let min_ver_str := ver_tuple_to_str (ints min_ver) in
  let max_ver_str := ver_tuple_to_str (ints max_ver) in
  match cur_ver with
  | None => ([], Raise (ImportError (too_old_msg min_ver_str info python package)))
  | Some v =>
      match lt v (ints min_ver) with
      | Raise e => ([], Raise e)
      | Return true => ([], Raise (ImportError (too_old_msg min_ver_str info python package)))
      | Return false =>
          match ge v (ints max_ver) with
          | Raise e => ([], Raise e)
          | Return too_new =>
              let w1 := if too_new : bool
                        then [too_new_msg max_ver_str info python package] else [] in
              match ge v (ints [3]) with
              | Raise e => (w1, Raise e)
              | Return MODERN_PYPARSING =>
                  (w1 ++ (if MODERN_PYPARSING : bool
                          then [modern_msg max_ver_str python] else []),
                   Return MODERN_PYPARSING)
              end
          end
      end
  end.

(** Lines 90 to 92 followed by the gate.  [min_versions_pyparsing] and
    [min_versions_cPyparsing] are the two entries of [min_versions] in
    [coconut.constants]. *)
Definition select_engine (min_versions_pyparsing min_versions_cPyparsing : list Z)
    (h : handle) (python : string) : list string * result exc bool :=
  let min_ver := min min_versions_pyparsing (py_slice_to min_versions_cPyparsing 3) in
  match get_next_version
          (max min_versions_pyparsing (py_slice_to min_versions_cPyparsing 3)) (-1) with
  | Raise e => ([], Raise e)
  | Return max_ver =>
      let cur_ver := ver_str_to_tuple <$> __version__ h in
      version_gate min_ver max_ver cur_ver (PYPARSING_INFO h) (PYPARSING_PACKAGE h) python
  end.

(** The remediation command of the fatal error. *)
Definition upgrade_command (python package : string) : string :=
  "run '" +:+ python +:+ " -m pip install --upgrade " +:+ package +:+ "' to fix".

(** The gate as the specification words it, at one version [v]: silent
    inside the range, fatal below it, and above it exactly one warning
    together with the modern flag. *)
Definition gate_as_specified (min_ver max_ver v : list Z)
    (info : option string) (package python : string) : Prop :=
  let r := version_gate min_ver max_ver (Some (ints v)) info package python in
  (~ tuple_lt v min_ver -> tuple_lt v max_ver ->
     exists modern, r = ([], Return modern))
  /\ (tuple_lt v min_ver ->
     exists warnings msg, r = (warnings, Raise (ImportError msg))
       /\ PyStr.contains (upgrade_command python package) msg = true)
  /\ (~ tuple_lt v max_ver -> exists w, r = ([w], Return true)).

End Engine.

(** ** Capability negotiation ([coconut/_pyparsing.py], OVERRIDES and SETUP) *)

Module Negotiation.
Import Version.

Section Incremental.
(** Any Python value passed as an argument. *)
Context {pyobj : Type}.

(** The module-level [enableIncremental] that is defined when
    [ParserElement] has no attribute of that name. *)
Definition enableIncremental (min_versions_cPyparsing : list Z) (python : string)
    (args : list pyobj) (kwargs : list (string * pyobj)) : result exc unit :=
  Raise (ImportError
    ("incremental parsing only supported on cPyparsing>="
     +:+ ver_tuple_to_str (ints min_versions_cPyparsing)
     +:+ (" (run '" +:+ python +:+ " -m pip install --upgrade cPyparsing' to fix)"))).

(** What lines 159 to 172 leave behind: the flag, the two attributes that
    the else branch sets on [ParserElement], and the function it defines
    ([None] in the first branch, which defines none). *)
Record incremental_support : Type := Incremental {
  SUPPORTS_INCREMENTAL : bool;
  _incrementalEnabled : option bool;
  _incrementalWithResets : option bool;
  enableIncremental_def :
    option (list pyobj -> list (string * pyobj) -> result exc unit);
}.

Definition incremental_setup (has_enableIncremental : bool) (version_info : tuple)
    (min_versions_cPyparsing : list Z) (python : string)
    : result exc incremental_support :=
  if has_enableIncremental then
    supports ← ge version_info (ints [3; 8]);
    Return (Incremental supports None None None)
  else
    Return (Incremental false (Some false) (Some false)
              (Some (enableIncremental min_versions_cPyparsing python))).
End Incremental.

(** The calls that the adapter makes on [ParserElement]. *)
Inductive engine_call : Type :=
  | enable_left_recursion
  | enableIncremental_call (cache_size : option Z) (still_reset_cache : bool)
  | enablePackrat (cache_size_limit : option Z).

(** Lines 203 to 208. *)
Definition negotiate (MODERN_PYPARSING SUPPORTS_INCREMENTAL : bool)
    (use_left_recursion_if_available use_incremental_if_available use_packrat_parser : bool)
    (default_incremental_cache_size packrat_cache_size : option Z)
    (never_clear_incremental_cache : bool) : list engine_call :=
  if MODERN_PYPARSING && use_left_recursion_if_available then
    [enable_left_recursion]
  else if SUPPORTS_INCREMENTAL && use_incremental_if_available then
    [enableIncremental_call default_incremental_cache_size
       (negb never_clear_incremental_cache)]
  else if use_packrat_parser then
    [enablePackrat packrat_cache_size]
  else [].

(** The parsing strategies that a sequence of calls has switched on. *)
Record strategies : Type := Strategies {
  left_recursion : bool;
  incremental : bool;
  packrat : bool;
}.

Definition switch_on (s : strategies) (c : engine_call) : strategies :=
  match c with
  | enable_left_recursion => Strategies true (incremental s) (packrat s)
  | enableIncremental_call _ _ => Strategies (left_recursion s) true (packrat s)
  | enablePackrat _ => Strategies (left_recursion s) (incremental s) true
  end.

Definition active (calls : list engine_call) : strategies :=
  foldl switch_on (Strategies false false false) calls.

Definition count_active (s : strategies) : nat :=
  (if left_recursion s then 1 else 0) + (if incremental s then 1 else 0)
  + (if packrat s then 1 else 0).

End Negotiation.

(** ** The packrat cache ([_parseCache], installed on pure-Python pyparsing 2) *)

Module Packrat.

(** What [_parseCache] uses of [ParserElement.packrat_cache]: [get], which
    answers [None] for the [not_in_cache] marker, and [set], after which
    the key is found: so it is in a dictionary, and in any bounded cache
    that keeps at least the entry set last. *)
Class Cache (K V C : Type) : Type := {
  cache_get : K -> C -> option V;
  cache_set : K -> V -> C -> C;
  cache_get_set k v c : cache_get k (cache_set k v c) = Some v;
}.

(** The unbounded cache: a dictionary. *)
Definition _UnboundedCache (K V : Type) : Type := K -> option V.

#[export] Program Instance unbounded_cache {K V} `{EqDecision K}
  : Cache K V (_UnboundedCache K V) := {|
  cache_get k c := c k;
  cache_set k v c := fun k' => if decide (k' = k) then Some v else c k';
|}.
Next Obligation. intros K V ? k v c. cbn. by destruct (decide (k = k)). Qed.

Section ParseCache.
(** Parser elements, items of the packrat context, parse results,
    exception arguments, tracebacks, exceptions that are not parse
    exceptions, and the rest of the program state. *)
Context {Elem Ctx Tokens Args Tb Other World : Type}.

(** An instance of a subclass of [ParseBaseException]. *)
Record ParseBaseException : Type := Exc {
  exc_class : string;
  exc_args : Args;
  exc_traceback : option Tb;
}.

Inductive raised : Type :=
  | parse_exception (pe : ParseBaseException)
  | other_exception (e : Other).

(** The 6-tuple that keys the cache. *)
Record lookup : Type := Lookup {
  key_self : Elem;
  key_instring : string;
  key_loc : Z;
  key_callPreParse : bool;
  key_doActions : bool;
  key_context : list Ctx;
}.

(** A cache entry: a pair [(loc, tokens)] or an exception. *)
Inductive cached : Type :=
  | cached_value (loc : Z) (tokens : Tokens)
  | cached_exception (e : ParseBaseException).

Context {C : Type} `{!Cache lookup cached C}.

(** [packrat_cache_stats] is pyparsing's two-item list; [HIT] and [MISS]
    index it. *)
Record state : Type := State {
  packrat_cache : C;
  hits : nat;
  misses : nat;
  packrat_context : Elem -> list Ctx;
  world : World;
}.

(** [tokens.copy()]: a result is represented by its contents, which a
    shallow copy shares. *)
Definition copy (tokens : Tokens) : Tokens := tokens.

(** A new exception of the class of [pe], built from the arguments of
    [pe]; it has no traceback. *)
Definition rebuild (pe : ParseBaseException) : ParseBaseException :=
  Exc (exc_class pe) (exc_args pe) None.

(** The parse step that the cache wraps.  It may change all of the state,
    the cache included. *)
Context (_parseNoCache :
  Elem -> string -> Z -> bool -> bool -> state -> result raised (Z * Tokens) * state).

Definition set_cache (k : lookup) (v : cached) (st : state) : state :=
  State (cache_set k v (packrat_cache st)) (hits st) (misses st)
    (packrat_context st) (world st).

(** [_parseCache].  The last component counts the calls of
    [_parseNoCache]. *)
Definition _parseCache (self : Elem) (instring : string) (loc : Z)
    (doActions callPreParse : bool) (st : state) (runs : nat)
    : result raised (Z * Tokens) * state * nat :=
  let lookup := Lookup self instring loc callPreParse doActions
                  (packrat_context st self) in
  match cache_get lookup (packrat_cache st) with
  | None =>
      let st := State (packrat_cache st) (hits st) (S (misses st))
                  (packrat_context st) (world st) in
      match _parseNoCache self instring loc doActions callPreParse st with
      | (Raise (parse_exception pe), st) =>
          (Raise (parse_exception pe),
           set_cache lookup (cached_exception (rebuild pe)) st, S runs)
      | (Raise (other_exception e), st) => (Raise (other_exception e), st, S runs)
      | (Return value, st) =>
          (Return value,
           set_cache lookup (cached_value (fst value) (copy (snd value))) st, S runs)
      end
  | Some value =>
      let st := State (packrat_cache st) (S (hits st)) (misses st)
                  (packrat_context st) (world st) in
      match value with
      | cached_exception e => (Raise (parse_exception e), st, runs)
      | cached_value loc tokens => (Return (loc, copy tokens), st, runs)
      end
  end.

(** Two results agree when they return the same value or raise parse
    exceptions of the same class with the same arguments. *)
Definition same_outcome (r1 r2 : result raised (Z * Tokens)) : Prop :=
  match r1, r2 with
  | Return v1, Return v2 => v1 = v2
  | Raise (parse_exception e1), Raise (parse_exception e2) =>
      exc_class e1 = exc_class e2 /\ exc_args e1 = exc_args e2
  | _, _ => False
  end.

(** What the cache holds for a result. *)
Definition cached_for (r : result raised (Z * Tokens)) : option cached :=
  match r with
  | Return v => Some (cached_value (fst v) (snd v))
  | Raise (parse_exception pe) =>
      Some (cached_exception (Exc (exc_class pe) (exc_args pe) None))
  | Raise (other_exception _) => None
  end.

(** A cache entry agrees with a result. *)
Definition agrees (c : cached) (r : result raised (Z * Tokens)) : Prop :=
  match c, r with
  | cached_value l t, Return v => v = (l, t)
  | cached_exception e, Raise (parse_exception pe) =>
      exc_class pe = exc_class e /\ exc_args pe = exc_args e
  | _, _ => False
  end.
End ParseCache.

Arguments ParseBaseException : clear implicits.
Arguments raised : clear implicits.
Arguments lookup : clear implicits.
Arguments cached : clear implicits.
Arguments state : clear implicits.

#[export] Instance lookup_eq_dec {Elem Ctx} `{EqDecision Elem, EqDecision Ctx}
  : EqDecision (lookup Elem Ctx).
Proof. solve_decision. Defined.

(** A parse step for trying the cache out: it succeeds at even positions
    and raises a parse exception at odd ones. *)
Abbreviation stub_cache :=
  (_UnboundedCache (lookup nat nat) (cached (list string) (string * Z * string) string)).

Definition stub_parseNoCache (self : nat) (instring : string) (loc : Z)
    (doActions callPreParse : bool) (st : state nat nat unit stub_cache)
  : result (raised (string * Z * string) string unit) (Z * list string)
    * state nat nat unit stub_cache :=
  if Z.even loc then (Return (loc + 1, [instring]), st)
  else (Raise (parse_exception
                 (Exc "ParseException" (instring, loc, "Expected end of text")
                    (Some "traceback"))), st).

Definition stub_state : state nat nat unit stub_cache :=
  State (fun _ => None) 0 0 (fun _ => []) tt.

End Packrat.

(** ** Fast reprs ([coconut/_pyparsing.py], FAST REPRS) *)

Module FastReprs.

(** The values that [__repr__] and [__str__] take: the function that a
    class body defines, or [functools.partial(fast_repr, cls)]. *)
Inductive func : Type :=
  | original (cls name : string)
  | fast_repr_of (cls : string).

(** A class: its method resolution order, itself first, and the two
    entries of its own [__dict__] that matter here. *)
Record class : Type := Class {
  mro : list string;
  own_repr : option func;
  own_str : option func;
}.

(** A value of the module namespace [vars(_pyparsing)]. *)
Inductive object : Type :=
  | class_object (name : string)
  | other_object.

Record state : Type := State {
  classes : gmap string class;
  _old_pyparsing_reprs : list (string * (func * func));
}.

Inductive exc : Type := AttributeError.

(** Attribute lookup on a class: the first class of the resolution order
    whose own dictionary has the attribute. *)
Fixpoint first_defined (sel : class -> option func) (classes : gmap string class)
    (order : list string) : option func :=
  match order with
  | [] => None
  | c :: order' =>
      match classes !! c ≫= sel with
      | Some f => Some f
      | None => first_defined sel classes order'
      end
  end.

Definition getattr (sel : class -> option func) (classes : gmap string class)
    (cls : string) : result exc func :=
  match classes !! cls ≫= (fun c => first_defined sel classes (mro c)) with
  | Some f => Return f
  | None => Raise AttributeError
  end.

(** [issubclass(obj, ParserElement)] for a class. *)
Definition issubclass_ParserElement (classes : gmap string class) (cls : string) : bool :=
  match classes !! cls with
  | Some c => bool_decide ("ParserElement" ∈ mro c)
  | None => false
  end.

Definition set_repr (f : func) (c : class) : class := Class (mro c) (Some f) (own_str c).
Definition set_str (f : func) (c : class) : class := Class (mro c) (own_repr c) (Some f).

(** One round of the loop of [set_fast_pyparsing_reprs].  [issubclass]
    raises [TypeError] for a value that is not a class, and the loop passes
    over it. *)
Definition set_fast_repr (st : state) (obj : object) : result exc state :=
  match obj with
  | other_object => Return st
  | class_object cls =>
      if issubclass_ParserElement (classes st) cls then
        repr_method ← getattr own_repr (classes st) cls;
        str_method ← getattr own_str (classes st) cls;
        Return (State
          (alter (set_str (fast_repr_of cls))
             cls (alter (set_repr (fast_repr_of cls)) cls (classes st)))
          (_old_pyparsing_reprs st ++ [(cls, (repr_method, str_method))]))
      else Return st
  end.

Fixpoint set_fast_pyparsing_reprs_loop (namespace : list object) (st : state)
    : result exc state :=
  match namespace with
  | [] => Return st
  | obj :: namespace' =>
      st' ← set_fast_repr st obj;
      set_fast_pyparsing_reprs_loop namespace' st'
  end.

(** [namespace] is [vars(_pyparsing).values()], in the order in which the
    dictionary yields it. *)
Definition set_fast_pyparsing_reprs (namespace : list object) (st : state)
    : result exc state :=
  set_fast_pyparsing_reprs_loop namespace st.

Definition restore (classes : gmap string class) (entry : string * (func * func))
    : gmap string class :=
  let '(obj, (repr_method, str_method)) := entry in
  alter (set_str str_method) obj (alter (set_repr repr_method) obj classes).

Definition unset_fast_pyparsing_reprs (st : state) : state :=
  State (foldl restore (classes st) (_old_pyparsing_reprs st)) [].

(** What [repr(x)] and [str(x)] run for an instance [x] of [cls]. *)
Definition repr_of (st : state) (cls : string) : result exc func :=
  getattr own_repr (classes st) cls.
Definition str_of (st : state) (cls : string) : result exc func :=
  getattr own_str (classes st) cls.

(** The names of the classes of a namespace. *)
Definition class_names (namespace : list object) : list string :=
  omap (fun obj => match obj with
                   | class_object name => Some name
                   | other_object => None
                   end) namespace.

(** Every subclass of [ParserElement] in the namespace has [__repr__] and
    [__str__] in its own dictionary. *)
Definition defines_both (classes : gmap string class) (namespace : list object) : Prop :=
  forall name, name ∈ class_names namespace ->
    issubclass_ParserElement classes name = true ->
    exists order r s, classes !! name = Some (Class (name :: order) (Some r) (Some s)).

(** A namespace as pyparsing's: [ParserElement] defines both methods, and
    [And], defined after it, has its own [__str__] and inherits
    [__repr__]. *)
Definition object_class : class :=
  Class ["object"] (Some (original "object" "__repr__"))
    (Some (original "object" "__str__")).
Definition ParserElement_class : class :=
  Class ["ParserElement"; "object"] (Some (original "ParserElement" "__repr__"))
    (Some (original "ParserElement" "__str__")).
Definition And_class : class :=
  Class ["And"; "ParserElement"; "object"] None (Some (original "And" "__str__")).

Definition pyparsing_classes : gmap string class :=
  <["And" := And_class]> (<["ParserElement" := ParserElement_class]>
    (<["object" := object_class]> ∅)).

Definition pyparsing_namespace : list object :=
  [other_object; class_object "ParserElement"; class_object "And"].

End FastReprs.

(** ** Profiling of [MatchFirst] ([coconut/_pyparsing.py], PROFILING) *)

Module Profiling.

(** pyparsing's [ParseException(pstr, loc, msg, elem)]; [elem] is the
    [id] of a parser element. *)
Record ParseException : Type := ParseException_ {
  pstr : string;
  loc : Z;
  msg : string;
  parserElement : option nat;
}.

(** The two attributes that profiling adds to a [MatchFirst]. *)
Record stats : Type := Stats {
  expr_usage_stats : list Z;
  expr_timing_stats : list (list Q);
}.

Section MatchFirst.
(** What a successful parse returns, exceptions that [new_parseImpl] does
    not handle, and the rest of the program state. *)
Context {Ret Other Rest : Type}.

Inductive exception : Type :=
  | parse_error (err : ParseException)
  | IndexError
  | AttributeError
  | other_error (x : Other).

(** [_profiled_MatchFirst_objs] maps the [id] of an object to the object;
    the map here holds the attributes that profiling gave it.  [clock] is
    what [get_clock_time()] reads. *)
Record world : Type := World {
  _profiled_MatchFirst_objs : gmap nat stats;
  clock : Q;
  rest : Rest;
}.

(** A parser element [e] as [new_parseImpl] uses it: [e.errmsg] and
    [e._parse], which may change all of the state. *)
Record ParserElement : Type := Element {
  errmsg : string;
  _parse : string -> Z -> bool -> world -> result exception Ret * world;
}.

Record MatchFirst : Type := MatchFirst_ {
  id : nat;
  self_errmsg : string;
  exprs : list ParserElement;
}.

Definition get_clock_time (w : world) : Q := clock w.

Definition set_stats (self : MatchFirst) (st : stats) (w : world) : world :=
  World (<[id self := st]> (_profiled_MatchFirst_objs w)) (clock w) (rest w).

(** Lines 424 to 427: the first use of [self] creates its statistics. *)
Definition first_use (self : MatchFirst) (w : world) : world :=
  match _profiled_MatchFirst_objs w !! id self with
  | Some _ => w
  | None =>
      set_stats self
        (Stats (replicate (length (exprs self)) 0) (replicate (length (exprs self)) [])) w
  end.

(** [self.expr_timing_stats[i].append(sample)]. *)
Definition append_timing (self : MatchFirst) (i : nat) (sample : Q) (w : world)
  : result exception world :=
  match _profiled_MatchFirst_objs w !! id self with
  | None => Raise AttributeError
  | Some st =>
      match expr_timing_stats st !! i with
      | None => Raise IndexError
      | Some ts =>
          Return (set_stats self
                    (Stats (expr_usage_stats st)
                       (<[i := ts ++ [sample]]> (expr_timing_stats st))) w)
      end
  end.

(** [self.expr_usage_stats[i] += 1]. *)
Definition count_usage (self : MatchFirst) (i : nat) (w : world) : result exception world :=
  match _profiled_MatchFirst_objs w !! id self with
  | None => Raise AttributeError
  | Some st =>
      match expr_usage_stats st !! i with
      | None => Raise IndexError
      | Some n =>
          Return (set_stats self
                    (Stats (<[i := n + 1]> (expr_usage_stats st)) (expr_timing_stats st)) w)
      end
  end.

(** Lines 432 to 438, the body of the outer [try].  The [finally] clause
    runs whatever [e._parse] did, and an exception that it raises replaces
    the pending result. *)
Definition attempt (self : MatchFirst) (i : nat) (e : ParserElement)
    (instring : string) (loc : Z) (doActions : bool) (w : world)
  : result exception Ret * world :=
  let start_time := get_clock_time w in
  let '(r, w) := _parse e instring loc doActions w in
  match append_timing self i (get_clock_time w - start_time)%Q w with
  | Raise x => (Raise x, w)
  | Return w =>
      match r with
      | Raise x => (Raise x, w)
      | Return ret =>
          match count_usage self i w with
          | Raise x => (Raise x, w)
          | Return w => (Return ret, w)
          end
      end
  end.

Definition len (s : string) : Z := Z.of_nat (String.length s).

Definition with_msg (err : ParseException) (m : string) : ParseException :=
  ParseException_ (pstr err) (loc err) m (parserElement err).

(** The [for] loop of lines 430 to 452 from alternative [i] on, with its
    [else] clause. *)
Fixpoint try_alternatives (self : MatchFirst) (instring : string) (loc0 : Z)
    (doActions : bool) (i : nat) (es : list ParserElement)
    (maxExcLoc : Z) (maxException : option ParseException) (w : world)
  : result exception Ret * world :=
  match es with
  | [] =>
      match maxException with
      | Some err => (Raise (parse_error (with_msg err (self_errmsg self))), w)
      | None =>
          (Raise (parse_error
                    (ParseException_ instring loc0 "no defined alternatives to match"
                       (Some (id self)))), w)
      end
  | e :: es' =>
      match attempt self i e instring loc0 doActions w with
      | (Return ret, w) => (Return ret, w)
      | (Raise (parse_error err), w) =>
          if loc err >? maxExcLoc
          then try_alternatives self instring loc0 doActions (S i) es' (loc err) (Some err) w
          else try_alternatives self instring loc0 doActions (S i) es' maxExcLoc maxException w
      | (Raise IndexError, w) =>
          if len instring >? maxExcLoc
          then try_alternatives self instring loc0 doActions (S i) es' (len instring)
                 (Some (ParseException_ instring (len instring) (errmsg e) (Some (id self)))) w
          else try_alternatives self instring loc0 doActions (S i) es' maxExcLoc maxException w
      | (Raise x, w) => (Raise x, w)
      end
  end.

Definition new_parseImpl (self : MatchFirst) (instring : string) (loc : Z)
    (doActions : bool) (w : world) : result exception Ret * world :=
  try_alternatives self instring loc doActions 0 (exprs self) (-1) None (first_use self w).

(** The alternatives [es], tried in order from [w] as the loop tries them,
    all fail with a parse error or an index fault.  [errs] lists the parse
    errors in the order of the alternatives, an index fault standing as the
    parse error at the end of the input that the loop makes of it. *)
Inductive all_fail (self : MatchFirst) (instring : string) (loc0 : Z) (doActions : bool)
  : nat -> list ParserElement -> world -> list ParseException -> world -> Prop :=
  | all_fail_nil i w : all_fail self instring loc0 doActions i [] w [] w
  | all_fail_parse i e es w err w' errs w'' :
      attempt self i e instring loc0 doActions w = (Raise (parse_error err), w') ->
      all_fail self instring loc0 doActions (S i) es w' errs w'' ->
      all_fail self instring loc0 doActions i (e :: es) w (err :: errs) w''
  | all_fail_index i e es w w' errs w'' :
      attempt self i e instring loc0 doActions w = (Raise IndexError, w') ->
      all_fail self instring loc0 doActions (S i) es w' errs w'' ->
      all_fail self instring loc0 doActions i (e :: es) w
        (ParseException_ instring (len instring) (errmsg e) (Some (id self)) :: errs) w''.

(** [err] is the entry of [errs] that is furthest into the input, the
    first one among equals. *)
Definition furthest_first (errs : list ParseException) (err : ParseException) : Prop :=
  exists k, errs !! k = Some err
    /\ (forall j err', errs !! j = Some err' -> loc err' <= loc err)
    /\ (forall j err', (j < k)%nat -> errs !! j = Some err' -> loc err' < loc err).

(** The invariant of the statistics: an alternative was never used more
    often than it was timed. *)
Definition stats_ok (st : stats) : Prop :=
  forall i n ts,
    expr_usage_stats st !! i = Some n -> expr_timing_stats st !! i = Some ts ->
    n <= Z.of_nat (length ts).

Definition profile_ok (w : world) : Prop :=
  forall k st, _profiled_MatchFirst_objs w !! k = Some st -> stats_ok st.

(** What the loop raises when all remaining alternatives fail, in terms of
    the maximum [maxException] that it enters with. *)
Definition raised_after (self : MatchFirst) (instring : string) (loc0 : Z)
    (maxException : option ParseException) (errs : list ParseException)
    (x : ParseException) : Prop :=
  match maxException with
  | None =>
      (errs = [] /\ x = ParseException_ instring loc0 "no defined alternatives to match"
                          (Some (id self)))
      \/ (exists err, furthest_first errs err /\ x = with_msg err (self_errmsg self))
  | Some m =>
      ((forall j err', errs !! j = Some err' -> loc err' <= loc m)
       /\ x = with_msg m (self_errmsg self))
      \/ (exists err, furthest_first errs err /\ loc m < loc err
                      /\ x = with_msg err (self_errmsg self))
  end.

(** The states that profiled parsing reaches from a program start: the
    alternatives of the elements that are called keep the invariant, as
    they do when all they do to the statistics is to call profiled elements
    themselves. *)
Inductive reached : world -> Prop :=
  | reached_start c r : reached (World ∅ c r)
  | reached_call self instring loc0 doActions w :
      reached w ->
      (forall e, e ∈ exprs self ->
         forall w0, profile_ok w0 -> profile_ok (snd (_parse e instring loc0 doActions w0))) ->
      reached (snd (new_parseImpl self instring loc0 doActions w)).

End MatchFirst.

Arguments exception : clear implicits.
Arguments world : clear implicits.
Arguments ParserElement : clear implicits.
Arguments MatchFirst : clear implicits.

(** *** Elements for trying the profiled choice out

    [fails_at n] raises a parse error at position [n], [matches] consumes
    one character, and [faults] runs off the end of the input.  Each takes
    one unit of time and leaves the statistics alone. *)

Abbreviation stub_world := (world unit).
Abbreviation stub_element := (ParserElement Z unit unit).

Definition tick (w : stub_world) : stub_world :=
  World (_profiled_MatchFirst_objs w) (clock w + 1)%Q (rest w).

Definition fails_at (n : Z) (name : string) : stub_element :=
  Element ("Expected " +:+ name)
    (fun instring _ _ w =>
       (Raise (parse_error (ParseException_ instring n ("Expected " +:+ name) None)),
        tick w)).

Definition matches (name : string) : stub_element :=
  Element ("Expected " +:+ name) (fun _ loc _ w => (Return (loc + 1), tick w)).

Definition faults (name : string) : stub_element :=
  Element ("Expected " +:+ name) (fun _ _ _ w => (Raise IndexError, tick w)).

Definition start : stub_world := World ∅ 0%Q tt.

Definition choice_matching : MatchFirst Z unit unit :=
  MatchFirst_ 1 "Expected {a | b | c}" [fails_at 2 "a"; matches "b"; fails_at 9 "c"].

Definition choice_failing : MatchFirst Z unit unit :=
  MatchFirst_ 2 "Expected {a | b | c | d}"
    [fails_at 2 "a"; faults "b"; fails_at 3 "c"; fails_at 1 "d"].

(** *** The estimate of the gain from reordering *)

Inductive exc : Type := ValueError.

(** [sum(l)], which adds from the left, starting at [0].  Times are
    floating-point numbers in the program and exact rationals here: a sum
    here does not round, and what is stated of the value of a sum or of a
    cost below is stated of exact arithmetic, from which the result of the
    program can differ by its rounding. *)
Definition sum (l : list Q) : Q := foldl Qplus 0%Q l.

Fixpoint time_for_ordering_from (i : nat) (expr_usage_stats : list Z)
    (expr_timing_aves : list Q) (total_time : Q) : Q :=
  match expr_usage_stats with
  | [] => total_time
  | n :: usage' =>
      time_for_ordering_from (S i) usage' expr_timing_aves
        (total_time + inject_Z n * sum (take (S i) expr_timing_aves))%Q
  end.

Definition time_for_ordering (expr_usage_stats : list Z) (expr_timing_aves : list Q) : Q :=
  time_for_ordering_from 0 expr_usage_stats expr_timing_aves 0%Q.

(** [x < y] on pairs [(usage, average)]: the first components decide
    unless they are equal. *)
Definition pair_ltb (x y : Z * Q) : bool :=
  if negb (fst x =? fst y) then fst x <? fst y
  else if negb (Qeq_bool (snd x) (snd y))
       then match (snd x ?= snd y)%Q with Lt => true | _ => false end
       else false.

(** [sorted(l, reverse=True)]: descending, and stable, so that equal items
    keep their order.  An item moves behind exactly the items of the sorted
    rest that are greater than it. *)
Fixpoint insert_reverse (x : Z * Q) (l : list (Z * Q)) : list (Z * Q) :=
  match l with
  | [] => [x]
  | y :: l' => if pair_ltb x y then y :: insert_reverse x l' else x :: y :: l'
  end.

Definition sorted_reverse (l : list (Z * Q)) : list (Z * Q) :=
  foldr insert_reverse [] l.

(** The sorted pairs are transposed by [zip] and unpacked into two names,
    which raises [ValueError] when there is no pair. *)
Definition naive_timing_improvement (expr_usage_stats : list Z)
    (expr_timing_aves : list Q) : result exc Q :=
  match sorted_reverse (zip expr_usage_stats expr_timing_aves) with
  | [] => Raise ValueError
  | ordered =>
      Return (time_for_ordering (ordered.*1) (ordered.*2)
              - time_for_ordering expr_usage_stats expr_timing_aves)%Q
  end.

(** The averages that [print_poorly_ordered_MatchFirsts] computes. *)
Definition expr_timing_aves (st : stats) : list Q :=
  (fun ts => match ts with
             | [] => 0%Q
             | _ => (sum ts / inject_Z (Z.of_nat (length ts)))%Q
             end) <$> expr_timing_stats st.

(** The cost of an ordering as the specification gives it: each
    alternative is used [n] times at the price of all averages up to its
    own.  [before] is the sum of the averages of the alternatives in
    front. *)
Fixpoint cost (before : Q) (l : list (Z * Q)) : Q :=
  match l with
  | [] => 0%Q
  | (n, t) :: l' => (inject_Z n * (before + t) + cost (before + t) l')%Q
  end.

End Profiling.

(** ** The Jupyter kernel installer ([coconut/util.py]) *)

Module Kernel.

(** A path is the list of its components; [os.path.join] of a path and a
    relative path appends them. *)
Abbreviation path := (list string).
Abbreviation bytes := (list Byte.byte).

(** The operating system as the installer uses it, on a state [FS] of the
    file system.  A call answers [None] when it raises [OSError], and it
    may still have changed the state.  [isdir] and [read_bytes] observe the
    state:
    whether a path is a directory, and the contents of a regular file.
    The three laws are what the installer relies on: a written file has the
    written contents, creating directories leaves file contents alone, and
    a file copied into a directory is found there under its own name. *)
Class OS (FS : Type) : Type := {
  path_exists : path -> FS -> bool;
  isdir : path -> FS -> bool;
  read_bytes : path -> FS -> option bytes;
  rmtree : path -> FS -> option unit * FS;
  mkdir : path -> FS -> option unit * FS;
  makedirs : path -> FS -> option unit * FS;
  open_wb : path -> FS -> option unit * FS;
  write : path -> bytes -> FS -> option unit * FS;
  copy : path -> path -> FS -> option unit * FS;
  write_read p b fs fs' : write p b fs = (Some tt, fs') -> read_bytes p fs' = Some b;
  makedirs_read p q fs r fs' : makedirs p fs = (r, fs') -> read_bytes q fs' = read_bytes q fs;
  copy_read dir name dst b fs fs' :
    copy (dir ++ [name]) dst fs = (Some tt, fs') ->
    read_bytes (dir ++ [name]) fs = Some b ->
    isdir dst fs' = true ->
    read_bytes (dst ++ [name]) fs' = Some b;
}.

(** What the installer relies on for directories: none of its calls removes
    a directory, except [rmtree] those of the tree that it is given. *)
Class Directories (FS : Type) `{!OS FS} : Prop := {
  rmtree_isdir p q fs r fs' :
    rmtree p fs = (r, fs') -> ~ p `prefix_of` q -> isdir q fs = true -> isdir q fs' = true;
  mkdir_isdir p q fs r fs' :
    mkdir p fs = (r, fs') -> isdir q fs = true -> isdir q fs' = true;
  makedirs_isdir p q fs r fs' :
    makedirs p fs = (r, fs') -> isdir q fs = true -> isdir q fs' = true;
  open_wb_isdir p q fs r fs' :
    open_wb p fs = (r, fs') -> isdir q fs = true -> isdir q fs' = true;
  write_isdir p b q fs r fs' :
    write p b fs = (r, fs') -> isdir q fs = true -> isdir q fs' = true;
  copy_isdir src dst q fs r fs' :
    copy src dst fs = (r, fs') -> isdir q fs = true -> isdir q fs' = true;
}.

#[local] Unset Elimination Schemes.

(** A JSON document. *)
Inductive json : Type :=
  | JString (s : string)
  | JArray (items : list json)
  | JObject (members : list (string * json)).

#[local] Set Elimination Schemes.

(** What the installer reports, in order. *)
Inductive event : Type :=
  | warn (message : string)
  | traceback_print_exc
  | logger_log_exc
  | logger_print_exc
  | logger_warn (message : string).

Section Installer.
Context {FS : Type} `{!OS FS}.

(** From [coconut.constants] and [sys]. *)
Context (icoconut_custom_kernel_dir icoconut_custom_kernel_install_loc : path).
Context (fixpath : path -> path) (WINDOWS : bool) (default_encoding : string).
Context (exec_prefix : path) (sys_executable : string).

(** [json.dumps(obj, indent=indent)] and [s.encode(encoding=encoding)]. *)
Context (json_dumps : json -> Z -> string) (encode : string -> string -> bytes).

(** Calls in sequence: the first [OSError] ends them. *)
Definition and_then (m : FS -> option unit * FS) (k : FS -> option unit * FS)
    (fs : FS) : option unit * FS :=
  match m fs with
  | (Some _, fs') => k fs'
  | (None, fs') => (None, fs')
  end.

Definition skip (fs : FS) : option unit * FS := (Some tt, fs).

Definition kernel_dict (executable : string) : json :=
  JObject
    [("argv", JArray [JString executable; JString "-m"; JString "coconut.icoconut";
                      JString "-f"; JString "{connection_file}"]);
     ("display_name", JString "Coconut");
     ("language", JString "coconut")].

Definition kernel_json (executable : option string) : bytes :=
  encode (json_dumps (kernel_dict (default sys_executable executable)) 1) default_encoding.

(** [make_custom_kernel], whose result is always
    [icoconut_custom_kernel_dir]. *)
Definition make_custom_kernel (executable : option string) : FS -> option unit * FS :=
  and_then
    (fun fs => if path_exists icoconut_custom_kernel_dir fs
               then rmtree icoconut_custom_kernel_dir fs else skip fs)
    (and_then (mkdir icoconut_custom_kernel_dir)
       (and_then (open_wb (icoconut_custom_kernel_dir ++ ["kernel.json"]))
          (write (icoconut_custom_kernel_dir ++ ["kernel.json"])
             (kernel_json executable)))).

(** [ensure_dir(dirpath)] without a logger: it returns whether the
    directory is there and never raises. *)
Definition ensure_dir (dirpath : path) (fs : FS) : bool * FS :=
  if path_exists dirpath fs then (true, fs)
  else match makedirs dirpath fs with
       | (Some _, fs') => (true, fs')
       | (None, fs') => (false, fs')
       end.

Definition kernel_source : path := icoconut_custom_kernel_dir ++ ["kernel.json"].
Definition kernel_dest : path := fixpath (exec_prefix ++ icoconut_custom_kernel_install_loc).

(** The body of the [try] of [install_custom_kernel]. *)
Definition install_steps (executable : option string) : FS -> option unit * FS :=
  and_then (make_custom_kernel executable)
    (and_then (fun fs => (Some tt, snd (ensure_dir kernel_dest fs)))
       (copy kernel_source kernel_dest)).

Definition remedy : string :=
  if WINDOWS then " (try again from a shell that is run as administrator)"
  else " (try again with 'sudo')".

(** [install_custom_kernel]: the result ([None] is Python's [None]), the
    file system and what was reported.  [logger] tells whether a logger
    was passed. *)
Definition install_custom_kernel (executable : option string) (logger : bool) (fs : FS)
  : option path * FS * list event :=
  match install_steps executable fs with
  | (None, fs') =>
      let existing_kernel := kernel_dest ++ ["kernel.json"] in
      let '(errmsg, reported) :=
        if path_exists existing_kernel fs' then
          ("Failed to update Coconut Jupyter kernel installation; the 'coconut' kernel might not work properly as a result",
           if logger then [logger_log_exc] else [])
        else
          ("Coconut Jupyter kernel installation failed due to above error",
           if logger then [logger_print_exc] else [traceback_print_exc]) in
      let errmsg := errmsg +:+ remedy +:+ "." in
      (None, fs', reported ++ [if logger then logger_warn errmsg else warn errmsg])
  | (Some _, fs') => (Some kernel_dest, fs', [])
  end.

End Installer.

(** *** A file system in memory

    Regular files with their contents, directories, and a switch that makes
    every change fail as it does without permission. *)
Record mem_fs : Type := MemFS {
  files : gmap path bytes;
  dirs : gset path;
  read_only : bool;
}.

Definition mem_change (f : mem_fs -> mem_fs) (fs : mem_fs) : option unit * mem_fs :=
  if read_only fs then (None, fs) else (Some tt, f fs).

Definition mem_copy (src dst : path) (fs : mem_fs) : option unit * mem_fs :=
  match files fs !! src, last src with
  | Some b, Some name =>
      mem_change
        (fun fs => MemFS (<[(if bool_decide (dst ∈ dirs fs) then dst ++ [name] else dst) := b]>
                            (files fs)) (dirs fs) (read_only fs)) fs
  | _, _ => (None, fs)
  end.

#[export] Program Instance mem_os : OS mem_fs := {|
  path_exists p fs := bool_decide (p ∈ dirs fs) || bool_decide (is_Some (files fs !! p));
  isdir p fs := bool_decide (p ∈ dirs fs);
  read_bytes p fs := files fs !! p;
  rmtree p := mem_change (fun fs =>
    MemFS (filter (fun kv => ¬ p `prefix_of` fst kv) (files fs))
      (filter (fun d => ¬ p `prefix_of` d) (dirs fs)) (read_only fs));
  mkdir p fs :=
    if bool_decide (p ∈ dirs fs) then (None, fs)
    else mem_change (fun fs => MemFS (files fs) ({[p]} ∪ dirs fs) (read_only fs)) fs;
  makedirs p fs :=
    if bool_decide (p ∈ dirs fs) then (None, fs)
    else mem_change (fun fs => MemFS (files fs) ({[p]} ∪ dirs fs) (read_only fs)) fs;
  open_wb p := mem_change (fun fs => MemFS (<[p := []]> (files fs)) (dirs fs) (read_only fs));
  write p b := mem_change (fun fs => MemFS (<[p := b]> (files fs)) (dirs fs) (read_only fs));
  copy := mem_copy;
|}.
Next Obligation.
  intros p b fs fs'. cbn. unfold mem_change. destruct (read_only fs); [done|].
  intros [= <-]. cbn. apply lookup_insert_eq.
Qed.
Next Obligation.
  intros p q fs r fs'. cbn. destruct (bool_decide (p ∈ dirs fs)); [by intros [= _ <-]|].
  unfold mem_change. destruct (read_only fs); by intros [= _ <-].
Qed.
Next Obligation.
  intros dir name dst b fs fs'. cbn. unfold mem_copy, mem_change.
  rewrite last_snoc. intros Hcopy Hsrc. rewrite Hsrc in Hcopy.
  destruct (read_only fs); [done|]. injection Hcopy as <-. cbn.
  intros ->. apply lookup_insert_eq.
Qed.

#[export] Instance mem_directories : Directories mem_fs.
Proof.
  split; cbn.
  - intros p q fs r fs'. unfold mem_change. destruct (read_only fs); [by intros [= _ <-]|].
    intros [= _ <-] Hq. cbn. rewrite !bool_decide_eq_true. intros Hin.
    by apply elem_of_filter.
  - intros p q fs r fs'. destruct (bool_decide (p ∈ dirs fs)); [by intros [= _ <-]|].
    unfold mem_change. destruct (read_only fs); [by intros [= _ <-]|].
    intros [= _ <-]. cbn. rewrite !bool_decide_eq_true. set_solver.
  - intros p q fs r fs'. destruct (bool_decide (p ∈ dirs fs)); [by intros [= _ <-]|].
    unfold mem_change. destruct (read_only fs); [by intros [= _ <-]|].
    intros [= _ <-]. cbn. rewrite !bool_decide_eq_true. set_solver.
  - intros p q fs r fs'. unfold mem_change. by destruct (read_only fs); intros [= _ <-].
  - intros p b q fs r fs'. unfold mem_change. by destruct (read_only fs); intros [= _ <-].
  - intros src dst q fs r fs'. unfold mem_copy, mem_change.
    destruct (files fs !! src), (last src), (read_only fs); by intros [= _ <-].
Qed.

(** *** A serializer for trying the installer out

    [dumps j level] writes [j] the way [json.dumps(j, indent=1)] does for
    strings that need no escape other than of the quote and the backslash;
    [level] is the depth of nesting.  [ascii_encode] encodes ASCII text. *)
Definition quote : ascii := "034"%char.

Fixpoint escape (s : string) : string :=
  match s with
  | EmptyString => EmptyString
  | String c s' =>
      if Ascii.eqb c quote || Ascii.eqb c "\"
      then String "\" (String c (escape s')) else String c (escape s')
  end.

Definition newline (level : nat) : string :=
  String "010" (string_of_list_ascii (replicate level " "%char)).

Fixpoint dumps (level : nat) (j : json) : string :=
  match j with
  | JString s => String quote (escape s) +:+ String quote EmptyString
  | JArray [] => "[]"
  | JArray items =>
      "[" +:+ newline (S level)
      +:+ PyStr.join ("," +:+ newline (S level)) (map (dumps (S level)) items)
      +:+ newline level +:+ "]"
  | JObject [] => "{}"
  | JObject members =>
      "{" +:+ newline (S level)
      +:+ PyStr.join ("," +:+ newline (S level))
            (map (fun kv => String quote (escape (fst kv)) +:+ String quote EmptyString
                            +:+ ": " +:+ dumps (S level) (snd kv)) members)
      +:+ newline level +:+ "}"
  end.

Definition ascii_encode (s : string) (encoding : string) : bytes := list_byte_of_string s.

Definition lines (l : list string) : string := PyStr.join (String "010" EmptyString) l.

(** A file system with the destination directory in place, and the same
    one without permission to change anything. *)
Definition writable : mem_fs := MemFS ∅ {[ ["usr"; "share"; "jupyter"; "kernels"; "coconut"] ]} false.

Definition install_on (fs : mem_fs) : option path * mem_fs * list event :=
  install_custom_kernel ["coconut"; "icoconut"; "coconut"]
    ["share"; "jupyter"; "kernels"; "coconut"] (fun p => p) false "utf-8" ["usr"] "python3"
    (fun j _ => dumps 0 j) ascii_encode None false fs.

End Kernel.

(** ** Text utilities ([coconut/util.py], UTILITIES) *)

Module Text.

Definition LF : ascii := "010"%char.
Definition CR : ascii := "013"%char.

(** [s[n:]] and [s[:n]] for [n >= 0]. *)
Fixpoint drop_start (n : nat) (s : string) : string :=
  match n, s with
  | O, _ => s
  | S n', String _ s' => drop_start n' s'
  | S _, EmptyString => EmptyString
  end.

Fixpoint take_start (n : nat) (s : string) : string :=
  match n, s with
  | S n', String c s' => String c (take_start n' s')
  | _, _ => EmptyString
  end.

(** [s[:-n]] for [n > 0]. *)
Definition drop_end (n : nat) (s : string) : string :=
  take_start (String.length s - n) s.

(** [s.endswith(suffix)]: [s] is [suffix], or its tail ends with it. *)
Fixpoint endswith (suffix s : string) : bool :=
  String.eqb s suffix ||
  match s with
  | EmptyString => false
  | String _ s' => endswith suffix s'
  end.

(** The characters at which [str.splitlines] ends a line, among the ASCII
    ones: LF, VT, FF, CR, FS, GS and RS. *)
Definition is_line_boundary (c : ascii) : bool :=
  let n := nat_of_ascii c in
  ((10 <=? n)%nat && (n <=? 13)%nat) || ((28 <=? n)%nat && (n <=? 30)%nat).

(** [s.splitlines(True)]: the lines with their terminators, CR LF being
    one terminator. *)
Fixpoint splitlines (s : string) : list string :=
  match s with
  | EmptyString => []
  | String c s' =>
      if is_line_boundary c then
        match s' with
        | String c' s'' =>
            if Ascii.eqb c CR && Ascii.eqb c' LF
            then String c (String c' EmptyString) :: splitlines s''
            else String c EmptyString :: splitlines s'
        | EmptyString => [String c EmptyString]
        end
      else
        match splitlines s' with
        | line :: lines => String c line :: lines
        | [] => [String c EmptyString]
        end
  end.

(** [s.replace(old, new)].  [skip] counts the characters of an occurrence
    of [old] that are still to be passed over. *)
Fixpoint replace_from (old new : string) (skip : nat) (s : string) : string :=
  match s with
  | EmptyString => EmptyString
  | String c s' =>
      match skip with
      | S k => replace_from old new k s'
      | O =>
          if String.prefix old s
          then new +:+ replace_from old new (String.length old - 1) s'
          else String c (replace_from old new 0 s')
      end
  end.

(** With an empty [old], [new] goes before every character and at the
    end. *)
Fixpoint intersperse (new s : string) : string :=
  match s with
  | EmptyString => new
  | String c s' => new +:+ String c (intersperse new s')
  end.

Definition replace (old new s : string) : string :=
  match old with
  | EmptyString => intersperse new s
  | _ => replace_from old new 0 s
  end.

(** A line as [splitlines] gives it: a line boundary is its last
    character, or CR before a final LF. *)
Fixpoint terminated (line : string) : bool :=
  match line with
  | EmptyString => true
  | String c line' =>
      if is_line_boundary c
      then String.eqb line' EmptyString
           || (Ascii.eqb c CR && String.eqb line' (String LF EmptyString))
      else terminated line'
  end.

(** Neither LF nor CR. *)
Definition no_newline (c : ascii) : bool := negb (Ascii.eqb c LF || Ascii.eqb c CR).

(** The string with [f] applied to every character. *)
Fixpoint map_chars (f : ascii -> ascii) (s : string) : string :=
  match s with
  | EmptyString => EmptyString
  | String c s' => String (f c) (map_chars f s')
  end.

(** The empty-separator [join] of the lines that a generator yields. *)
Definition concat (l : list string) : string := foldr String.append EmptyString l.

End Text.

(** ** Utilities ([coconut/util.py], UTILITIES) *)

Module Util.
Import Text.

Inductive exc : Type := AssertionError.

(** [crc32] is [zlib.crc32], which may answer a negative number. *)
Definition checksum (crc32 : list Byte.byte -> Z) (data : list Byte.byte) : Z :=
  Z.land (crc32 data) 4294967295.

Definition clip (num : Z) (min max : option Z) : Z :=
  if (match min with Some lo => num <? lo | None => false end) then default num min
  else if (match max with Some hi => num >? hi | None => false end) then default num max
  else num.

(** The loop of [logical_lines] over the lines that are left, and what it
    yields after the loop; the result lists what the generator yields. *)
Fixpoint logical_lines_loop (keep_newlines : bool) (lines : list string)
    (prev_content : option string) : list string :=
  match lines with
  | [] =>
      match prev_content with
      | Some content => [content]
      | None => []
      end
  | line :: lines' =>
      let yield line :=
        match prev_content with
        | Some content => content +:+ line
        | None => line
        end :: logical_lines_loop keep_newlines lines' None in
      if endswith (String CR (String LF EmptyString)) line then
        yield (if keep_newlines then line else drop_end 2 line)
      else if endswith (String LF EmptyString) line || endswith (String CR EmptyString) line
      then yield (if keep_newlines then line else drop_end 1 line)
      else
        logical_lines_loop keep_newlines lines'
          (Some (default EmptyString prev_content +:+ line))
  end.

Definition logical_lines (text : string) (keep_newlines : bool) : list string :=
  logical_lines_loop keep_newlines (splitlines text) None.

(** [non_syntactic_newline] is a constant of [coconut.constants]. *)
Definition normalize_newlines (non_syntactic_newline : string) (text : string)
  : result exc string :=
  let norm_text :=
    replace (String CR EmptyString) (String LF EmptyString)
      (replace non_syntactic_newline (String LF EmptyString) text) in
  if (String.length norm_text =? String.length text)%nat then Return norm_text
  else Raise AssertionError.

Definition assert_remove_prefix (inputstr prefix : string) (allow_no_prefix : bool)
  : result exc string :=
  if negb allow_no_prefix then
    if String.prefix prefix inputstr
    then Return (drop_start (String.length prefix) inputstr)
    else Raise AssertionError
  else if negb (String.prefix prefix inputstr) then Return inputstr
  else Return (drop_start (String.length prefix) inputstr).

Definition remove_prefix (inputstr prefix : string) : result exc string :=
  assert_remove_prefix inputstr prefix true.

Definition split_leading_whitespace (inputstr : string) : result exc (string * string) :=
  let basestr := PyStr.lstrip inputstr in
  let whitespace := take_start (String.length inputstr - String.length basestr) inputstr in
  if String.eqb (whitespace +:+ basestr) inputstr then Return (whitespace, basestr)
  else Raise AssertionError.

Definition split_trailing_whitespace (inputstr : string) : result exc (string * string) :=
  let basestr := PyStr.rstrip inputstr in
  let whitespace := drop_start (String.length basestr) inputstr in
  if String.eqb (basestr +:+ whitespace) inputstr then Return (basestr, whitespace)
  else Raise AssertionError.

Definition replace_all (inputstr : string) (all_to_replace : list string)
    (replace_to : string) : string :=
  foldl (fun inputstr to_replace => replace to_replace replace_to inputstr)
    inputstr all_to_replace.

(** [without_keys]: the dictionary is a finite map and [rem_keys] a list. *)
Definition without_keys `{Countable K} {V} (inputdict : gmap K V) (rem_keys : list K)
  : gmap K V :=
  filter (fun kv => fst kv ∉ rem_keys) inputdict.

End Util.

(** ** Memoization ([coconut/util.py], [memoize] and [memoize_with_exceptions]) *)

Module Memo.

Section Memoize.
(** Arguments, as [lru_cache] makes a key of them, results, exceptions
    that are instances of [Exception], those that are not, and the rest of
    the program state. *)
Context {Args Res Exn BaseExn World : Type} `{EqDecision Args}.

(** Python's [None] among the results. *)
Context (none : Res).

Inductive raised : Type :=
  | exception (exc : Exn)
  | base_exception (b : BaseExn).

(** The store of [lru_cache]: its entries, the most recently used
    first. *)
Definition store : Type := list (Args * (Res * option Exn)).

Record state : Type := State {
  cache : store;
  world : World;
}.

(** The function that is memoized.  It may change all of the state, the
    cache included, as it does when it calls its memoized self. *)
Context (func : Args -> state -> result raised Res * state).

Fixpoint cache_get (key : Args) (c : store) : option (Res * option Exn) :=
  match c with
  | [] => None
  | (k, value) :: c' => if decide (k = key) then Some value else cache_get key c'
  end.

Fixpoint cache_remove (key : Args) (c : store) : store :=
  match c with
  | [] => []
  | (k, value) :: c' =>
      if decide (k = key) then cache_remove key c' else (k, value) :: cache_remove key c'
  end.

(** The entry of [key] becomes [value] and the most recently used. *)
Definition to_front (key : Args) (value : Res * option Exn) (c : store) : store :=
  (key, value) :: cache_remove key c.

(** The inner function of [memoizer] before [memoize] wraps it: the pair
    [(res, exc)].  The last component counts the calls of [func]. *)
Definition safe_func (args : Args) (st : state) (runs : nat)
  : result BaseExn (Res * option Exn) * state * nat :=
  match func args st with
  | (Return res, st) => (Return (res, None), st, S runs)
  | (Raise (exception exc), st) => (Return (none, Some exc), st, S runs)
  | (Raise (base_exception b), st) => (Raise b, st, S runs)
  end.

(** [lru_cache(None)(safe_func)]: a dictionary, in which the result of a
    call replaces what is there for the key. *)
Definition unbounded (args : Args) (st : state) (runs : nat)
  : result BaseExn (Res * option Exn) * state * nat :=
  match cache_get args (cache st) with
  | Some value => (Return value, st, runs)
  | None =>
      match safe_func args st runs with
      | (Return value, st, runs) =>
          (Return value, State (to_front args value (cache st)) (world st), runs)
      | (Raise b, st, runs) => (Raise b, st, runs)
      end
  end.

(** [lru_cache(maxsize)(safe_func)] for a positive [maxsize].  A hit makes
    the entry the most recently used.  After a miss, a key that is in the
    cache by then, put there during the call, keeps its entry; otherwise
    the result is stored, in place of the least recently used entry when
    the cache is full. *)
Definition bounded (maxsize : nat) (args : Args) (st : state) (runs : nat)
  : result BaseExn (Res * option Exn) * state * nat :=
  match cache_get args (cache st) with
  | Some value => (Return value, State (to_front args value (cache st)) (world st), runs)
  | None =>
      match safe_func args st runs with
      | (Return value, st, runs) =>
          (Return value,
           State (match cache_get args (cache st) with
                  | Some _ => cache st
                  | None =>
                      if (maxsize <=? length (cache st))%nat
                      then (args, value) :: removelast (cache st)
                      else (args, value) :: cache st
                  end) (world st), runs)
      | (Raise b, st, runs) => (Raise b, st, runs)
      end
  end.

(** [memoize(maxsize)(safe_func)]: the function itself where [lru_cache]
    could not be imported, and [lru_cache(maxsize)(safe_func)] otherwise,
    which does not cache at all for a [maxsize] of zero, or below zero
    (Python 3.8 and later take a negative [maxsize] as zero). *)
Definition memoized_safe_func (lru_cache : bool) (maxsize : option Z) (args : Args)
    (st : state) (runs : nat) : result BaseExn (Res * option Exn) * state * nat :=
  if lru_cache then
    match maxsize with
    | None => unbounded args st runs
    | Some m =>
        if m <=? 0 then safe_func args st runs else bounded (Z.to_nat m) args st runs
    end
  else safe_func args st runs.

Definition memoized_func (lru_cache : bool) (maxsize : option Z) (args : Args)
    (st : state) (runs : nat) : result raised Res * state * nat :=
  match memoized_safe_func lru_cache maxsize args st runs with
  | (Return (res, exc), st, runs) =>
      match exc with
      | Some exc => (Raise (exception exc), st, runs)
      | None => (Return res, st, runs)
      end
  | (Raise b, st, runs) => (Raise (base_exception b), st, runs)
  end.

End Memoize.

Arguments raised : clear implicits.
Arguments store : clear implicits.
Arguments state : clear implicits.

(** A function for trying the memoizer out: it fails on negative
    arguments. *)
Definition stub_func (args : Z) (st : state Z Z string unit)
  : result (raised string unit) Z * state Z Z string unit :=
  if args <? 0 then (Raise (exception "negative"), st) else (Return (args * args), st).

(** A function that leaves an entry for its own arguments in the cache, as
    a function does that calls its memoized self with the same arguments
    and then returns something else. *)
Definition nesting_func (args : Z) (st : state Z Z string unit)
  : result (raised string unit) Z * state Z Z string unit :=
  (Return 1, State ((args, (2, None)) :: cache st) (world st)).

End Memo.

(** ** The report on poorly ordered choices ([print_poorly_ordered_MatchFirsts]) *)

Module Report.
Import Profiling.

(** What is printed for one object. *)
Record entry : Type := Entry {
  obj : nat;
  usage : list Z;
  aves : list Q;
  improvement : Q;
}.

(** [sorted(l, key=key)]: ascending, and stable, so that items of equal
    key keep their order.  An item moves behind exactly the items of the
    sorted rest whose key is smaller. *)
Fixpoint insert_by {A} (key : A -> Q) (x : A) (l : list A) : list A :=
  match l with
  | [] => [x]
  | y :: l' =>
      match (key y ?= key x)%Q with
      | Lt => y :: insert_by key x l'
      | _ => x :: y :: l'
      end
  end.

Definition sorted_by {A} (key : A -> Q) (l : list A) : list A :=
  foldr (insert_by key) [] l.

(** The first loop: the averages and the estimate of every object.  The
    first estimate that raises ends it. *)
Fixpoint analyse (objs : list (nat * stats)) : result exc (list entry) :=
  match objs with
  | [] => Return []
  | (k, st) :: objs' =>
      match naive_timing_improvement (expr_usage_stats st) (expr_timing_aves st) with
      | Raise e => Raise e
      | Return estimate =>
          match analyse objs' with
          | Raise e => Raise e
          | Return entries =>
              Return (Entry k (expr_usage_stats st) (expr_timing_aves st) estimate :: entries)
          end
      end
  end.

(** [objs] is [_profiled_MatchFirst_objs.values()] in the order of the
    dictionary; the result lists what is printed, in order. *)
Definition print_poorly_ordered_MatchFirsts (objs : list (nat * stats))
  : result exc (list entry) :=
  match analyse objs with
  | Raise e => Raise e
  | Return entries =>
      let ordered := sorted_by improvement entries in
      Return (drop (length ordered - 100) ordered)
  end.

(** The entry [en] is what the first loop computes for the object [o]. *)
Definition describes (o : nat * stats) (en : entry) : Prop :=
  obj en = fst o /\ usage en = expr_usage_stats (snd o)
  /\ aves en = expr_timing_aves (snd o)
  /\ naive_timing_improvement (usage en) (aves en) = Return (improvement en).

(** Ascending order of the estimate. *)
Definition by_improvement (x y : entry) : Prop := (improvement x <= improvement y)%Q.

(** The usage counts that profiling keeps for [self], if any. *)
Definition usage_of {Ret Other Rest} (self : MatchFirst Ret Other Rest) (w : world Rest)
  : option (list Z) :=
  expr_usage_stats <$> (_profiled_MatchFirst_objs w !! id self).

End Report.

(** ** The state that [set_fast_pyparsing_reprs] leaves *)

Module Patching.
Import FastReprs.

(** A class whose own [__repr__] and [__str__] are both its fast repr. *)
Definition patched (classes : gmap string class) (cls : string) : Prop :=
  exists c, classes !! cls = Some c
            /\ own_repr c = Some (fast_repr_of cls) /\ own_str c = Some (fast_repr_of cls).

End Patching.

(** ** A parse step that is interrupted *)

Module Interrupted.
Import Packrat.

(** A parse step that raises an exception which is not a parse exception,
    as a [KeyboardInterrupt] or a [RecursionError] in the middle of a
    parse, and leaves the state as it is. *)
Definition interrupted_parseNoCache (self : nat) (instring : string) (loc : Z)
    (doActions callPreParse : bool) (st : state nat nat unit stub_cache)
  : result (raised (string * Z * string) string unit) (Z * list string)
    * state nat nat unit stub_cache :=
  (Raise (other_exception tt), st).

End Interrupted.

(** ** A choice with an alternative that crashes *)

Module Crashing.
Import Profiling.

(** An alternative that raises an exception which is neither a parse
    error nor an [IndexError], as a parse action with a bug does. *)
Definition crashes (name : string) : stub_element :=
  Element ("Expected " +:+ name) (fun _ _ _ w => (Raise (other_error tt), tick w)).

Definition choice_crashing : MatchFirst Z unit unit :=
  MatchFirst_ 3 "Expected {a | b | c}" [fails_at 2 "a"; crashes "b"; matches "c"].

(** A choice without alternatives. *)
Definition choice_empty : MatchFirst Z unit unit := MatchFirst_ 4 "Expected {}" [].

End Crashing.

(** ** [keydefaultdict] ([coconut/util.py]) *)

Module KeyDefaultDict.

Section Dict.
(** Keys, values, what the factory may raise, and the rest of the program
    state. *)
Context {K V Exn World : Type} `{Countable K}.

(** The dictionary is part of the state: the factory may change it. *)
Record state : Type := State {
  items : gmap K V;
  world : World;
}.

Inductive raised : Type :=
  | TypeError
  | RecursionError
  | factory_error (e : Exn).

(** [default_factory], [None] as [defaultdict()] without arguments has
    it. *)
Context (default_factory : option (K -> state -> result Exn V * state)).

(** [self[key] = value]. *)
Definition setitem (key : K) (value : V) (st : state) : state :=
  State (<[key := value]> (items st)) (world st).

(** [__missing__]: calling [None] raises [TypeError].  [return self[key]]
    finds the key that was set; without it, the lookup would call
    [__missing__] again, without end. *)
Definition __missing__ (key : K) (st : state) (runs : nat) : result raised V * state * nat :=
  match default_factory with
  | None => (Raise TypeError, st, runs)
  | Some factory =>
      match factory key st with
      | (Raise e, st) => (Raise (factory_error e), st, S runs)
      | (Return value, st) =>
          let st := setitem key value st in
          match items st !! key with
          | Some value => (Return value, st, S runs)
          | None => (Raise RecursionError, st, S runs)
          end
      end
  end.

(** [self[key]] of a [dict] subclass that defines [__missing__].  The last
    component counts the calls of the factory. *)
Definition getitem (key : K) (st : state) (runs : nat) : result raised V * state * nat :=
  match items st !! key with
  | Some value => (Return value, st, runs)
  | None => __missing__ key st runs
  end.

End Dict.

Arguments state : clear implicits.
Arguments state _ _ _ {_ _}.
Arguments raised : clear implicits.

(** A factory for trying the dictionary out: the length of the key. *)
Definition length_factory (key : string) (st : state string nat unit)
  : result unit nat * state string nat unit :=
  (Return (String.length key), st).

End KeyDefaultDict.

(** ** The data files of the Jupyter kernel ([get_kernel_data_files]) *)

Module KernelData.
Import Kernel.

Section DataFiles.
Context {FS : Type} `{!OS FS}.
Context (icoconut_custom_kernel_dir icoconut_custom_kernel_install_loc : path).
Context (icoconut_custom_kernel_file_loc : path).
Context (fixpath : path -> path) (WINDOWS : bool) (default_encoding : string).
Context (exec_prefix : path) (sys_executable : string).
Context (json_dumps : json -> Z -> string) (encode : string -> string -> bytes).

(** The last two statements of [get_kernel_data_files]: the result of
    [install_custom_kernel] is not looked at. *)
Definition install_and_list (executable : string) (fs : FS)
  : list (path * list path) * FS * list event :=
  let '(_, fs, reported) :=
    install_custom_kernel icoconut_custom_kernel_dir icoconut_custom_kernel_install_loc
      fixpath WINDOWS default_encoding exec_prefix sys_executable json_dumps encode
      (Some executable) false fs in
  ([(icoconut_custom_kernel_install_loc, [icoconut_custom_kernel_file_loc])], fs, reported).

Definition get_kernel_data_files (argv : list string) (fs : FS)
  : list (path * list path) * FS * list event :=
  if existsb (String.prefix "bdist") argv then install_and_list "python" fs
  else if existsb (String.prefix "install") argv then install_and_list sys_executable fs
  else ([], fs, []).

End DataFiles.

(** [setup.py] as it is run on the file system in memory. *)
Definition data_files_on (argv : list string) (fs : mem_fs)
  : list (path * list path) * mem_fs * list event :=
  get_kernel_data_files ["coconut"; "icoconut"; "coconut"]
    ["share"; "jupyter"; "kernels"; "coconut"]
    ["coconut"; "icoconut"; "coconut"; "kernel.json"] (fun p => p) false "utf-8" ["usr"]
    "python3" (fun j _ => dumps 0 j) ascii_encode argv fs.

End KernelData.

(** * Properties *)

Example str_int_2047 : PyStr.str_int 2047 = "2047".
Proof. reflexivity. Qed.

Example str_int_neg : PyStr.str_int (-30) = "-30".
Proof. reflexivity. Qed.

Example int_padded : PyStr.int " +1_000 " = Some 1000.
Proof. reflexivity. Qed.

Example int_bad : PyStr.int "7rc1" = None.
Proof. reflexivity. Qed.

(** A file separator is white space for [str.strip()] and not for
    [int()]. *)
Example int_file_separator :
  PyStr.strip (String "028" "3") = "3" /\ PyStr.int (String "028" "3") = None.
Proof. split; reflexivity. Qed.

Example split_dots : PyStr.split "." "2.4.7" = ["2"; "4"; "7"].
Proof. reflexivity. Qed.

(** ** Decimal printing and parsing *)

Section PyStrFacts.
Import PyStr.

Lemma digit_char_is_digit d :
  0 <= d < 10 -> is_digit (digit_char d) = true /\ digit_val (digit_char d) = d.
Proof.
  intros Hd.
  assert (d = 0 \/ d = 1 \/ d = 2 \/ d = 3 \/ d = 4 \/ d = 5 \/ d = 6
          \/ d = 7 \/ d = 8 \/ d = 9) as Hcases by lia.
  repeat (destruct Hcases as [-> | Hcases]; [by vm_compute |]).
  subst d. by vm_compute.
Qed.

Lemma is_digit_not_space c : is_digit c = true -> is_int_space c = false.
Proof.
  unfold is_digit, is_int_space. generalize (nat_of_ascii c). intros n Hn.
  apply andb_true_iff in Hn as [H1 H2].
  apply Nat.leb_le in H1, H2.
  apply orb_false_iff. split.
  - apply andb_false_iff. right. apply Nat.leb_gt. lia.
  - apply Nat.eqb_neq. lia.
Qed.

Lemma is_digit_not_dot c : is_digit c = true -> Ascii.eqb c "." = false.
Proof.
  intros Hc. apply Ascii.eqb_neq. intros ->. by vm_compute in Hc.
Qed.

(** Reading the digits that [str_digits] wrote gives the number back:
    [p] is the power of ten that the accumulator is shifted by. *)
Lemma int_digits_str_digits fuel : forall n acc,
  0 <= n < 2 ^ Z.of_nat (S fuel) ->
  exists p, forall prev a,
    int_digits prev a (str_digits (S fuel) n acc) = int_digits true (a * p + n) acc.
Proof.
  induction fuel as [|fuel IH]; intros n acc Hn.
  - exists 10. intros prev a. cbn [str_digits].
    change (2 ^ Z.of_nat 1) with 2 in Hn.
    replace (n / 10) with 0 by (symmetry; apply Z.div_small; lia).
    cbn [Z.eqb int_digits].
    rewrite Z.mod_small by lia.
    destruct (digit_char_is_digit n) as [-> ->]; [lia|].
    f_equal. lia.
  - cbn [str_digits]. destruct (Z.eqb_spec (n / 10) 0) as [Hq|Hq].
    + exists 10. intros prev a. cbn [int_digits].
      destruct (digit_char_is_digit (n mod 10)) as [-> ->].
      { apply Z.mod_pos_bound. lia. }
      f_equal. pose proof (Z.div_mod n 10). lia.
    + destruct (IH (n / 10) (String (digit_char (n mod 10)) acc)) as [p Hp].
      { split; [apply Z.div_pos; lia|].
        apply Z.div_lt_upper_bound; [lia|].
        rewrite (Nat2Z.inj_succ (S fuel)), Z.pow_succ_r in Hn by lia. lia. }
      exists (10 * p). intros prev a. rewrite Hp. cbn [int_digits].
      destruct (digit_char_is_digit (n mod 10)) as [-> ->].
      { apply Z.mod_pos_bound. lia. }
      f_equal. pose proof (Z.div_mod n 10). lia.
Qed.

Lemma digits_fuel_enough n : 0 <= n -> 0 <= n < 2 ^ Z.of_nat (digits_fuel n).
Proof.
  intros Hn. split; [done|]. unfold digits_fuel.
  rewrite Nat2Z.inj_succ, Z2Nat.id by apply Z.log2_nonneg.
  destruct (Z.eq_dec n 0) as [->|Hne]; [done|].
  apply Z.log2_spec. lia.
Qed.

Lemma str_digits_all_digits fuel : forall n acc,
  0 <= n -> all_chars is_digit acc = true ->
  all_chars is_digit (str_digits fuel n acc) = true.
Proof.
  induction fuel as [|fuel IH]; intros n acc Hn Hacc; [done|].
  cbn [str_digits].
  assert (all_chars is_digit (String (digit_char (n mod 10)) acc) = true) as Hacc'.
  { cbn [all_chars]. rewrite Hacc.
    destruct (digit_char_is_digit (n mod 10)) as [-> _]; [|done].
    apply Z.mod_pos_bound. lia. }
  destruct (n / 10 =? 0); [done|].
  apply IH; [apply Z.div_pos; lia | done].
Qed.

Lemma str_digits_nonempty fuel n acc : str_digits (S fuel) n acc <> EmptyString.
Proof.
  revert n acc. induction fuel as [|fuel IH]; intros n acc; cbn [str_digits].
  - by destruct (n / 10 =? 0).
  - destruct (n / 10 =? 0); [done|]. apply IH.
Qed.

Lemma lstrip_no_space s :
  all_chars (fun c => negb (is_int_space c)) s = true -> int_lstrip s = s.
Proof.
  destruct s as [|c s]; [done|]. cbn. intros [Hc _]%andb_true_iff.
  by apply negb_true_iff in Hc as ->.
Qed.

Lemma rstrip_no_space s :
  all_chars (fun c => negb (is_int_space c)) s = true -> int_rstrip s = s.
Proof.
  induction s as [|c s IH]; [done|]. cbn. intros [Hc Hs]%andb_true_iff.
  rewrite (IH Hs). apply negb_true_iff in Hc as ->. by destruct s.
Qed.

Lemma all_chars_impl (p q : ascii -> bool) s :
  (forall c, p c = true -> q c = true) -> all_chars p s = true -> all_chars q s = true.
Proof.
  intros Hpq. induction s as [|c s IH]; [done|]. cbn.
  intros [Hc Hs]%andb_true_iff. by rewrite (Hpq _ Hc), (IH Hs).
Qed.

Lemma strip_digits s : all_chars is_digit s = true -> int_strip s = s.
Proof.
  intros Hs.
  assert (all_chars (fun c => negb (is_int_space c)) s = true) as Hns.
  { revert Hs. apply all_chars_impl. intros c Hc. by rewrite is_digit_not_space. }
  unfold int_strip. by rewrite (lstrip_no_space _ Hns), rstrip_no_space.
Qed.

Lemma int_str_nonneg n : 0 <= n ->
  int (str_digits (digits_fuel n) n EmptyString) = Some n.
Proof.
  intros Hn. unfold int.
  pose proof (str_digits_all_digits (digits_fuel n) n EmptyString Hn eq_refl) as Hall.
  rewrite (strip_digits _ Hall).
  destruct (int_digits_str_digits (Z.to_nat (Z.log2 n)) n EmptyString) as [p Hp].
  { apply (digits_fuel_enough n Hn). }
  fold (digits_fuel n) in Hp.
  assert (int_digits false 0 (str_digits (digits_fuel n) n EmptyString) = Some n) as Hint.
  { rewrite Hp. cbn. f_equal. }
  destruct (str_digits (digits_fuel n) n EmptyString) as [|c s] eqn:Hs; [done|].
  cbn in Hall. apply andb_true_iff in Hall as [Hc _].
  destruct (Ascii.eqb_spec c "+") as [->|?]; [by vm_compute in Hc|].
  destruct (Ascii.eqb_spec c "-") as [->|?]; [by vm_compute in Hc|].
  rewrite <- Hint.
  destruct c as [[] [] [] [] [] [] [] []]; try reflexivity; congruence.
Qed.

(** [int(str(z)) == z] for every integer. *)
Lemma int_str_int z : int (str_int z) = Some z.
Proof.
  unfold str_int. destruct (Z.ltb_spec z 0) as [Hneg|Hpos].
  - pose proof (int_str_nonneg (- z) ltac:(lia)) as Hint.
    pose proof (str_digits_all_digits (digits_fuel (- z)) (- z) EmptyString
                  ltac:(lia) eq_refl) as Hall.
    unfold int in *. rewrite (strip_digits _ Hall) in Hint.
    assert (int_strip (String "-" (str_digits (digits_fuel (- z)) (- z) EmptyString))
            = String "-" (str_digits (digits_fuel (- z)) (- z) EmptyString)) as ->.
    { unfold int_strip. cbn [int_lstrip]. change (is_int_space "-") with false. cbv iota.
      apply rstrip_no_space. cbn [all_chars]. change (is_int_space "-") with false.
      revert Hall. apply all_chars_impl. intros c Hc. by rewrite is_digit_not_space. }
    assert (int_digits false 0 (str_digits (digits_fuel (- z)) (- z) EmptyString)
            = Some (- z)) as ->.
    { destruct (str_digits (digits_fuel (- z)) (- z) EmptyString) as [|c s] eqn:Hs.
      - by apply str_digits_nonempty in Hs.
      - cbn in Hall. apply andb_true_iff in Hall as [Hc _].
        rewrite <- Hint.
        destruct c as [[] [] [] [] [] [] [] []]; try reflexivity;
          by vm_compute in Hc. }
    cbn. f_equal. lia.
  - by apply int_str_nonneg.
Qed.

(** [str(z)] never contains the separator of a version string. *)
Lemma str_int_no_dot z : all_chars (fun c => negb (Ascii.eqb c ".")) (str_int z) = true.
Proof.
  assert (forall n, 0 <= n ->
    all_chars (fun c => negb (Ascii.eqb c ".")) (str_digits (digits_fuel n) n EmptyString)
    = true) as Hdigits.
  { intros n Hn. eapply all_chars_impl; [|by apply str_digits_all_digits].
    intros c Hc. cbn. by rewrite is_digit_not_dot. }
  unfold str_int. destruct (Z.ltb_spec z 0).
  - cbn [all_chars]. rewrite Hdigits by lia. done.
  - by apply Hdigits.
Qed.

Lemma split_nonempty sep s : split sep s <> [].
Proof.
  destruct s as [|c s]; [done|]. cbn.
  destruct (Ascii.eqb c sep); [done|]. by destruct (split sep s).
Qed.

Lemma split_no_sep sep s :
  all_chars (fun c => negb (Ascii.eqb c sep)) s = true -> split sep s = [s].
Proof.
  induction s as [|c s IH]; [done|]. cbn.
  intros [Hc Hs]%andb_true_iff. apply negb_true_iff in Hc as ->.
  by rewrite (IH Hs).
Qed.

Lemma split_app_sep sep s rest :
  all_chars (fun c => negb (Ascii.eqb c sep)) s = true ->
  split sep (s +:+ String sep rest) = s :: split sep rest.
Proof.
  induction s as [|c s IH].
  - intros _. change (EmptyString +:+ String sep rest) with (String sep rest).
    cbn [split]. by rewrite Ascii.eqb_refl.
  - intros [Hc Hs]%andb_true_iff. apply negb_true_iff in Hc.
    change (String c s +:+ String sep rest) with (String c (s +:+ String sep rest)).
    cbn [split]. by rewrite Hc, (IH Hs).
Qed.

(** Splitting a joined list of separator-free fields gives the fields. *)
Lemma split_join sep (l : list string) :
  l <> [] ->
  Forall (fun s => all_chars (fun c => negb (Ascii.eqb c sep)) s = true) l ->
  split sep (join (String sep EmptyString) l) = l.
Proof.
  induction l as [|x l IH]; [done|]. intros _ Hall.
  apply Forall_cons in Hall as [Hx Hl].
  destruct l as [|y l].
  - cbn. by apply split_no_sep.
  - change (join (String sep EmptyString) (x :: y :: l))
      with (x +:+ String sep (join (String sep EmptyString) (y :: l))).
    rewrite split_app_sep by done. f_equal. by apply IH.
Qed.

Lemma append_assoc (a b c : string) : (a +:+ b) +:+ c = a +:+ b +:+ c.
Proof.
  induction a as [|x a IH]; [done|].
  change (String x ((a +:+ b) +:+ c) = String x (a +:+ b +:+ c)). by rewrite IH.
Qed.

Lemma prefix_app sub post : String.prefix sub (sub +:+ post) = true.
Proof.
  induction sub as [|c sub IH].
  - by destruct post.
  - change (String c sub +:+ post) with (String c (sub +:+ post)).
    cbn [String.prefix]. by destruct (ascii_dec c c).
Qed.

Lemma contains_app sub pre post : contains sub (pre +:+ sub +:+ post) = true.
Proof.
  induction pre as [|c pre IH].
  - change (EmptyString +:+ sub +:+ post) with (sub +:+ post).
    pose proof (prefix_app sub post) as Hp.
    destruct (sub +:+ post); cbn [contains]; by rewrite Hp.
  - change (String c pre +:+ sub +:+ post) with (String c (pre +:+ sub +:+ post)).
    cbn [contains]. rewrite IH. apply orb_true_r.
Qed.

Lemma contains_eq sub s pre post : s = pre +:+ sub +:+ post -> contains sub s = true.
Proof. intros ->. apply contains_app. Qed.

End PyStrFacts.

(** ** Versions *)

Section VersionFacts.
Import Version.

Lemma ltb_tuple_lt a b : ltb a b = true <-> tuple_lt a b.
Proof.
  unfold ltb. revert b. induction a as [|x a IH]; intros [|y b]; cbn.
  - split; [done|inversion 1].
  - split; [constructor|done].
  - split; [done|inversion 1].
  - destruct (Z.eqb_spec x y) as [->|Hne].
    + rewrite IH. split; [by constructor|].
      inversion 1; subst; [lia|done].
    + destruct (Z.compare_spec x y) as [->|Hlt|Hgt]; [done| |].
      * split; [by constructor|done].
      * split; [done|]. inversion 1; subst; [lia|done].
Qed.

Lemma compare_ints_sound a b : compare (ints a) (ints b) = Some (compare_ints a b).
Proof.
  revert b. induction a as [|x a IH]; intros [|y b]; cbn; try done.
  destruct (x =? y); [apply IH|done].
Qed.

Lemma lt_ints a b : lt (ints a) (ints b) = Return (ltb a b).
Proof. unfold lt, ltb. rewrite compare_ints_sound. by destruct (compare_ints a b). Qed.

Lemma ge_ints a b : ge (ints a) (ints b) = Return (negb (ltb a b)).
Proof. unfold ge, ltb. rewrite compare_ints_sound. by destruct (compare_ints a b). Qed.

(** C9: for every non-empty tuple [t] of non-negative integers,
    [ver_str_to_tuple(ver_tuple_to_str(t)) == t]. *)
Theorem ver_str_to_tuple_ver_tuple_to_str (t : list Z) :
  t <> [] -> Forall (fun x => 0 <= x) t ->
  ver_str_to_tuple (ver_tuple_to_str (ints t)) = ints t.
Proof.
  intros Hne _. unfold ver_str_to_tuple, ver_tuple_to_str, ints.
  rewrite split_join.
  - rewrite <- !list_fmap_compose. apply list_fmap_ext. intros _ x _. cbn.
    by rewrite int_str_int.
  - by destruct t.
  - rewrite <- list_fmap_compose. apply Forall_fmap, Forall_true. intros x. cbn.
    apply str_int_no_dot.
Qed.

Lemma ver_str_to_tuple_ver_tuple_to_str_witness :
  [2; 4; 7] <> [] /\ Forall (fun x => 0 <= x) [2; 4; 7]
  /\ ver_str_to_tuple (ver_tuple_to_str (ints [2; 4; 7])) = ints [2; 4; 7].
Proof.
  assert ([2; 4; 7] <> []) as Hne by discriminate.
  assert (Forall (fun x => 0 <= x) [2; 4; 7]) as Hpos by (repeat constructor; lia).
  exact (conj Hne (conj Hpos (ver_str_to_tuple_ver_tuple_to_str [2; 4; 7] Hne Hpos))).
Defined.

(** The empty tuple does not come back: its string is empty, and an empty
    string splits into one empty field. *)
Example ver_roundtrip_empty : ver_str_to_tuple (ver_tuple_to_str []) = [VStr EmptyString].
Proof. reflexivity. Qed.

Lemma not_ltb_tuple_lt a b : ltb a b = false <-> ~ tuple_lt a b.
Proof. rewrite <- ltb_tuple_lt. by destruct (ltb a b). Qed.

End VersionFacts.

(** ** Engine selection *)

Section EngineFacts.
Import Version Engine.

Lemma too_old_msg_command min_ver_str info python package :
  PyStr.contains (upgrade_command python package)
    (too_old_msg min_ver_str info python package) = true.
Proof.
  unfold too_old_msg, upgrade_command.
  set (cmd := "run '" +:+ python +:+ " -m pip install --upgrade " +:+ package +:+ "' to fix").
  set (head := "This version of Coconut requires pyparsing/cPyparsing version >= "
               +:+ min_ver_str +:+ got info).
  replace (_ +:+ min_ver_str +:+ got info +:+ _) with ((head +:+ " (") +:+ cmd +:+ ")").
  - apply contains_app.
  - unfold head, cmd. cbn [String.append].
    by rewrite !append_assoc.
Qed.

(** C1, as the code has it: without an engine, or below [min_ver], the
    gate raises [ImportError] with the upgrade command in its message.
    From [min_ver] on it succeeds; it warns once when the version is not
    below [max_ver], and, whatever [max_ver] is, it sets the modern flag and
    warns once more exactly when the version is not below [(3,)]. *)
Theorem version_gate_int_tuples (min_ver max_ver v : list Z)
    (info : option string) (package python : string) :
  let gate cur := version_gate min_ver max_ver cur info package python in
  let min_ver_str := ver_tuple_to_str (ints min_ver) in
  let max_ver_str := ver_tuple_to_str (ints max_ver) in
  let too_old := too_old_msg min_ver_str info python package in
  let too_new := too_new_msg max_ver_str info python package in
  let modern := modern_msg max_ver_str python in
  PyStr.contains (upgrade_command python package) too_old = true
  /\ gate None = ([], Raise (ImportError too_old))
  /\ (tuple_lt v min_ver -> gate (Some (ints v)) = ([], Raise (ImportError too_old)))
  /\ (~ tuple_lt v min_ver ->
      exists ws flag,
        gate (Some (ints v)) = (ws, Return flag)
        /\ (flag = true <-> ~ tuple_lt v [3])
        /\ (tuple_lt v max_ver -> tuple_lt v [3] -> ws = [])
        /\ (~ tuple_lt v max_ver -> tuple_lt v [3] -> ws = [too_new])
        /\ (tuple_lt v max_ver -> ~ tuple_lt v [3] -> ws = [modern])
        /\ (~ tuple_lt v max_ver -> ~ tuple_lt v [3] -> ws = [too_new; modern])).
Proof.
  cbv zeta. split; [apply too_old_msg_command|]. split; [done|].
  unfold version_gate. rewrite lt_ints.
  split.
  - intros Hlt. apply ltb_tuple_lt in Hlt. by rewrite Hlt.
  - intros Hge. apply not_ltb_tuple_lt in Hge. rewrite Hge.
    rewrite !ge_ints.
    eexists _, _. split; [reflexivity|].
    rewrite <- !not_ltb_tuple_lt, <- !ltb_tuple_lt.
    destruct (ltb v max_ver), (ltb v [3]); cbn; intuition congruence.
Qed.

Lemma version_gate_int_tuples_witness :
  exists ws flag,
    version_gate [2; 4; 7] [2; 4; 8] (Some (ints [2; 4; 7]))
      (Some "Python pyparsing v2.4.7") "pyparsing" "python"
    = (ws, Return flag)
    /\ (flag = true <-> ~ tuple_lt [2; 4; 7] [3]).
Proof.
  assert (~ tuple_lt [2; 4; 7] [2; 4; 7]) as Hge by (by apply not_ltb_tuple_lt).
  destruct (version_gate_int_tuples [2; 4; 7] [2; 4; 8] [2; 4; 7]
              (Some "Python pyparsing v2.4.7") "pyparsing" "python")
    as (_ & _ & _ & Hok).
  destruct (Hok Hge) as (ws & flag & Hrun & Hflag & _).
  exists ws, flag. exact (conj Hrun Hflag).
Defined.

(** The gate differs from its specification above [max_ver], where a
    version from [(3,)] on gets two warnings, and inside a range that
    reaches beyond [(3,)], where it warns although the version is
    supported. *)
Lemma gate_as_specified_counterexample :
  ~ gate_as_specified [2; 4; 7] [2; 4; 8] [3; 0; 0]
      (Some "Python pyparsing v3.0.0") "pyparsing" "python"
  /\ ~ gate_as_specified [3; 0; 0] [4; 0; 0] [3; 5; 0]
      (Some "Python pyparsing v3.5.0") "pyparsing" "python".
Proof.
  split.
  - intros (_ & _ & Hnew).
    destruct Hnew as [w Hw]; [by apply not_ltb_tuple_lt|].
    vm_compute in Hw. discriminate Hw.
  - intros (Hin & _ & _).
    destruct Hin as [m Hm];
      [by apply not_ltb_tuple_lt | by apply ltb_tuple_lt |].
    vm_compute in Hm. discriminate Hm.
Qed.

(** Below [(3,)] a version that is not below [max_ver] leaves the modern
    flag unset. *)
Example gate_too_new_not_modern :
  exists w, version_gate [2; 4; 7] [2; 4; 8] (Some (ints [2; 4; 8]))
              (Some "Python pyparsing v2.4.8") "pyparsing" "python"
            = ([w], Return false).
Proof. eexists. reflexivity. Qed.

(** A field that is not an integer literal can make the comparison itself
    fail. *)
Example gate_type_error :
  version_gate [2; 4; 7] [2; 4; 8] (Some (ver_str_to_tuple "2.4.7rc1"))
    None "pyparsing" "python" = ([], Raise TypeError).
Proof. reflexivity. Qed.

End EngineFacts.

(** ** Capability negotiation *)

Section NegotiationFacts.
Import Version Negotiation.

(** C7: without [enableIncremental] on the host's [ParserElement], the
    module defines its own, and every call of it raises [ImportError]; the
    message says that incremental parsing is only supported on a newer
    cPyparsing and gives the command that upgrades it. *)
Theorem enableIncremental_unsupported {pyobj : Type} (version_info : tuple)
    (min_versions_cPyparsing : list Z) (python : string) :
  exists f : list pyobj -> list (string * pyobj) -> result exc unit,
    incremental_setup false version_info min_versions_cPyparsing python
    = Return (Incremental false (Some false) (Some false) (Some f))
    /\ forall args kwargs, exists msg,
        f args kwargs = Raise (ImportError msg)
        /\ PyStr.contains "incremental parsing only supported on cPyparsing>=" msg = true
        /\ PyStr.contains (Engine.upgrade_command python "cPyparsing") msg = true.
Proof.
  eexists. split; [reflexivity|]. intros args kwargs. eexists. split; [reflexivity|].
  split.
  - exact (contains_app "incremental parsing only supported on cPyparsing>="
             EmptyString _).
  - apply (contains_eq _ _
             ("incremental parsing only supported on cPyparsing>="
              +:+ ver_tuple_to_str (ints min_versions_cPyparsing) +:+ " (") ")").
    unfold Engine.upgrade_command. by rewrite !append_assoc.
Qed.

(** C3: the chain issues at most one call, so at most one strategy is
    switched on, and the order of the tests is the priority: left recursion
    before incremental parsing before packrat. *)
Theorem negotiate_priority (MODERN_PYPARSING SUPPORTS_INCREMENTAL : bool)
    (use_left_recursion_if_available use_incremental_if_available use_packrat_parser : bool)
    (default_incremental_cache_size packrat_cache_size : option Z)
    (never_clear_incremental_cache : bool) :
  let calls :=
    negotiate MODERN_PYPARSING SUPPORTS_INCREMENTAL use_left_recursion_if_available
      use_incremental_if_available use_packrat_parser default_incremental_cache_size
      packrat_cache_size never_clear_incremental_cache in
  let lr := MODERN_PYPARSING && use_left_recursion_if_available in
  let inc := SUPPORTS_INCREMENTAL && use_incremental_if_available in
  (length calls <= 1)%nat
  /\ (count_active (active calls) <= 1)%nat
  /\ left_recursion (active calls) = lr
  /\ incremental (active calls) = negb lr && inc
  /\ packrat (active calls) = negb lr && negb inc && use_packrat_parser.
Proof.
  destruct MODERN_PYPARSING, SUPPORTS_INCREMENTAL, use_left_recursion_if_available,
    use_incremental_if_available, use_packrat_parser; cbn; repeat split; lia.
Qed.

End NegotiationFacts.

(** ** The packrat cache *)

Section PackratFacts.
Import Packrat.
Context {Elem Ctx Tokens Args Tb Other World C : Type}.
Context `{!Cache (lookup Elem Ctx) (cached Tokens Args Tb) C}.

Abbreviation state := (state Elem Ctx World C).
Abbreviation outcome := (result (raised Args Tb Other) (Z * Tokens)).

Context (_parseNoCache :
  Elem -> string -> Z -> bool -> bool -> state -> outcome * state).

(** C2: [_parseCache] memoizes results and parse exceptions.  A call that
    misses runs the parse step once, on the state with the miss counted, and
    passes its outcome on; a returned value or a parse exception is then in
    the cache under the key, the exception without its traceback.  A second
    call with the same key does not run the parse step, and it returns the
    same value or raises a parse exception of the same class and
    arguments. *)
Theorem parseCache_memoizes (self : Elem) (instring : string) (loc : Z)
    (doActions callPreParse : bool) (st0 st1 st2 : state) (n0 n1 n2 : nat)
    (r1 r2 : outcome) :
  let key := Lookup self instring loc callPreParse doActions (packrat_context st0 self) in
  _parseCache _parseNoCache self instring loc doActions callPreParse st0 n0 = (r1, st1, n1) ->
  _parseCache _parseNoCache self instring loc doActions callPreParse st1 n1 = (r2, st2, n2) ->
  packrat_context st1 self = packrat_context st0 self ->
  (cache_get key (packrat_cache st0) = None ->
     n1 = S n0
     /\ r1 = fst (_parseNoCache self instring loc doActions callPreParse
                    (State (packrat_cache st0) (hits st0) (S (misses st0))
                       (packrat_context st0) (world st0)))
     /\ (forall c, cached_for r1 = Some c -> cache_get key (packrat_cache st1) = Some c))
  /\ (is_Some (cache_get key (packrat_cache st0)) -> n1 = n0)
  /\ (is_Some (cached_for r1) -> n2 = n1 /\ same_outcome r1 r2).
Proof.
  intros key Hrun1 Hrun2 Hctx.
  unfold _parseCache, copy in Hrun1. fold key in Hrun1.
  assert (is_Some (cached_for r1) ->
          exists c, cache_get key (packrat_cache st1) = Some c /\ agrees c r1) as Hcached.
  { destruct (cache_get key (packrat_cache st0)) as [[l t|e]|] eqn:Hget.
    - injection Hrun1 as <- <- <-. intros _. by exists (cached_value l t).
    - injection Hrun1 as <- <- <-. intros _. by exists (cached_exception e).
    - destruct (_parseNoCache _ _ _ _ _ _) as [[v|[pe|e]] st]; injection Hrun1 as <- <- <-.
      + intros _. eexists. split; [apply cache_get_set|]. by destruct v.
      + intros _. eexists. split; [apply cache_get_set|]. done.
      + by intros [? ?]. }
  split; [|split].
  - intros Hmiss. rewrite Hmiss in Hrun1.
    destruct (_parseNoCache _ _ _ _ _ _) as [[v|[pe|e]] st]; injection Hrun1 as <- <- <-;
      cbn; (split; [done|]); (split; [done|]).
    + intros c [= <-]. apply cache_get_set.
    + intros c [= <-]. apply cache_get_set.
    + done.
  - intros [c Hhit]. rewrite Hhit in Hrun1.
    by destruct c; injection Hrun1 as <- <- <-.
  - intros Hsome. destruct (Hcached Hsome) as (c & Hget & Hc).
    unfold _parseCache, copy in Hrun2. rewrite Hctx in Hrun2. fold key in Hrun2.
    rewrite Hget in Hrun2.
    destruct c as [l t|e], r1 as [v|[pe|x]]; try done; injection Hrun2 as <- <- <-.
    + split; [done|]. cbn in *. by subst v.
    + done.
Qed.

End PackratFacts.

Section PackratWitness.
Import Packrat.

Lemma parseCache_memoizes_witness :
  let run1 := _parseCache stub_parseNoCache 7%nat "ab" 0 true true stub_state 0 in
  let run2 := _parseCache stub_parseNoCache 7%nat "ab" 0 true true (snd (fst run1)) (snd run1) in
  snd run1 = 1%nat /\ snd run2 = 1%nat /\ same_outcome (fst (fst run1)) (fst (fst run2)).
Proof.
  intros run1 run2.
  assert (run1 = (fst (fst run1), snd (fst run1), snd run1)) as Hrun1 by reflexivity.
  assert (run2 = (fst (fst run2), snd (fst run2), snd run2)) as Hrun2 by reflexivity.
  destruct (parseCache_memoizes stub_parseNoCache 7%nat "ab" 0 true true stub_state
              (snd (fst run1)) (snd (fst run2)) 0 (snd run1) (snd run2)
              (fst (fst run1)) (fst (fst run2)) Hrun1 Hrun2 eq_refl)
    as (Hmiss & _ & Hhit).
  destruct (Hmiss eq_refl) as (Hn1 & _ & _).
  destruct Hhit as [Hn2 Hsame]; [by eexists|].
  split; [exact Hn1|]. split; [|exact Hsame].
  rewrite Hn2. exact Hn1.
Defined.

(** The same for a parse exception: the second call raises the cached
    exception, which has the class and the arguments of the first. *)
Example parseCache_exception :
  let run1 := _parseCache stub_parseNoCache 7%nat "ab" 1 true true stub_state 0 in
  let run2 := _parseCache stub_parseNoCache 7%nat "ab" 1 true true (snd (fst run1)) (snd run1) in
  fst (fst run1)
  = Raise (parse_exception
             (Exc "ParseException" ("ab", 1, "Expected end of text") (Some "traceback")))
  /\ fst (fst run2)
     = Raise (parse_exception (Exc "ParseException" ("ab", 1, "Expected end of text") None))
  /\ snd run2 = 1%nat.
Proof. by vm_compute. Qed.

End PackratWitness.

(** ** Fast reprs *)

Section FastReprsFacts.
Import FastReprs.

(** Without a recorded class, [unset_fast_pyparsing_reprs] changes
    nothing. *)
Lemma unset_fast_pyparsing_reprs_nothing_set (st : state) :
  _old_pyparsing_reprs st = [] -> unset_fast_pyparsing_reprs st = st.
Proof. destruct st as [cs old]. cbn. by intros ->. Qed.

(** Restoring a class commutes with a change of another class. *)
Lemma foldl_restore_alter (f : class -> class) (cls : string) old :
  Forall (fun entry => fst entry <> cls) old ->
  forall classes,
    foldl restore (alter f cls classes) old = alter f cls (foldl restore classes old).
Proof.
  induction 1 as [|[name [r s]] old Hname _ IH]; intros classes; [done|].
  cbn [foldl restore]. cbn in Hname.
  rewrite <- IH. f_equal.
  rewrite (alter_alter_ne (set_repr r) f); [|done].
  by rewrite (alter_alter_ne (set_str s) f).
Qed.

(** The loop of [set_fast_pyparsing_reprs] from a state in which the
    classes named in [done_] have been patched and recorded. *)
Lemma set_fast_pyparsing_reprs_loop_restorable (classes0 : gmap string class) namespace :
  forall (done_ : list string) (st : state),
    NoDup (class_names namespace) ->
    (forall name, name ∈ class_names namespace -> name ∉ done_) ->
    defines_both classes0 namespace ->
    foldl restore (classes st) (_old_pyparsing_reprs st) = classes0 ->
    (forall name, name ∉ done_ -> classes st !! name = classes0 !! name) ->
    Forall (fun entry => fst entry ∈ done_) (_old_pyparsing_reprs st) ->
    exists st1,
      set_fast_pyparsing_reprs_loop namespace st = Return st1
      /\ foldl restore (classes st1) (_old_pyparsing_reprs st1) = classes0.
Proof.
  induction namespace as [|obj namespace IH];
    intros done_ [classes old] Hnodup Hfresh Hboth Hrestore Hsame Hold; cbn in *.
  { by eexists. }
  destruct obj as [cls|]; cbn in *.
  2:{ by apply (IH done_). }
  apply NoDup_cons in Hnodup as [Hcls Hnodup].
  assert (cls ∉ done_) as Hnew by (apply Hfresh; left).
  assert (defines_both classes0 namespace) as Hboth'.
  { intros name Hname. apply Hboth. by right. }
  assert (issubclass_ParserElement classes cls = issubclass_ParserElement classes0 cls) as ->.
  { unfold issubclass_ParserElement. by rewrite Hsame. }
  destruct (issubclass_ParserElement classes0 cls) eqn:Hsub.
  2:{ apply (IH done_); try done. intros name Hname. apply Hfresh. by right. }
  destruct (Hboth cls ltac:(left) Hsub) as (order & r & s & Hdef).
  assert (classes !! cls = Some (Class (cls :: order) (Some r) (Some s))) as Hcur.
  { by rewrite Hsame. }
  unfold getattr. rewrite Hcur. cbn. rewrite Hcur. cbn.
  apply (IH (cls :: done_)); try done; cbn.
  - intros name Hname. apply not_elem_of_cons. split.
    + intros ->. done.
    + apply Hfresh. by right.
  - rewrite foldl_snoc.
    rewrite !foldl_restore_alter, Hrestore.
    2,3: (eapply Forall_impl; [exact Hold|]; intros entry Hentry Heq;
          cbn in Hentry, Heq; by rewrite Heq in Hentry).
    unfold restore. rewrite !alter_alter_eq. apply alter_id.
    intros c Hc. rewrite Hdef in Hc. by injection Hc as <-.
  - intros name [Hne Hname]%not_elem_of_cons.
    rewrite !lookup_alter_ne by done. by apply Hsame.
  - apply Forall_app. split.
    + eapply Forall_impl; [exact Hold|]. intros entry Hentry. by right.
    + repeat constructor.
Qed.

(** The round trip holds where no patched class inherits one of the two
    methods: with different classes in the namespace, each subclass of
    [ParserElement] defining both [__repr__] and [__str__], setting and then
    unsetting gives back the state before. *)
Lemma set_unset_fast_pyparsing_reprs (classes0 : gmap string class) namespace :
  NoDup (class_names namespace) -> defines_both classes0 namespace ->
  exists st1,
    set_fast_pyparsing_reprs namespace (State classes0 []) = Return st1
    /\ unset_fast_pyparsing_reprs st1 = State classes0 [].
Proof.
  intros Hnodup Hboth.
  destruct (set_fast_pyparsing_reprs_loop_restorable classes0 namespace []
              (State classes0 []) Hnodup) as (st1 & Hrun & Hrestore); try done.
  - intros name _. apply not_elem_of_nil.
  - exists st1. split; [done|]. unfold unset_fast_pyparsing_reprs. by rewrite Hrestore.
Qed.

(** C5 fails on pyparsing's own classes.  [And] inherits [__repr__] from
    [ParserElement], which is patched before the loop reaches [And]: the
    method recorded for [And] is then the fast repr of [ParserElement], and
    [unset_fast_pyparsing_reprs] writes it into [And] for good. *)
Theorem fast_reprs_not_restored :
  let st0 := State pyparsing_classes [] in
  exists st1,
    set_fast_pyparsing_reprs pyparsing_namespace st0 = Return st1
    /\ repr_of st0 "And" = Return (original "ParserElement" "__repr__")
    /\ repr_of (unset_fast_pyparsing_reprs st1) "And"
       = Return (fast_repr_of "ParserElement")
    /\ _old_pyparsing_reprs (unset_fast_pyparsing_reprs st1) = [].
Proof. eexists. by vm_compute. Qed.

(** Setting twice records the fast reprs as originals, and a single unset
    then leaves them in place with nothing left to restore. *)
Example fast_reprs_set_twice :
  let st0 := State pyparsing_classes [] in
  exists st2,
    (set_fast_pyparsing_reprs pyparsing_namespace st0
       ≫= set_fast_pyparsing_reprs pyparsing_namespace) = Return st2
    /\ str_of (unset_fast_pyparsing_reprs st2) "And" = Return (fast_repr_of "And")
    /\ _old_pyparsing_reprs (unset_fast_pyparsing_reprs st2) = [].
Proof. eexists. by vm_compute. Qed.

End FastReprsFacts.

(** ** Profiling of [MatchFirst] *)

Section ProfilingFacts.
Import Profiling.
Context {Ret Other Rest : Type}.

Abbreviation world := (world Rest).
Abbreviation ParserElement := (ParserElement Ret Other Rest).
Abbreviation MatchFirst := (MatchFirst Ret Other Rest).
Abbreviation exception := (exception Other).

Implicit Types (self : MatchFirst) (e : ParserElement) (w : world).

(** *** The statistics *)

Lemma stats_ok_fresh n : stats_ok (Stats (replicate n 0) (replicate n [])).
Proof.
  intros i m ts [-> _]%lookup_replicate [-> _]%lookup_replicate. done.
Qed.

Lemma profile_ok_empty (c : Q) (r : Rest) : profile_ok (World ∅ c r).
Proof. intros k st Hk. cbn in Hk. by rewrite lookup_empty in Hk. Qed.

Lemma profile_ok_set_stats self st w :
  profile_ok w -> stats_ok st -> profile_ok (set_stats self st w).
Proof.
  intros Hw Hst k st' Hk. cbn in Hk.
  apply lookup_insert_Some in Hk as [[_ <-]|[_ Hk]]; [done|]. by apply (Hw k).
Qed.

Lemma first_use_ok self w : profile_ok w -> profile_ok (first_use self w).
Proof.
  intros Hw. unfold first_use.
  destruct (_profiled_MatchFirst_objs w !! id self); [done|].
  apply profile_ok_set_stats; [done|]. apply stats_ok_fresh.
Qed.

(** A new sample leaves room for one more use of the alternative. *)
Lemma stats_ok_timed st i ts sample :
  stats_ok st -> expr_timing_stats st !! i = Some ts ->
  stats_ok (Stats (expr_usage_stats st) (<[i := ts ++ [sample]]> (expr_timing_stats st)))
  /\ forall n, expr_usage_stats st !! i = Some n ->
       stats_ok (Stats (<[i := n + 1]> (expr_usage_stats st))
                   (<[i := ts ++ [sample]]> (expr_timing_stats st))).
Proof.
  intros Hst Hts. split.
  - intros j m ts' Hm Hts'. cbn in *.
    apply list_lookup_insert_Some in Hts' as [(<- & <- & _)|[Hne Hts']].
    + rewrite last_length. pose proof (Hst i m ts Hm Hts). lia.
    + by apply (Hst j).
  - intros n Hn j m ts' Hm Hts'. cbn in *.
    apply list_lookup_insert_Some in Hts' as [(<- & <- & _)|[Hne Hts']].
    + apply list_lookup_insert_Some in Hm as [(_ & <- & _)|[Hne _]]; [|done].
      rewrite last_length. pose proof (Hst i n ts Hn Hts). lia.
    + rewrite list_lookup_insert_ne in Hm by done. by apply (Hst j).
Qed.

Lemma attempt_ok self i e instring loc0 doActions w :
  (forall w0, profile_ok w0 -> profile_ok (snd (_parse e instring loc0 doActions w0))) ->
  profile_ok w -> profile_ok (snd (attempt self i e instring loc0 doActions w)).
Proof.
  intros He Hw. unfold attempt. specialize (He w Hw).
  destruct (_parse e instring loc0 doActions w) as [r w1]. cbn in He.
  unfold append_timing.
  destruct (_profiled_MatchFirst_objs w1 !! id self) as [st|] eqn:Hself; [|done].
  destruct (expr_timing_stats st !! i) as [ts|] eqn:Hts; [|done].
  set (sample := (get_clock_time w1 - get_clock_time w)%Q).
  destruct (stats_ok_timed st i ts sample (He _ _ Hself) Hts) as [Htimed Hused].
  destruct r as [ret|x]; [|by apply profile_ok_set_stats].
  unfold count_usage. cbn. rewrite lookup_insert_eq. cbn.
  destruct (expr_usage_stats st !! i) as [n|] eqn:Hn; cbn.
  - intros k st' Hk. cbn in Hk. rewrite insert_insert_eq in Hk.
    apply lookup_insert_Some in Hk as [[_ <-]|[_ Hk]]; [by apply Hused|].
    by apply (He k).
  - by apply profile_ok_set_stats.
Qed.

Lemma try_alternatives_ok self instring loc0 doActions es :
  (forall e, e ∈ es ->
     forall w0, profile_ok w0 -> profile_ok (snd (_parse e instring loc0 doActions w0))) ->
  forall i maxExcLoc maxException w,
    profile_ok w ->
    profile_ok (snd (try_alternatives self instring loc0 doActions i es
                       maxExcLoc maxException w)).
Proof.
  induction es as [|e es IH]; intros Hes i maxExcLoc maxException w Hw.
  - cbn. by destruct maxException.
  - cbn [try_alternatives].
    pose proof (attempt_ok self i e instring loc0 doActions w
                  (Hes e ltac:(left)) Hw) as Hstep.
    assert (forall e', e' ∈ es -> forall w0, profile_ok w0 ->
              profile_ok (snd (_parse e' instring loc0 doActions w0))) as Hes'.
    { intros e' He'. apply Hes. by right. }
    destruct (attempt self i e instring loc0 doActions w) as [[ret|[err| | |x]] w'];
      cbn in Hstep; try done.
    + destruct (loc err >? maxExcLoc); by apply IH.
    + destruct (len instring >? maxExcLoc); by apply IH.
Qed.


(** *** The ordered choice *)

(** One round of the loop for a candidate error [c], with the maximum
    kept so far: the candidate replaces it when it is strictly further. *)
Lemma furthest_first_cons_head (c : ParseException) errs :
  (forall j err', errs !! j = Some err' -> loc err' <= loc c) ->
  furthest_first (c :: errs) c.
Proof.
  intros Hle. exists 0%nat. split; [done|]. split.
  - intros [|j] err' Hj; cbn in Hj; [injection Hj as <-; lia|]. by apply (Hle j).
  - intros j err' Hj. lia.
Qed.

Lemma furthest_first_cons_tail (c : ParseException) errs err :
  furthest_first errs err -> loc c < loc err -> furthest_first (c :: errs) err.
Proof.
  intros (k & Hk & Hle & Hlt) Hc. exists (S k). split; [done|]. split.
  - intros [|j] err' Hj; cbn in Hj; [injection Hj as <-; lia|]. by apply (Hle j).
  - intros [|j] err' Hjk Hj; cbn in Hj; [injection Hj as <-; lia|].
    apply (Hlt j); [lia|done].
Qed.

Lemma raised_after_step self instring loc0 maxExcLoc maxException c errs x :
  0 <= loc c ->
  match maxException with
  | None => maxExcLoc = -1
  | Some m => loc m = maxExcLoc
  end ->
  raised_after self instring loc0
    (if loc c >? maxExcLoc then Some c else maxException) errs x ->
  raised_after self instring loc0 maxException (c :: errs) x.
Proof.
  intros Hc Hmax. destruct (Z.gtb_spec (loc c) maxExcLoc) as [Hgt|Hle].
  - intros [[Hall ->]|(err & Herr & Hlt & ->)].
    + destruct maxException as [m|]; [right | right].
      * exists c. split; [by apply furthest_first_cons_head|]. split; [lia|done].
      * exists c. split; [by apply furthest_first_cons_head|done].
    + destruct maxException as [m|]; right; exists err.
      * split; [by apply furthest_first_cons_tail|]. split; [lia|done].
      * split; [by apply furthest_first_cons_tail|done].
  - destruct maxException as [m|]; [|lia].
    intros [[Hall ->]|(err & Herr & Hlt & ->)].
    + left. split; [|done].
      intros [|j] err' Hj; cbn in Hj; [injection Hj as <-; lia|]. by apply (Hall j).
    + right. exists err. split; [apply furthest_first_cons_tail; [done|lia]|done].
Qed.

Lemma try_alternatives_all_fail self instring loc0 doActions i es w errs w1 :
  all_fail self instring loc0 doActions i es w errs w1 ->
  Forall (fun err => 0 <= loc err) errs ->
  forall maxExcLoc maxException,
    match maxException with
    | None => maxExcLoc = -1
    | Some m => loc m = maxExcLoc
    end ->
    exists x,
      try_alternatives self instring loc0 doActions i es maxExcLoc maxException w
      = (Raise (parse_error x), w1)
      /\ raised_after self instring loc0 maxException errs x.
Proof.
  induction 1 as [i w|i e es w err w' errs w'' Hstep _ IH|i e es w w' errs w'' Hstep _ IH];
    intros Hpos maxExcLoc maxException Hmax.
  - cbn. destruct maxException as [m|]; eexists; (split; [reflexivity|]).
    + left. split; [|done]. intros j err' Hj. by rewrite lookup_nil in Hj.
    + by left.
  - apply Forall_cons in Hpos as [Herr Hpos].
    cbn [try_alternatives]. rewrite Hstep.
    destruct (IH Hpos (if loc err >? maxExcLoc then loc err else maxExcLoc)
                (if loc err >? maxExcLoc then Some err else maxException))
      as (x & Hrun & Hx).
    { destruct (loc err >? maxExcLoc); done. }
    exists x. split.
    + by destruct (loc err >? maxExcLoc).
    + by apply (raised_after_step _ _ _ maxExcLoc).
  - apply Forall_cons in Hpos as [Herr Hpos].
    cbn [try_alternatives]. rewrite Hstep.
    set (c := ParseException_ instring (len instring) (errmsg e) (Some (id self))) in *.
    change (len instring) with (loc c).
    destruct (IH Hpos (if loc c >? maxExcLoc then loc c else maxExcLoc)
                (if loc c >? maxExcLoc then Some c else maxException))
      as (x & Hrun & Hx).
    { destruct (loc c >? maxExcLoc); done. }
    exists x. split.
    + by destruct (loc c >? maxExcLoc).
    + by apply (raised_after_step _ _ _ maxExcLoc).
Qed.

Lemma try_alternatives_first_match self instring loc0 doActions i pre w errs w1 :
  all_fail self instring loc0 doActions i pre w errs w1 ->
  forall e post ret w2 maxExcLoc maxException,
    attempt self (i + length pre) e instring loc0 doActions w1 = (Return ret, w2) ->
    try_alternatives self instring loc0 doActions i (pre ++ e :: post)
      maxExcLoc maxException w
    = (Return ret, w2).
Proof.
  induction 1 as [i w|i e' es w err w' errs w'' Hstep _ IH|i e' es w w' errs w'' Hstep _ IH];
    intros e post ret w2 maxExcLoc maxException He.
  - cbn in *. rewrite Nat.add_0_r in He. by rewrite He.
  - cbn [app try_alternatives length] in *. rewrite Hstep.
    rewrite Nat.add_succ_r in He.
    destruct (loc err >? maxExcLoc); by apply IH.
  - cbn [app try_alternatives length] in *. rewrite Hstep.
    rewrite Nat.add_succ_r in He.
    destruct (len instring >? maxExcLoc); by apply IH.
Qed.

(** C6: the profiled [parseImpl] keeps the ordered choice.  The first
    alternative that matches, after alternatives that failed with a parse
    error or an index fault, gives the result.  When all alternatives fail
    so, an index fault counting as a parse error at the end of the input,
    the error raised is the one furthest into the input, the first one
    among equals, with the message of the choice itself; and without any
    error, which is without any alternative, it is the generic one. *)
Theorem new_parseImpl_ordered_choice self instring loc0 doActions w :
  (forall pre e post errs w1 ret w2,
      exprs self = pre ++ e :: post ->
      all_fail self instring loc0 doActions 0 pre (first_use self w) errs w1 ->
      attempt self (length pre) e instring loc0 doActions w1 = (Return ret, w2) ->
      new_parseImpl self instring loc0 doActions w = (Return ret, w2))
  /\ (forall errs w1,
      all_fail self instring loc0 doActions 0 (exprs self) (first_use self w) errs w1 ->
      Forall (fun err => 0 <= loc err) errs ->
      exists x,
        new_parseImpl self instring loc0 doActions w = (Raise (parse_error x), w1)
        /\ ((errs = [] /\ exprs self = []
             /\ x = ParseException_ instring loc0 "no defined alternatives to match"
                      (Some (id self)))
            \/ (exists err, furthest_first errs err
                           /\ x = with_msg err (self_errmsg self)))).
Proof.
  split.
  - intros pre e post errs w1 ret w2 Hexprs Hpre He. unfold new_parseImpl.
    rewrite Hexprs. by eapply try_alternatives_first_match.
  - intros errs w1 Hall Hpos. unfold new_parseImpl.
    destruct (try_alternatives_all_fail _ _ _ _ _ _ _ _ _ Hall Hpos (-1) None eq_refl)
      as (x & Hrun & [[-> ->]|Hx]).
    + exists (ParseException_ instring loc0 "no defined alternatives to match"
                (Some (id self))).
      split; [done|]. left. split; [done|]. split; [|done]. by inversion Hall.
    + exists x. split; [done|]. by right.
Qed.

(** *** The invariant *)

(** C10: after every call of the profiled [parseImpl], for every profiled
    object and every index [i],
    [expr_usage_stats[i] <= len(expr_timing_stats[i])]. *)
Theorem usage_le_timing w :
  reached (Ret := Ret) (Other := Other) w ->
  forall k st i n ts,
    _profiled_MatchFirst_objs w !! k = Some st ->
    expr_usage_stats st !! i = Some n -> expr_timing_stats st !! i = Some ts ->
    n <= Z.of_nat (length ts).
Proof.
  intros Hw. assert (profile_ok w) as Hok.
  { induction Hw as [c r|self instring loc0 doActions w _ IH Hes].
    - apply profile_ok_empty.
    - unfold new_parseImpl. apply try_alternatives_ok; [done|]. by apply first_use_ok. }
  intros k st i n ts Hk. by apply (Hok k st Hk).
Qed.

End ProfilingFacts.

Section ProfilingWitnesses.
Import Profiling.

Lemma new_parseImpl_ordered_choice_witness :
  fst (new_parseImpl choice_matching "abc" 0 true start) = Return 1
  /\ fst (new_parseImpl choice_failing "abc" 0 true start)
     = Raise (parse_error
                (ParseException_ "abc" 3 "Expected {a | b | c | d}" (Some 2%nat))).
Proof.
  split.
  - destruct (new_parseImpl_ordered_choice choice_matching "abc" 0 true start)
      as [Hfirst _].
    eassert (all_fail choice_matching "abc" 0 true 0 [fails_at 2 "a"]
               (first_use choice_matching start) _ _) as Hpre.
    { eapply all_fail_parse; [by vm_compute|]. apply all_fail_nil. }
    erewrite (Hfirst [fails_at 2 "a"] (matches "b") [fails_at 9 "c"] _ _ 1 _ eq_refl Hpre);
      [done|]. by vm_compute.
  - destruct (new_parseImpl_ordered_choice choice_failing "abc" 0 true start)
      as [_ Hfail].
    eassert (all_fail choice_failing "abc" 0 true 0 (exprs choice_failing)
               (first_use choice_failing start) _ _) as Hall.
    { eapply all_fail_parse; [by vm_compute|].
      eapply all_fail_index; [by vm_compute|].
      eapply all_fail_parse; [by vm_compute|].
      eapply all_fail_parse; [by vm_compute|]. apply all_fail_nil. }
    destruct (Hfail _ _ Hall) as (x & Hrun & _).
    { repeat constructor; by vm_compute. }
    rewrite Hrun. cbn [fst].
    assert (new_parseImpl choice_failing "abc" 0 true start
            = (Raise (parse_error x), snd (new_parseImpl choice_failing "abc" 0 true start)))
      as Hval by (by rewrite Hrun).
    vm_compute in Hval. injection Hval as <-. reflexivity.
Defined.

Lemma usage_le_timing_witness :
  let w := snd (new_parseImpl choice_matching "abc" 0 true start) in
  exists st ts,
    _profiled_MatchFirst_objs w !! 1%nat = Some st
    /\ expr_usage_stats st = [0; 1; 0]
    /\ expr_timing_stats st !! 1%nat = Some ts
    /\ 1 <= Z.of_nat (length ts).
Proof.
  intros w.
  assert (@reached Z unit unit w) as Hw.
  { apply reached_call; [apply reached_start|].
    intros e He w0 Hw0.
    assert (_profiled_MatchFirst_objs (snd (_parse e "abc" 0 true w0))
            = _profiled_MatchFirst_objs w0) as Hsame.
    { cbn in He. set_unfold in He. by destruct He as [->|[->|[->|[]]]]. }
    intros k st. rewrite Hsame. apply Hw0. }
  eexists _, _. split; [by vm_compute|]. split; [by vm_compute|].
  split; [by vm_compute|].
  eapply (usage_le_timing w Hw 1%nat _ 1%nat 1); by vm_compute.
Defined.

End ProfilingWitnesses.

(** ** The estimate of the gain from reordering *)

Section TimingFacts.
Import Profiling.
Local Open Scope Q_scope.

Lemma sum_snoc (l : list Q) (t : Q) : sum (l ++ [t]) = sum l + t.
Proof. apply foldl_snoc. Qed.

Lemma cost_proper (l : list (Z * Q)) : forall p p', p == p' -> cost p l == cost p' l.
Proof.
  induction l as [|[n t] l IH]; intros p p' Hp; cbn [cost]; [reflexivity|].
  rewrite (IH (p + t) (p' + t)) by (by rewrite Hp). by rewrite Hp.
Qed.

(** In exact arithmetic [time_for_ordering] computes the cost of the
    specification. *)
Lemma time_for_ordering_from_cost (usage : list Z) (aves : list Q) :
  forall (i : nat) (total : Q),
    length usage = length (drop i aves) ->
    time_for_ordering_from i usage aves total
    == total + cost (sum (take i aves)) (zip usage (drop i aves)).
Proof.
  induction usage as [|n usage IH]; intros i total Hlen; cbn [time_for_ordering_from].
  - cbn. ring.
  - destruct (drop i aves) as [|t rest] eqn:Hdrop; [done|].
    assert (aves !! i = Some t) as Ht.
    { pose proof (lookup_drop aves i 0) as Hl. rewrite Hdrop, Nat.add_0_r in Hl. done. }
    assert (drop (S i) aves = rest) as Hrest.
    { pose proof (drop_S _ _ _ Ht) as Hd. rewrite Hdrop in Hd. by injection Hd as <-. }
    rewrite IH by (rewrite Hrest; cbn in Hlen; lia).
    rewrite (take_S_r _ _ _ Ht), sum_snoc, Hrest. cbn [zip zip_with cost]. ring.
Qed.

Lemma time_for_ordering_cost (usage : list Z) (aves : list Q) :
  length usage = length aves ->
  time_for_ordering usage aves == cost 0 (zip usage aves).
Proof.
  intros Hlen. unfold time_for_ordering.
  rewrite (time_for_ordering_from_cost usage aves 0 0) by done.
  rewrite take_0, drop_0. change (sum []) with 0. ring.
Qed.

Lemma time_for_ordering_pairs (l : list (Z * Q)) :
  time_for_ordering (l.*1) (l.*2) == cost 0 l.
Proof.
  rewrite time_for_ordering_cost by (by rewrite !length_fmap).
  by rewrite zip_fst_snd.
Qed.

Lemma inject_Z_nonneg (n : Z) : (0 <= n)%Z -> 0 <= inject_Z n.
Proof. intros Hn. unfold Qle. cbn. lia. Qed.

(** Among equally used alternatives the sort puts the slower one first. *)
Lemma pair_ltb_same_usage (x y : Z * Q) :
  pair_ltb x y = true -> (fst y <= fst x)%Z -> fst x = fst y /\ snd x < snd y.
Proof.
  unfold pair_ltb. intros Hlt Hle.
  destruct (Z.eqb_spec (fst x) (fst y)) as [Heq|Hne]; cbn in Hlt.
  - split; [done|]. destruct (Qeq_bool (snd x) (snd y)); cbn in Hlt; [done|].
    apply Qlt_alt. by destruct (snd x ?= snd y).
  - apply Z.ltb_lt in Hlt. lia.
Qed.

Lemma Forall_insert_reverse (P : Z * Q -> Prop) x l :
  P x -> Forall P l -> Forall P (insert_reverse x l).
Proof.
  intros Hx. induction 1 as [|y l Hy Hl IH]; cbn; [by repeat constructor|].
  destruct (pair_ltb x y); by repeat constructor.
Qed.

Lemma Forall_sorted_reverse (P : Z * Q -> Prop) l :
  Forall P l -> Forall P (sorted_reverse l).
Proof.
  induction 1 as [|x l Hx Hl IH]; cbn; [done|]. by apply Forall_insert_reverse.
Qed.

(** Moving an alternative behind slower ones of the same usage does not
    lower the cost. *)
Lemma cost_insert_reverse (x : Z * Q) (l : list (Z * Q)) :
  (0 <= fst x)%Z -> Forall (fun y => (fst y <= fst x)%Z) l ->
  forall p, cost p (x :: l) <= cost p (insert_reverse x l).
Proof.
  intros Hx. induction 1 as [|y l Hy Hl IH]; intros p; cbn [insert_reverse].
  - apply Qle_refl.
  - destruct (pair_ltb x y) eqn:Hlt; [|apply Qle_refl].
    destruct (pair_ltb_same_usage x y Hlt Hy) as [Hu Ht].
    destruct x as [n t], y as [n' t']. cbn in Hu, Ht, Hx. subst n'.
    specialize (IH (p + t')). cbn [cost] in *.
    pose proof (cost_proper l (p + t' + t) (p + t + t') ltac:(ring)) as Hsame.
    pose proof (inject_Z_nonneg n Hx) as Hn.
    assert (inject_Z n * t <= inject_Z n * t') as Hprod.
    { rewrite !(Qmult_comm (inject_Z n)).
      apply Qmult_le_compat_r; [by apply Qlt_le_weak|done]. }
    lra.
Qed.

Lemma cost_sorted_reverse (l : list (Z * Q)) :
  Forall (fun x => (0 <= fst x)%Z) l ->
  StronglySorted (fun x y => (fst y <= fst x)%Z) l ->
  forall p, cost p l <= cost p (sorted_reverse l).
Proof.
  intros Hpos Hsorted. induction Hsorted as [|x l _ IH Hx]; intros p; [apply Qle_refl|].
  apply Forall_cons in Hpos as [Hx0 Hpos].
  change (sorted_reverse (x :: l)) with (insert_reverse x (sorted_reverse l)).
  eapply Qle_trans; [|apply cost_insert_reverse; [done|by apply Forall_sorted_reverse]].
  destruct x as [n t]. cbn [cost]. specialize (IH Hpos (p + t)). lra.
Qed.

Lemma insert_reverse_nonempty x l : insert_reverse x l <> [].
Proof. destruct l as [|y l]; cbn; [done|]. by destruct (pair_ltb x y). Qed.

Lemma descending_zip (usage : list Z) :
  StronglySorted Z.ge usage ->
  forall aves : list Q, StronglySorted (fun x y => (fst y <= fst x)%Z) (zip usage aves).
Proof.
  induction 1 as [|n usage _ IH Hn]; intros [|t aves]; cbn; try constructor.
  - apply IH.
  - apply Forall_forall. intros [m t'] Hin.
    apply elem_of_zip_l in Hin. cbn in *.
    rewrite Forall_forall in Hn. specialize (Hn m Hin). lia.
Qed.

(** For alternatives that are in descending order of usage, the value
    that the code computes is not negative in exact arithmetic.  (With
    floating-point numbers rounding can make it a negative number close to
    zero.) *)
Lemma naive_timing_improvement_descending (usage : list Z) (aves : list Q) :
  usage <> [] -> length usage = length aves ->
  Forall (fun n => (0 <= n)%Z) usage -> StronglySorted Z.ge usage ->
  exists q, naive_timing_improvement usage aves = Return q /\ 0 <= q.
Proof.
  intros Hne Hlen Hpos Hsorted. unfold naive_timing_improvement.
  set (ordered := sorted_reverse (zip usage aves)).
  assert (cost 0 (zip usage aves) <= cost 0 ordered) as Hcost.
  { apply cost_sorted_reverse; [|by apply descending_zip].
    apply Forall_forall. intros [n t] Hin. apply elem_of_zip_l in Hin.
    rewrite Forall_forall in Hpos. by apply Hpos. }
  pose proof (time_for_ordering_pairs ordered) as Hordered.
  pose proof (time_for_ordering_cost usage aves Hlen) as Hactual.
  destruct ordered as [|x ordered'] eqn:Hord.
  - destruct usage as [|n usage]; [done|]. destruct aves as [|t aves]; [done|].
    by apply insert_reverse_nonempty in Hord.
  - eexists. split; [reflexivity|]. lra.
Qed.

(** C4 fails at the example of the specification: alternative 0 is used
    once and takes 10ms, alternative 1 is used 100 times and takes 1ms.
    The usage-ordered cost is 0.111 and the recorded cost is 1.11; the code
    subtracts the second from the first, so what it calls the improvement is
    negative where reordering saves time. *)
Theorem naive_timing_improvement_example :
  exists q,
    naive_timing_improvement [1; 100]%Z [10 # 1000; 1 # 1000] = Return q
    /\ q == - (999 # 1000)
    /\ time_for_ordering [100; 1]%Z [1 # 1000; 10 # 1000] == 111 # 1000
    /\ time_for_ordering [1; 100]%Z [10 # 1000; 1 # 1000] == 1110 # 1000
    /\ q < 0.
Proof. eexists. split; [reflexivity|]. by vm_compute. Qed.

(** The same sign when the fast alternative is the one in front. *)
Example naive_timing_improvement_fast_first :
  exists q,
    naive_timing_improvement [1; 100]%Z [1 # 1000; 10 # 1000] = Return q /\ q < 0.
Proof. eexists. split; [reflexivity|]. by vm_compute. Qed.

(** Among equally used alternatives the sort prefers the slower one, which
    the value reports as a gain. *)
Example naive_timing_improvement_ties :
  exists q, naive_timing_improvement [1; 1]%Z [1; 2] = Return q /\ q == 1.
Proof. eexists. split; [reflexivity|]. by vm_compute. Qed.

Example naive_timing_improvement_empty : naive_timing_improvement [] [] = Raise ValueError.
Proof. reflexivity. Qed.

End TimingFacts.

(** ** The Jupyter kernel installer *)

Section KernelFacts.
Import Kernel.
Context {FS : Type} `{!OS FS}.
Context (icoconut_custom_kernel_dir icoconut_custom_kernel_install_loc : path).
Context (fixpath : path -> path) (WINDOWS : bool) (default_encoding : string).
Context (exec_prefix : path) (sys_executable : string).
Context (json_dumps : json -> Z -> string) (encode : string -> string -> bytes).

Abbreviation kernel_dest' := (kernel_dest icoconut_custom_kernel_install_loc fixpath exec_prefix).
Abbreviation kernel_json' := (kernel_json default_encoding sys_executable json_dumps encode).
Abbreviation install_steps' :=
  (install_steps icoconut_custom_kernel_dir icoconut_custom_kernel_install_loc fixpath
     default_encoding exec_prefix sys_executable json_dumps encode).

Lemma and_then_Some (m k : FS -> option unit * FS) fs u fs' :
  and_then m k fs = (Some u, fs') ->
  exists fs1, m fs = (Some tt, fs1) /\ k fs1 = (Some u, fs').
Proof.
  unfold and_then. destruct (m fs) as [[[]|] fs1]; [|done]. intros Hk. by exists fs1.
Qed.

Lemma make_custom_kernel_written executable fs u fs' :
  make_custom_kernel icoconut_custom_kernel_dir default_encoding sys_executable
    json_dumps encode executable fs = (Some u, fs') ->
  read_bytes (kernel_source icoconut_custom_kernel_dir) fs' = Some (kernel_json' executable).
Proof.
  unfold make_custom_kernel.
  intros (fs1 & _ & (fs2 & _ & (fs3 & _ & Hwrite)%and_then_Some)%and_then_Some)%and_then_Some.
  destruct u. by apply write_read in Hwrite.
Qed.

Lemma ensure_dir_read dirpath q (fs : FS) :
  read_bytes q (snd (ensure_dir dirpath fs)) = read_bytes q fs.
Proof.
  unfold ensure_dir. destruct (path_exists dirpath fs); [done|].
  destruct (makedirs dirpath fs) as [[u|] fs'] eqn:Hmk; cbn; by eapply makedirs_read.
Qed.

Context `{!Directories FS}.




End KernelFacts.

Section KernelWitness.
Import Kernel.


(** Where the destination path is a regular file, the copy overwrites that
    file: the installer still returns the path, and there is no
    [kernel.json] under it. *)
Example install_over_a_file :
  let dest := ["usr"; "share"; "jupyter"; "kernels"; "coconut"] in
  let run := install_on (MemFS {[ dest := [] ]} ∅ false) in
  fst (fst run) = Some dest
  /\ isdir dest (snd (fst run)) = false
  /\ read_bytes (dest ++ ["kernel.json"]) (snd (fst run)) = None.
Proof. by vm_compute. Qed.

End KernelWitness.

(** * Further properties *)

(** ** Text utilities *)

Section TextFacts.
Import Text.

Lemma string_ind2 (P : string -> Prop) :
  P EmptyString -> (forall c, P (String c EmptyString)) ->
  (forall c c' s, P s -> P (String c' s) -> P (String c (String c' s))) ->
  forall s, P s.
Proof.
  intros H0 H1 H2 s.
  assert (P s /\ forall c, P (String c s)) as [Hs _]; [|done].
  induction s as [|c' s [IH IH']]; [by split|]. split; [apply IH'|].
  intros c. by apply H2.
Qed.

Lemma append_cons c (a b : string) : String c a +:+ b = String c (a +:+ b).
Proof. reflexivity. Qed.

Lemma length_append (a b : string) :
  String.length (a +:+ b) = (String.length a + String.length b)%nat.
Proof.
  induction a as [|c a IH]; [done|]. rewrite append_cons. cbn [String.length].
  by rewrite IH.
Qed.

Lemma append_empty_r (s : string) : s +:+ EmptyString = s.
Proof. induction s as [|c s IH]; [done|]. by rewrite append_cons, IH. Qed.

Lemma all_chars_append p (a b : string) :
  PyStr.all_chars p (a +:+ b) = PyStr.all_chars p a && PyStr.all_chars p b.
Proof.
  induction a as [|c a IH]; [done|]. rewrite append_cons. cbn [PyStr.all_chars].
  by rewrite IH, andb_assoc.
Qed.

Lemma prefix_drop_start (p s : string) :
  String.prefix p s = true -> p +:+ drop_start (String.length p) s = s.
Proof.
  revert s. induction p as [|c p IH]; intros s; [done|].
  destruct s as [|c' s]; [done|]. cbn [String.prefix].
  destruct (ascii_dec c c') as [->|]; [|done].
  intros Hp. cbn [String.length drop_start]. by rewrite append_cons, IH.
Qed.

Lemma drop_start_S n c (s : string) : drop_start (S n) (String c s) = drop_start n s.
Proof. reflexivity. Qed.

Lemma drop_start_append (p s : string) : drop_start (String.length p) (p +:+ s) = s.
Proof. induction p as [|c p IH]; [by destruct s|]. done. Qed.

Lemma length_lstrip (s : string) : (String.length (PyStr.lstrip s) <= String.length s)%nat.
Proof.
  induction s as [|c s IH]; [done|]. cbn [PyStr.lstrip].
  destruct (PyStr.is_space c); cbn [String.length]; lia.
Qed.

(** What [lstrip] removes is white space, and what it leaves does not
    start with any. *)
Lemma lstrip_split (s : string) :
  let whitespace := take_start (String.length s - String.length (PyStr.lstrip s)) s in
  whitespace +:+ PyStr.lstrip s = s
  /\ PyStr.all_chars PyStr.is_space whitespace = true
  /\ match PyStr.lstrip s with
     | EmptyString => True
     | String c _ => PyStr.is_space c = false
     end.
Proof.
  induction s as [|c s IH]; [done|]. cbn [PyStr.lstrip].
  destruct (PyStr.is_space c) eqn:Hc.
  - pose proof (length_lstrip s) as Hlen. cbn [String.length].
    replace (S (String.length s) - String.length (PyStr.lstrip s))%nat
      with (S (String.length s - String.length (PyStr.lstrip s))) by lia.
    cbn zeta in IH. destruct IH as (Happ & Hws & Hbase).
    cbn [take_start PyStr.all_chars]. by rewrite append_cons, Happ, Hc, Hws.
  - cbn zeta. rewrite Nat.sub_diag. cbn [take_start]. by rewrite Hc.
Qed.

Lemma rstrip_empty (s : string) :
  PyStr.rstrip s = EmptyString -> PyStr.all_chars PyStr.is_space s = true.
Proof.
  induction s as [|c s IH]; [done|]. cbn [PyStr.rstrip PyStr.all_chars].
  destruct (PyStr.rstrip s); [|done].
  destruct (PyStr.is_space c); [|done]. intros _. by rewrite IH.
Qed.

(** What [rstrip] leaves is a prefix, what it removes is white space, and
    what it leaves does not end with any. *)
Lemma rstrip_split (s : string) :
  let whitespace := drop_start (String.length (PyStr.rstrip s)) s in
  PyStr.rstrip s +:+ whitespace = s
  /\ PyStr.all_chars PyStr.is_space whitespace = true
  /\ PyStr.rstrip (PyStr.rstrip s) = PyStr.rstrip s.
Proof.
  induction s as [|c s IH]; [done|]. cbn zeta in *. cbn [PyStr.rstrip].
  destruct (PyStr.rstrip s) as [|c' r] eqn:Hr.
  - pose proof (rstrip_empty s Hr) as Hs. destruct (PyStr.is_space c) eqn:Hc.
    + cbn [String.length drop_start PyStr.all_chars]. by rewrite Hc, Hs.
    + cbn [String.length drop_start PyStr.rstrip]. by rewrite Hc.
  - destruct IH as (Happ & Hws & Hidem).
    cbn [String.length] in *. rewrite drop_start_S.
    split; [by rewrite append_cons, Happ|]. split; [done|].
    change (PyStr.rstrip (String c (String c' r)))
      with (match PyStr.rstrip (String c' r) with
            | EmptyString => if PyStr.is_space c then EmptyString else String c EmptyString
            | r' => String c r'
            end).
    by rewrite Hidem.
Qed.

Lemma splitlines_cons c (s : string) :
  splitlines (String c s)
  = if is_line_boundary c then
      match s with
      | String c' s' =>
          if Ascii.eqb c CR && Ascii.eqb c' LF
          then String c (String c' EmptyString) :: splitlines s'
          else String c EmptyString :: splitlines s
      | EmptyString => [String c EmptyString]
      end
    else
      match splitlines s with
      | line :: lines => String c line :: lines
      | [] => [String c EmptyString]
      end.
Proof. reflexivity. Qed.

Lemma concat_cons (line : string) lines : concat (line :: lines) = line +:+ concat lines.
Proof. reflexivity. Qed.

Lemma concat_splitlines (s : string) : concat (splitlines s) = s.
Proof.
  induction s as [|c|c c' s IH IH'] using string_ind2.
  - done.
  - cbn. by destruct (is_line_boundary c).
  - rewrite splitlines_cons. destruct (is_line_boundary c).
    + destruct (Ascii.eqb c CR && Ascii.eqb c' LF).
      * by rewrite concat_cons, IH.
      * by rewrite concat_cons, IH'.
    + destruct (splitlines (String c' s)) as [|line lines]; [done|].
      rewrite concat_cons in *. by rewrite append_cons, IH'.
Qed.

Lemma endswith_length (suffix s : string) :
  endswith suffix s = true -> (String.length suffix <= String.length s)%nat.
Proof.
  induction s as [|c s IH]; cbn [endswith].
  - rewrite orb_false_r. by intros ->%String.eqb_eq.
  - intros [->%String.eqb_eq|Hs]%orb_true_iff; [done|].
    specialize (IH Hs). cbn [String.length]. lia.
Qed.

Lemma drop_end_cons n c (s : string) :
  (n <= String.length s)%nat -> drop_end n (String c s) = String c (drop_end n s).
Proof.
  intros Hn. unfold drop_end. cbn [String.length].
  by replace (S (String.length s) - n)%nat with (S (String.length s - n)) by lia.
Qed.

Lemma splitlines_terminated (s : string) : Forall (fun l => terminated l = true) (splitlines s).
Proof.
  induction s as [|c|c c' s IH IH'] using string_ind2.
  - constructor.
  - cbn. destruct (is_line_boundary c) eqn:Hc; repeat constructor; cbn; by rewrite Hc.
  - rewrite splitlines_cons. destruct (is_line_boundary c) eqn:Hc.
    + destruct (Ascii.eqb c CR && Ascii.eqb c' LF) eqn:Hcrlf.
      * constructor; [|done]. cbn [terminated]. rewrite Hc.
        apply andb_true_iff in Hcrlf as [-> ->%Ascii.eqb_eq]. done.
      * constructor; [|done]. cbn [terminated]. by rewrite Hc.
    + destruct (splitlines (String c' s)) as [|line lines].
      * repeat constructor. cbn. by rewrite Hc.
      * apply Forall_cons in IH' as [Hl Hls]. constructor; [|done].
        cbn [terminated]. by rewrite Hc.
Qed.

Lemma not_boundary_no_newline c : is_line_boundary c = false -> no_newline c = true.
Proof. destruct c as [[] [] [] [] [] [] [] []]; by vm_compute. Qed.

(** What [logical_lines] makes of a line without [keep_newlines] has
    neither LF nor CR in it. *)
Lemma terminated_stripped (line : string) :
  terminated line = true ->
  let crlf := endswith (String CR (String LF EmptyString)) line in
  let newline := endswith (String LF EmptyString) line || endswith (String CR EmptyString) line in
  PyStr.all_chars no_newline
    (if crlf then drop_end 2 line else if newline then drop_end 1 line else line) = true.
Proof.
  induction line as [|c line IH]; [done|]. cbn [terminated].
  destruct (is_line_boundary c) eqn:Hc.
  - intros [->%String.eqb_eq|[->%Ascii.eqb_eq ->%String.eqb_eq]%andb_true_iff]%orb_true_iff;
      [|by vm_compute].
    destruct c as [[] [] [] [] [] [] [] []]; try discriminate Hc; by vm_compute.
  - intros Hline. specialize (IH Hline). cbn zeta in *.
    pose proof (not_boundary_no_newline c Hc) as Hnl.
    assert (Ascii.eqb c CR = false /\ Ascii.eqb c LF = false) as [Hcr Hlf].
    { unfold no_newline in Hnl. apply negb_true_iff, orb_false_iff in Hnl. tauto. }
    assert (forall suffix c', (Ascii.eqb c c' = false) ->
              endswith (String c' suffix) (String c line) = endswith (String c' suffix) line)
      as Hends.
    { intros suffix c' Hne. cbn [endswith String.eqb]. by rewrite Hne. }
    rewrite !Hends by done.
    destruct (endswith (String CR (String LF EmptyString)) line) eqn:Hcrlf.
    { apply endswith_length in Hcrlf. rewrite drop_end_cons by done.
      cbn [PyStr.all_chars]. by rewrite Hnl, IH. }
    destruct (endswith (String LF EmptyString) line || endswith (String CR EmptyString) line)
      eqn:Hnewline.
    { assert (1 <= String.length line)%nat as Hlen.
      { apply orb_true_iff in Hnewline as [H|H]; by apply endswith_length in H. }
      rewrite drop_end_cons by done. cbn [PyStr.all_chars]. by rewrite Hnl, IH. }
    cbn [PyStr.all_chars]. by rewrite Hnl, IH.
Qed.

Lemma replace_char (a b : ascii) (s : string) :
  replace (String a EmptyString) (String b EmptyString) s
  = map_chars (fun c => if Ascii.eqb c a then b else c) s.
Proof.
  unfold replace. induction s as [|c s IH]; [done|].
  cbn [replace_from map_chars String.prefix String.length Nat.sub].
  destruct (ascii_dec a c) as [->|Hne].
  - rewrite Ascii.eqb_refl. destruct s; cbn [String.prefix]; by rewrite append_cons, IH.
  - assert (Ascii.eqb c a = false) as -> by (apply Ascii.eqb_neq; congruence).
    by rewrite IH.
Qed.

Lemma length_map_chars f (s : string) : String.length (map_chars f s) = String.length s.
Proof. induction s as [|c s IH]; [done|]. cbn. by rewrite IH. Qed.

Lemma map_chars_map_chars f g (s : string) :
  map_chars f (map_chars g s) = map_chars (fun c => f (g c)) s.
Proof. induction s as [|c s IH]; [done|]. cbn. by rewrite IH. Qed.

Lemma map_chars_ext f g (s : string) :
  (forall c, f c = g c) -> map_chars f s = map_chars g s.
Proof. intros Hfg. induction s as [|c s IH]; [done|]. cbn. by rewrite Hfg, IH. Qed.

End TextFacts.

(** ** Utilities *)

Section UtilFacts.
Import Text Util.

(** X1: [checksum] is the CRC reduced to 32 bits, whatever its sign. *)
Theorem checksum_range (crc32 : list Byte.byte -> Z) (data : list Byte.byte) :
  0 <= checksum crc32 data < 2 ^ 32
  /\ checksum crc32 data = crc32 data mod 2 ^ 32.
Proof.
  assert (checksum crc32 data = crc32 data mod 2 ^ 32) as Heq.
  { unfold checksum. change 4294967295 with (Z.ones 32). by apply Z.land_ones. }
  split; [|done]. rewrite Heq. by apply Z.mod_pos_bound.
Qed.

(** X2: With bounds in order, [clip] gives a number within them, leaves a
    number within them alone, and clipping again changes nothing. *)
Theorem clip_within (num : Z) (min max : option Z) :
  (forall lo hi, min = Some lo -> max = Some hi -> lo <= hi) ->
  (forall lo, min = Some lo -> lo <= clip num min max)
  /\ (forall hi, max = Some hi -> clip num min max <= hi)
  /\ ((forall lo, min = Some lo -> lo <= num) -> (forall hi, max = Some hi -> num <= hi) ->
      clip num min max = num)
  /\ clip (clip num min max) min max = clip num min max.
Proof.
  intros Horder. unfold clip.
  destruct min as [lo|], max as [hi|]; cbn [default];
    try (specialize (Horder _ _ eq_refl eq_refl));
    rewrite ?Z.gtb_ltb;
    repeat split; intros;
    repeat match goal with
    | H : Some _ = Some _ |- _ => injection H as <-
    | H : forall x, Some ?y = Some x -> _ |- _ => specialize (H _ eq_refl)
    end;
    repeat match goal with
    | |- context [if ?a <? ?b then _ else _] =>
        lazymatch a with
        | context [if _ then _ else _] => fail
        | _ => destruct (Z.ltb_spec a b)
        end
    end; unfold id in *; try lia; discriminate.
Qed.

Lemma clip_within_witness :
  0 <= clip 15 (Some 0) (Some 10) /\ clip 15 (Some 0) (Some 10) <= 10.
Proof.
  destruct (clip_within 15 (Some 0) (Some 10)) as (Hlo & Hhi & _).
  { intros lo hi [= <-] [= <-]. lia. }
  split; [by apply Hlo | by apply Hhi].
Defined.

(** With the bounds out of order the result can lie above [max], and
    clipping twice differs from clipping once. *)
Example clip_bounds_out_of_order :
  clip 5 (Some 10) (Some 0) = 10 /\ clip (clip 5 (Some 10) (Some 0)) (Some 10) (Some 0) = 0.
Proof. done. Qed.

Lemma logical_lines_loop_concat lines prev_content :
  concat (logical_lines_loop true lines prev_content)
  = default EmptyString prev_content +:+ concat lines.
Proof.
  revert prev_content. induction lines as [|line lines IH]; intros prev_content.
  - destruct prev_content; cbn; [by rewrite append_empty_r|done].
  - cbn [logical_lines_loop]. rewrite concat_cons.
    destruct (endswith _ line); [|destruct (_ || _)].
    1,2: rewrite concat_cons, IH; destruct prev_content; cbn [default id from_option];
         by rewrite ?append_assoc.
    rewrite IH. destruct prev_content as [content|]; cbn [default id from_option];
      by rewrite ?append_assoc.
Qed.

Lemma logical_lines_loop_no_newline lines prev_content :
  Forall (fun l => terminated l = true) lines ->
  (forall content, prev_content = Some content ->
     PyStr.all_chars no_newline content = true) ->
  Forall (fun l => PyStr.all_chars no_newline l = true)
    (logical_lines_loop false lines prev_content).
Proof.
  intros Hlines. revert prev_content.
  induction Hlines as [|line lines Hline _ IH]; intros prev_content Hprev.
  - destruct prev_content; repeat constructor. by apply Hprev.
  - pose proof (terminated_stripped line Hline) as Hstripped. cbn zeta in Hstripped.
    cbn [logical_lines_loop].
    assert (forall l, PyStr.all_chars no_newline l = true ->
              PyStr.all_chars no_newline
                (match prev_content with Some content => content +:+ l | None => l end)
              = true) as Hyield.
    { intros l Hl. destruct prev_content as [content|]; [|done].
      by rewrite all_chars_append, (Hprev content), Hl. }
    destruct (endswith _ line); [|destruct (_ || _)].
    1,2: constructor; [by apply Hyield | by apply IH].
    apply IH. intros content [= <-].
    rewrite all_chars_append, Hstripped, andb_true_r.
    destruct prev_content as [content|]; [by apply Hprev|done].
Qed.

(** X3: With [keep_newlines], the logical lines put together are the text:
    nothing is lost and nothing is added.  Without it, no logical line has
    LF or CR in it. *)
Theorem logical_lines_content (text : string) :
  concat (logical_lines text true) = text
  /\ Forall (fun l => PyStr.all_chars no_newline l = true) (logical_lines text false).
Proof.
  split.
  - unfold logical_lines. rewrite logical_lines_loop_concat. apply concat_splitlines.
  - apply logical_lines_loop_no_newline; [apply splitlines_terminated|done].
Qed.

(** X4: With a one-character [non_syntactic_newline], the assertion of
    [normalize_newlines] never fails: the result is the text with that
    character and CR turned into LF and every other character left as it
    is. *)
Theorem normalize_newlines_char (c : ascii) (text : string) :
  normalize_newlines (String c EmptyString) text
  = Return (map_chars (fun x => if Ascii.eqb x c || Ascii.eqb x CR then LF else x) text).
Proof.
  unfold normalize_newlines. rewrite !replace_char, map_chars_map_chars.
  rewrite length_map_chars, Nat.eqb_refl. f_equal. apply map_chars_ext. intros x.
  destruct (Ascii.eqb x c); [done|]. by destruct (Ascii.eqb x CR).
Qed.

(** A longer [non_syntactic_newline] that occurs in the text makes the
    assertion fail. *)
Example normalize_newlines_longer :
  normalize_newlines "\n" "a\nb" = Raise AssertionError.
Proof. reflexivity. Qed.

(** X5: [remove_prefix] never raises: it takes the prefix off an input that
    starts with it, so that putting the prefix back gives the input, and
    it returns any other input as it is. *)
Theorem remove_prefix_result (inputstr prefix : string) :
  exists r,
    remove_prefix inputstr prefix = Return r
    /\ (String.prefix prefix inputstr = true -> prefix +:+ r = inputstr)
    /\ (String.prefix prefix inputstr = false -> r = inputstr)
    /\ remove_prefix (prefix +:+ inputstr) prefix = Return inputstr.
Proof.
  unfold remove_prefix, assert_remove_prefix. cbn [negb].
  assert (remove_prefix (prefix +:+ inputstr) prefix = Return inputstr) as Happ.
  { unfold remove_prefix, assert_remove_prefix. cbn [negb].
    rewrite (prefix_app prefix inputstr). cbn [negb]. by rewrite drop_start_append. }
  destruct (String.prefix prefix inputstr) eqn:Hp; cbn [negb]; eexists;
    (split; [reflexivity|]); repeat split; try done.
  intros _. by apply prefix_drop_start.
Qed.

Lemma remove_prefix_result_witness :
  exists r, remove_prefix "coconut.util" "coconut." = Return r
            /\ "coconut." +:+ r = "coconut.util".
Proof.
  destruct (remove_prefix_result "coconut.util" "coconut.") as (r & Hr & Hput & _).
  exists r. split; [exact Hr|]. by apply Hput.
Defined.

(** [assert_remove_prefix] without [allow_no_prefix] raises
    [AssertionError] exactly for an input that does not start with the
    prefix; otherwise it agrees with [remove_prefix]. *)
Theorem assert_remove_prefix_raises (inputstr prefix : string) :
  (assert_remove_prefix inputstr prefix false = Raise AssertionError
   <-> String.prefix prefix inputstr = false)
  /\ (String.prefix prefix inputstr = true ->
      assert_remove_prefix inputstr prefix false = remove_prefix inputstr prefix).
Proof.
  unfold remove_prefix, assert_remove_prefix. cbn [negb].
  destruct (String.prefix prefix inputstr); cbn [negb]; by repeat split.
Qed.

Lemma assert_remove_prefix_raises_witness :
  assert_remove_prefix "coconut.util" "coconut." false = Return "util".
Proof.
  destruct (assert_remove_prefix_raises "coconut.util" "coconut.") as [_ Hsame].
  rewrite Hsame by done. reflexivity.
Defined.

(** X6: The assertion of [split_leading_whitespace] never fails: the two parts
    make up the input, the first is white space and the second does not
    start with any. *)
Theorem split_leading_whitespace_parts (inputstr : string) :
  exists whitespace basestr,
    split_leading_whitespace inputstr = Return (whitespace, basestr)
    /\ whitespace +:+ basestr = inputstr
    /\ PyStr.all_chars PyStr.is_space whitespace = true
    /\ match basestr with
       | EmptyString => True
       | String c _ => PyStr.is_space c = false
       end.
Proof.
  destruct (lstrip_split inputstr) as (Happ & Hws & Hbase). cbn zeta in *.
  unfold split_leading_whitespace. rewrite Happ, String.eqb_refl. by eexists _, _.
Qed.

(** X7: The assertion of [split_trailing_whitespace] never fails: the two
    parts make up the input, the second is white space, and the first has
    no white space left at its end. *)
Theorem split_trailing_whitespace_parts (inputstr : string) :
  exists basestr whitespace,
    split_trailing_whitespace inputstr = Return (basestr, whitespace)
    /\ basestr +:+ whitespace = inputstr
    /\ PyStr.all_chars PyStr.is_space whitespace = true
    /\ PyStr.rstrip basestr = basestr.
Proof.
  destruct (rstrip_split inputstr) as (Happ & Hws & Hbase). cbn zeta in *.
  unfold split_trailing_whitespace. rewrite Happ, String.eqb_refl. by eexists _, _.
Qed.

(** X8: [replace_all] with one-character strings to replace and a
    one-character replacement turns every character that is among those to
    replace into the replacement and leaves every other character as it
    is. *)
Theorem replace_all_chars (inputstr : string) (chars : list ascii) (d : ascii) :
  replace_all inputstr ((fun c => String c EmptyString) <$> chars) (String d EmptyString)
  = map_chars (fun x => if existsb (Ascii.eqb x) chars then d else x) inputstr.
Proof.
  unfold replace_all. revert inputstr.
  induction chars as [|c chars IH]; intros inputstr; cbn [fmap list_fmap foldl existsb].
  - induction inputstr as [|x s IHs]; [done|]. cbn. by rewrite <- IHs.
  - rewrite IH, replace_char, map_chars_map_chars. apply map_chars_ext. intros x.
    destruct (Ascii.eqb x c); cbn [orb]; [|done].
    by destruct (existsb (Ascii.eqb d) chars).
Qed.

(** The replacements are made one after the other: a later one applies to
    what an earlier one put in. *)
Example replace_all_in_sequence : replace_all "x" ["x"; "y"] "yy" = "yyyy".
Proof. reflexivity. Qed.

(** X9: [without_keys] drops exactly the keys of [rem_keys] and keeps the other
    entries as they are; dropping in two steps is dropping all at once. *)
Theorem without_keys_lookup `{Countable K} {V} (inputdict : gmap K V) (rem_keys more : list K) :
  (forall k, k ∈ rem_keys -> without_keys inputdict rem_keys !! k = None)
  /\ (forall k, k ∉ rem_keys -> without_keys inputdict rem_keys !! k = inputdict !! k)
  /\ without_keys (without_keys inputdict rem_keys) more
     = without_keys inputdict (rem_keys ++ more).
Proof.
  unfold without_keys. split; [|split].
  - intros k Hk. apply map_lookup_filter_None. right. intros v _. cbn. by intros [].
  - intros k Hk. destruct (inputdict !! k) as [v|] eqn:Hv.
    + by apply map_lookup_filter_Some.
    + apply map_lookup_filter_None. by left.
  - rewrite map_filter_filter. apply map_filter_ext. intros k v _. cbn.
    rewrite not_elem_of_app. tauto.
Qed.

Lemma without_keys_lookup_witness :
  without_keys (<["a" := 1]> (<["b" := 2]> ∅) : gmap string Z) ["b"] !! "b" = None.
Proof.
  destruct (without_keys_lookup (<["a" := 1]> (<["b" := 2]> ∅) : gmap string Z) ["b"] [])
    as (Hdrop & _). apply Hdrop. set_solver.
Defined.

End UtilFacts.

(** ** Versions and the supported range *)

Section VersionRangeFacts.
Import Version Engine.

Lemma tuple_lt_irrefl a : ~ tuple_lt a a.
Proof. induction a as [|x a IH]; inversion 1; subst; [lia|done]. Qed.

Lemma tuple_lt_trans a b c : tuple_lt a b -> tuple_lt b c -> tuple_lt a c.
Proof.
  intros Hab. revert c. induction Hab as [y b|x y a b Hxy|x a b _ IH]; intros c Hbc.
  - inversion Hbc; subst; constructor.
  - inversion Hbc; subst; constructor; lia.
  - inversion Hbc; subst; [by apply tuple_lt_head|]. apply tuple_lt_tail. by apply IH.
Qed.

Lemma tuple_lt_snoc_succ init x : tuple_lt (init ++ [x]) (init ++ [x + 1]).
Proof.
  induction init as [|y init IH]; cbn; [apply tuple_lt_head; lia|]. by apply tuple_lt_tail.
Qed.

Lemma get_next_version_snoc init x :
  get_next_version (init ++ [x]) (-1) = Return (init ++ [x + 1]).
Proof.
  unfold get_next_version, py_index, py_slice_to.
  rewrite length_app. cbn [length Z.ltb Z.compare].
  assert (-1 + Z.of_nat (length init + 1) = Z.of_nat (length init)) as -> by lia.
  rewrite Z.max_r by lia. rewrite Nat2Z.id.
  assert ((0 <=? Z.of_nat (length init)) && (Z.of_nat (length init) <? Z.of_nat (length init + 1))
          = true) as ->.
  { apply andb_true_iff. split; [apply Z.leb_le | apply Z.ltb_lt]; lia. }
  rewrite list_lookup_middle by done. by rewrite take_app_length.
Qed.

Lemma get_next_version_nonempty (req_ver : list Z) :
  req_ver <> [] ->
  exists next, get_next_version req_ver (-1) = Return next
    /\ tuple_lt req_ver next /\ length next = length req_ver.
Proof.
  intros Hne. destruct req_ver as [|x req_ver _] using rev_ind; [done|].
  exists (req_ver ++ [x + 1]). split; [apply get_next_version_snoc|].
  split; [apply tuple_lt_snoc_succ|]. by rewrite !length_app.
Qed.

(** X10: The version after a non-empty one is strictly greater and as long;
    the empty tuple has none, whatever the point to increment. *)
Theorem get_next_version_greater (req_ver : list Z) :
  (req_ver <> [] ->
   exists next, get_next_version req_ver (-1) = Return next
     /\ tuple_lt req_ver next /\ length next = length req_ver)
  /\ forall point_to_increment, get_next_version [] point_to_increment = Raise IndexError.
Proof.
  split; [apply get_next_version_nonempty|].
  intros p. unfold get_next_version, py_index. cbn [length].
  assert (forall j, (0 <=? j) && (j <? Z.of_nat 0) = false) as Hout.
  { intros j. destruct (Z.leb_spec 0 j), (Z.ltb_spec j (Z.of_nat 0)); cbn in *;
      try done; lia. }
  by rewrite Hout.
Qed.

Lemma get_next_version_greater_witness :
  exists next, get_next_version [2; 4; 7] (-1) = Return next /\ tuple_lt [2; 4; 7] next.
Proof.
  destruct (get_next_version_greater [2; 4; 7]) as [Hnext _].
  destruct (Hnext ltac:(discriminate)) as (next & Hrun & Hlt & _).
  exists next. exact (conj Hrun Hlt).
Defined.

Lemma split_fields_no_sep sep (s : string) :
  Forall (fun f => PyStr.all_chars (fun c => negb (Ascii.eqb c sep)) f = true)
    (PyStr.split sep s).
Proof.
  induction s as [|c s IH]; [by repeat constructor|]. cbn [PyStr.split].
  destruct (Ascii.eqb c sep) eqn:Hc; [by constructor|].
  destruct (PyStr.split sep s) as [|f fs]; [repeat constructor; cbn; by rewrite Hc|].
  apply Forall_cons in IH as [Hf Hfs]. constructor; [|done]. cbn. by rewrite Hc, Hf.
Qed.

(** Parsing what [ver_tuple_to_str] prints of integers gives them back,
    whatever their sign. *)
Lemma ver_str_to_tuple_ints (t : list Z) :
  t <> [] -> ver_str_to_tuple (ver_tuple_to_str (ints t)) = ints t.
Proof.
  intros Hne. unfold ver_str_to_tuple, ver_tuple_to_str, ints.
  rewrite split_join.
  - rewrite <- !list_fmap_compose. apply list_fmap_ext. intros _ x _. cbn.
    by rewrite int_str_int.
  - by destruct t.
  - rewrite <- list_fmap_compose. apply Forall_fmap, Forall_true. intros x. cbn.
    apply str_int_no_dot.
Qed.

(** X11: For every version string, printing its tuple and parsing the result
    gives the tuple back: fields that are not integers stay as they are,
    and integer fields come back as the same integers. *)
Theorem ver_str_to_tuple_stable (ver_str : string) :
  ver_str_to_tuple (ver_tuple_to_str (ver_str_to_tuple ver_str)) = ver_str_to_tuple ver_str.
Proof.
  unfold ver_str_to_tuple at 2 3. unfold ver_tuple_to_str.
  pose proof (split_fields_no_sep "." ver_str) as Hfields.
  pose proof (split_nonempty "." ver_str) as Hne.
  unfold ver_str_to_tuple. rewrite split_join.
  - rewrite <- !list_fmap_compose. apply list_fmap_ext. intros _ f _. cbn.
    destruct (PyStr.int f) as [n|] eqn:Hf; cbn; [by rewrite int_str_int|by rewrite Hf].
  - by destruct (PyStr.split "." ver_str).
  - rewrite <- list_fmap_compose. apply Forall_fmap.
    eapply Forall_impl; [exact Hfields|]. intros f Hf. cbn.
    destruct (PyStr.int f); [apply str_int_no_dot|done].
Qed.

Lemma ltb_irrefl a : ltb a a = false.
Proof. apply not_ltb_tuple_lt, tuple_lt_irrefl. Qed.

Lemma min_lt_next_max (a b next : list Z) :
  get_next_version (max a b) (-1) = Return next -> tuple_lt (min a b) next.
Proof.
  intros Hnext.
  assert (max a b <> []) as Hne.
  { intros Hmax. rewrite Hmax in Hnext. by vm_compute in Hnext. }
  destruct (get_next_version_nonempty (max a b) Hne) as (next' & Hrun & Hlt & _).
  rewrite Hnext in Hrun. injection Hrun as <-.
  unfold min, max in *. destruct (ltb b a) eqn:Hba.
  - apply ltb_tuple_lt in Hba.
    destruct (ltb a b) eqn:Hab.
    + apply ltb_tuple_lt in Hab. by destruct (tuple_lt_irrefl a (tuple_lt_trans _ _ _ Hab Hba)).
    + by apply (tuple_lt_trans _ a).
  - destruct (ltb a b) eqn:Hab; [|done].
    apply ltb_tuple_lt in Hab. by apply (tuple_lt_trans _ b).
Qed.

(** X12: The supported range is never empty: with non-empty minimum versions,
    an engine whose version is the computed [min_ver] is selected, and the
    only warning it can get is the one for pyparsing 3. *)
Theorem select_engine_accepts_min_ver (min_versions_pyparsing min_versions_cPyparsing : list Z)
    (package python : string) (info : option string) :
  let min_ver := min min_versions_pyparsing (py_slice_to min_versions_cPyparsing 3) in
  min_versions_pyparsing <> [] -> py_slice_to min_versions_cPyparsing 3 <> [] ->
  exists max_ver,
    get_next_version (max min_versions_pyparsing (py_slice_to min_versions_cPyparsing 3)) (-1)
    = Return max_ver
    /\ tuple_lt min_ver max_ver
    /\ select_engine min_versions_pyparsing min_versions_cPyparsing
         (Handle (Some (ver_tuple_to_str (ints min_ver))) package info) python
       = ((if ltb min_ver [3] then []
           else [modern_msg (ver_tuple_to_str (ints max_ver)) python]),
          Return (negb (ltb min_ver [3]))).
Proof.
  intros min_ver Ha Hb.
  set (b := py_slice_to min_versions_cPyparsing 3) in *.
  assert (max min_versions_pyparsing b <> []) as Hmax.
  { unfold max. by destruct (ltb min_versions_pyparsing b). }
  assert (min_ver <> []) as Hmin.
  { unfold min_ver, min. by destruct (ltb b min_versions_pyparsing). }
  destruct (get_next_version_nonempty (max min_versions_pyparsing b) Hmax)
    as (max_ver & Hrun & _).
  pose proof (min_lt_next_max _ _ _ Hrun) as Hlt. fold min_ver in Hlt.
  exists max_ver. split; [done|]. split; [done|].
  unfold select_engine. fold b. rewrite Hrun. cbn [__version__ fmap option_fmap option_map].
  rewrite (ver_str_to_tuple_ints _ Hmin). fold min_ver.
  unfold version_gate. rewrite lt_ints, ltb_irrefl, !ge_ints.
  apply ltb_tuple_lt in Hlt. rewrite Hlt. cbn [negb app].
  by destruct (ltb min_ver [3]).
Qed.

Lemma select_engine_accepts_min_ver_witness :
  select_engine [2; 4; 7] [2; 4; 7; 2; 2; 5]
    (Handle (Some "2.4.7") "pyparsing" (Some "Python pyparsing v2.4.7")) "python"
  = ([], Return false).
Proof.
  destruct (select_engine_accepts_min_ver [2; 4; 7] [2; 4; 7; 2; 2; 5] "pyparsing" "python"
              (Some "Python pyparsing v2.4.7") ltac:(discriminate) ltac:(discriminate))
    as (max_ver & _ & _ & Hrun).
  exact Hrun.
Defined.

(** X13: A version string whose first field is not an integer literal, such as
    [v3.0] or [unknown], does not get the fatal import error: comparing it
    with the minimum version raises [TypeError]. *)
Theorem version_gate_type_error (min_ver max_ver : list Z) (ver_str field : string)
    (fields : list string) (info : option string) (package python : string) :
  min_ver <> [] ->
  PyStr.split "." ver_str = field :: fields -> PyStr.int field = None ->
  version_gate min_ver max_ver (Some (ver_str_to_tuple ver_str)) info package python
  = ([], Raise TypeError).
Proof.
  intros Hne Hsplit Hfield. unfold version_gate, ver_str_to_tuple.
  rewrite Hsplit. cbn [fmap list_fmap]. rewrite Hfield.
  destruct min_ver as [|m min_ver]; [done|]. reflexivity.
Qed.

Lemma version_gate_type_error_witness :
  version_gate [2; 4; 7] [2; 4; 8] (Some (ver_str_to_tuple "v3.0")) None "pyparsing" "python"
  = ([], Raise TypeError).
Proof.
  apply (version_gate_type_error [2; 4; 7] [2; 4; 8] "v3.0" "v3" ["0"]);
    [discriminate|reflexivity|reflexivity].
Defined.

(** The same for a field that [str.strip()] would make a number of: a
    leading file separator keeps [int()] from reading it. *)
Example version_gate_type_error_padded :
  version_gate [2; 4; 7] [2; 4; 8] (Some (ver_str_to_tuple (String "028" "3.0.0")))
    None "pyparsing" "python"
  = ([], Raise TypeError).
Proof. reflexivity. Qed.

(** The import block takes cPyparsing unless [PURE_PYTHON] is set or it is
    missing, and pyparsing otherwise; the handle has a version exactly
    when it has a description, and it lacks both exactly when neither
    package could be used. *)
Theorem import_engine_choice (PURE_PYTHON : bool) (cPyparsing pyparsing : option string) :
  let h := import_engine PURE_PYTHON cPyparsing pyparsing in
  let usable := if PURE_PYTHON then None else cPyparsing in
  (__version__ h = None <-> usable = None /\ pyparsing = None)
  /\ (__version__ h = None <-> PYPARSING_INFO h = None)
  /\ (PYPARSING_PACKAGE h = "pyparsing" <-> usable = None /\ pyparsing <> None)
  /\ (forall v, usable = Some v -> __version__ h = Some v)
  /\ (PYPARSING_PACKAGE h = "pyparsing" \/ PYPARSING_PACKAGE h = "cPyparsing").
Proof.
  cbv zeta. unfold import_engine.
  destruct (if PURE_PYTHON then None else cPyparsing) as [v|], pyparsing as [v'|];
    cbn; repeat split; try done; try (by intros [_ ?]); try (by intros [? _]);
    try (intros ? [= <-]; done); try (by left); by right.
Qed.

(** X14: Without a usable engine, which includes cPyparsing alone under
    [PURE_PYTHON], selection ends in the import error that asks to upgrade
    cPyparsing, and nothing is warned before it. *)
Theorem select_engine_without_engine (min_versions_pyparsing min_versions_cPyparsing : list Z)
    (PURE_PYTHON : bool) (cPyparsing : option string) (python : string) :
  (if PURE_PYTHON then None else cPyparsing) = None ->
  min_versions_pyparsing <> [] ->
  exists msg,
    select_engine min_versions_pyparsing min_versions_cPyparsing
      (import_engine PURE_PYTHON cPyparsing None) python
    = ([], Raise (ImportError msg))
    /\ PyStr.contains (upgrade_command python "cPyparsing") msg = true.
Proof.
  intros Husable Hne. unfold import_engine. rewrite Husable. unfold select_engine.
  destruct (get_next_version_nonempty
              (max min_versions_pyparsing (py_slice_to min_versions_cPyparsing 3)))
    as (max_ver & -> & _).
  { unfold max. destruct (ltb _ _) eqn:Hlt; [|done].
    intros Hb. rewrite Hb in Hlt. by destruct min_versions_pyparsing. }
  eexists. split; [reflexivity|]. apply too_old_msg_command.
Qed.

Lemma select_engine_without_engine_witness :
  exists msg,
    select_engine [2; 4; 7] [2; 4; 7; 2; 2; 5] (import_engine true (Some "2.4.7.2.2.5") None)
      "python"
    = ([], Raise (ImportError msg))
    /\ PyStr.contains (upgrade_command "python" "cPyparsing") msg = true.
Proof.
  apply (select_engine_without_engine [2; 4; 7] [2; 4; 7; 2; 2; 5] true
           (Some "2.4.7.2.2.5") "python"); [reflexivity|discriminate].
Defined.

End VersionRangeFacts.

(** ** What negotiation calls *)

Section NegotiationCalls.
Import Version Negotiation.

(** X15: The module calls [enableIncremental] on [ParserElement] only where the
    host has it, runs on Python 3.8 or later and incremental parsing is
    asked for; so the setup never reaches the stand-in that raises, and
    the arguments of the call are the configured ones. *)
Theorem negotiate_incremental_supported {pyobj : Type} (has_enableIncremental : bool)
    (version_info : tuple) (min_versions_cPyparsing : list Z) (python : string)
    (support : incremental_support (pyobj := pyobj))
    (MODERN_PYPARSING : bool)
    (use_left_recursion_if_available use_incremental_if_available use_packrat_parser : bool)
    (default_incremental_cache_size packrat_cache_size : option Z)
    (never_clear_incremental_cache : bool) (cache_size : option Z) (still_reset_cache : bool) :
  incremental_setup has_enableIncremental version_info min_versions_cPyparsing python
  = Return support ->
  enableIncremental_call cache_size still_reset_cache
  ∈ negotiate MODERN_PYPARSING (SUPPORTS_INCREMENTAL support) use_left_recursion_if_available
      use_incremental_if_available use_packrat_parser default_incremental_cache_size
      packrat_cache_size never_clear_incremental_cache ->
  has_enableIncremental = true
  /\ enableIncremental_def support = None
  /\ ge version_info (ints [3; 8]) = Return true
  /\ use_incremental_if_available = true
  /\ cache_size = default_incremental_cache_size
  /\ still_reset_cache = negb never_clear_incremental_cache.
Proof.
  unfold incremental_setup, negotiate. intros Hsetup Hcall.
  destruct has_enableIncremental.
  - destruct (ge version_info (ints [3; 8])) as [supports|e]; [|done].
    injection Hsetup as <-. cbn in Hcall.
    destruct (MODERN_PYPARSING && use_left_recursion_if_available), supports,
      use_incremental_if_available, use_packrat_parser; cbn in Hcall;
      repeat match goal with
      | H : _ ∈ _ |- _ => inversion H; clear H; subst
      end; done.
  - injection Hsetup as <-. cbn in Hcall.
    destruct (MODERN_PYPARSING && use_left_recursion_if_available), use_packrat_parser;
      repeat match goal with
      | H : _ ∈ _ |- _ => inversion H; clear H; subst
      end.
Qed.

Lemma negotiate_incremental_supported_witness :
  ge (ints [3; 11]) (ints [3; 8]) = Return true.
Proof.
  destruct (negotiate_incremental_supported (pyobj := unit) true (ints [3; 11]) [2; 4; 7] "python"
              (Incremental true None None None) false true true true None None false
              None true eq_refl ltac:(by left)) as (_ & _ & Hge & _).
  exact Hge.
Defined.

End NegotiationCalls.

(** ** What setting the fast reprs changes *)

Section FastReprsChanges.
Import FastReprs.

Import Patching.

Lemma set_fast_repr_step (st st' : state) (obj : object) :
  set_fast_repr st obj = Return st' ->
  (forall c, mro <$> classes st' !! c = mro <$> classes st !! c)
  /\ (forall c, obj <> class_object c \/ issubclass_ParserElement (classes st) c = false ->
        classes st' !! c = classes st !! c)
  /\ (forall c, patched (classes st) c -> patched (classes st') c)
  /\ (forall c, obj = class_object c -> issubclass_ParserElement (classes st) c = true ->
        patched (classes st') c)
  /\ _old_pyparsing_reprs st `prefix_of` _old_pyparsing_reprs st'.
Proof.
  unfold patched. destruct obj as [cls|]; cbn.
  2:{ intros [= <-]. repeat split; try done. }
  destruct (issubclass_ParserElement (classes st) cls) eqn:Hsub.
  2:{ intros [= <-]. repeat split; try done. intros c [= <-]. by rewrite Hsub. }
  destruct (getattr own_repr (classes st) cls) as [r|]; [|done].
  destruct (getattr own_str (classes st) cls) as [s|]; [|done].
  cbn. intros [= <-]. cbn. repeat split.
  - intros c. destruct (decide (cls = c)) as [->|].
    + rewrite !lookup_alter_eq. by destruct (classes st !! c).
    + by rewrite !lookup_alter_ne.
  - intros c [Hne|Hc].
    + rewrite !lookup_alter_ne; [done|congruence..].
    + rewrite !lookup_alter_ne; [done|intros ->; congruence..].
  - intros c (cl & Hcl & Hr & Hs). destruct (decide (cls = c)) as [->|].
    + rewrite !lookup_alter_eq, Hcl. by eexists.
    + rewrite !lookup_alter_ne by done. by exists cl.
  - intros c [= <-] _. unfold issubclass_ParserElement in Hsub.
    destruct (classes st !! cls) as [cl|] eqn:Hcl; [|done].
    rewrite !lookup_alter_eq, Hcl. by eexists.
  - by apply prefix_app_r.
Qed.

Lemma issubclass_ParserElement_mro classes classes' cls :
  mro <$> classes' !! cls = mro <$> classes !! cls ->
  issubclass_ParserElement classes' cls = issubclass_ParserElement classes cls.
Proof.
  unfold issubclass_ParserElement.
  destruct (classes' !! cls) as [c'|], (classes !! cls) as [c|]; cbn; try done.
  by intros [= ->].
Qed.

Lemma set_fast_pyparsing_reprs_loop_steps namespace : forall st st1,
  set_fast_pyparsing_reprs_loop namespace st = Return st1 ->
  (forall c, mro <$> classes st1 !! c = mro <$> classes st !! c)
  /\ (forall c, c ∉ class_names namespace \/ issubclass_ParserElement (classes st) c = false ->
        classes st1 !! c = classes st !! c)
  /\ (forall c, patched (classes st) c -> patched (classes st1) c)
  /\ (forall c, c ∈ class_names namespace ->
        issubclass_ParserElement (classes st) c = true -> patched (classes st1) c)
  /\ _old_pyparsing_reprs st `prefix_of` _old_pyparsing_reprs st1.
Proof.
  induction namespace as [|obj namespace IH]; intros st st1; cbn [set_fast_pyparsing_reprs_loop].
  { intros [= <-]. repeat split; try done. intros c Hc. by apply elem_of_nil in Hc. }
  destruct (set_fast_repr st obj) as [st'|e] eqn:Hstep; [|done]. cbn. intros Hrest.
  destruct (set_fast_repr_step _ _ _ Hstep) as (Hmro & Hother & Hkeep & Hpatch & Hold).
  destruct (IH _ _ Hrest) as (Hmro' & Hother' & Hkeep' & Hpatch' & Hold').
  assert (forall c, issubclass_ParserElement (classes st') c
                    = issubclass_ParserElement (classes st) c) as Hsub.
  { intros c. by apply issubclass_ParserElement_mro. }
  repeat split.
  - intros c. by rewrite Hmro'.
  - intros c Hc. rewrite Hother', Hother; [done| |].
    + destruct Hc as [Hc|Hc]; [|by right]. left. intros ->. apply Hc. by left.
    + rewrite Hsub. destruct Hc as [Hc|Hc]; [|by right]. left. intros Hin. apply Hc.
      destruct obj; [by right|done].
  - intros c Hc. by apply Hkeep', Hkeep.
  - intros c Hc Hsubc. destruct obj as [cls|]; cbn in Hc.
    + apply elem_of_cons in Hc as [->|Hc].
      * by apply Hkeep', Hpatch.
      * apply Hpatch'; [done|]. by rewrite Hsub.
    + apply Hpatch'; [done|]. by rewrite Hsub.
  - by etrans.
Qed.

(** X16: After [set_fast_pyparsing_reprs], [repr] and [str] of every subclass
    of [ParserElement] in the namespace are the fast repr of that class
    itself, whatever the class inherited before. *)
Theorem set_fast_pyparsing_reprs_patches namespace (st st1 : state) cls order :
  set_fast_pyparsing_reprs namespace st = Return st1 ->
  cls ∈ class_names namespace ->
  issubclass_ParserElement (classes st) cls = true ->
  mro <$> classes st !! cls = Some (cls :: order) ->
  repr_of st1 cls = Return (fast_repr_of cls) /\ str_of st1 cls = Return (fast_repr_of cls).
Proof.
  intros Hrun Hcls Hsub Hmro.
  destruct (set_fast_pyparsing_reprs_loop_steps _ _ _ Hrun) as (Hmro1 & _ & _ & Hpatch & _).
  destruct (Hpatch cls Hcls Hsub) as (c & Hc & Hr & Hs).
  specialize (Hmro1 cls). rewrite Hmro, Hc in Hmro1. injection Hmro1 as Hmro1.
  unfold repr_of, str_of, getattr. rewrite Hc. cbn. rewrite Hmro1. cbn.
  by rewrite Hc; cbn; rewrite Hr, Hs.
Qed.

Lemma set_fast_pyparsing_reprs_patches_witness :
  exists st1,
    set_fast_pyparsing_reprs pyparsing_namespace (State pyparsing_classes []) = Return st1
    /\ repr_of st1 "And" = Return (fast_repr_of "And").
Proof.
  eexists. split; [reflexivity|].
  eapply (set_fast_pyparsing_reprs_patches pyparsing_namespace (State pyparsing_classes [])
            _ "And" ["ParserElement"; "object"]); [reflexivity| |reflexivity|reflexivity].
  cbn. set_solver.
Defined.

(** X17: [set_fast_pyparsing_reprs] leaves alone every class that is not in the
    namespace or is not a subclass of [ParserElement], changes no method
    resolution order, and keeps what was recorded before. *)
Theorem set_fast_pyparsing_reprs_leaves namespace (st st1 : state) :
  set_fast_pyparsing_reprs namespace st = Return st1 ->
  (forall cls, cls ∉ class_names namespace \/ issubclass_ParserElement (classes st) cls = false ->
     classes st1 !! cls = classes st !! cls)
  /\ (forall cls, mro <$> classes st1 !! cls = mro <$> classes st !! cls)
  /\ _old_pyparsing_reprs st `prefix_of` _old_pyparsing_reprs st1.
Proof.
  intros Hrun.
  destruct (set_fast_pyparsing_reprs_loop_steps _ _ _ Hrun) as (Hmro & Hother & _ & _ & Hold).
  done.
Qed.

Lemma set_fast_pyparsing_reprs_leaves_witness :
  exists st1,
    set_fast_pyparsing_reprs pyparsing_namespace (State pyparsing_classes []) = Return st1
    /\ classes st1 !! "object" = Some object_class.
Proof.
  eexists. split; [reflexivity|].
  destruct (set_fast_pyparsing_reprs_leaves pyparsing_namespace (State pyparsing_classes [])
              _ eq_refl) as (Hother & _).
  rewrite Hother; [reflexivity|]. by right.
Defined.

End FastReprsChanges.

(** ** What the packrat cache does not keep *)

Section PackratOther.
Import Packrat.
Context {Elem Ctx Tokens Args Tb Other World C : Type}.
Context `{!Cache (lookup Elem Ctx) (cached Tokens Args Tb) C}.
Context (_parseNoCache :
  Elem -> string -> Z -> bool -> bool -> state Elem Ctx World C ->
  result (raised Args Tb Other) (Z * Tokens) * state Elem Ctx World C).

(** X18: An exception that is not a parse exception is passed on and not
    cached: [_parseCache] leaves the state as the parse step left it, and
    where that step did not fill the key itself, the next call with the key
    misses again and runs the parse step again. *)
Theorem parseCache_other_exception (self : Elem) (instring : string) (loc : Z)
    (doActions callPreParse : bool) (st0 st1 st2 : state Elem Ctx World C) (n0 n1 n2 : nat)
    (e : Other) (r2 : result (raised Args Tb Other) (Z * Tokens)) :
  let key := Lookup self instring loc callPreParse doActions (packrat_context st0 self) in
  let missed := State (packrat_cache st0) (hits st0) (S (misses st0))
                  (packrat_context st0) (world st0) in
  _parseCache _parseNoCache self instring loc doActions callPreParse st0 n0
  = (Raise (other_exception e), st1, n1) ->
  st1 = snd (_parseNoCache self instring loc doActions callPreParse missed)
  /\ n1 = S n0
  /\ (cache_get key (packrat_cache st1) = None ->
      packrat_context st1 self = packrat_context st0 self ->
      _parseCache _parseNoCache self instring loc doActions callPreParse st1 n1 = (r2, st2, n2) ->
      n2 = S (S n0)).
Proof.
  intros key missed Hrun1. unfold _parseCache in Hrun1. fold key missed in Hrun1.
  destruct (cache_get key (packrat_cache st0)) as [[l t|pe]|]; [done..|].
  destruct (_parseNoCache self instring loc doActions callPreParse missed)
    as [[v|[pe|x]] st] eqn:Hstep; try done.
  injection Hrun1 as <- <- <-. split; [done|]. split; [done|].
  intros Hmiss Hctx Hrun2. unfold _parseCache in Hrun2. rewrite Hctx in Hrun2.
  fold key in Hrun2. rewrite Hmiss in Hrun2.
  clear Hstep. destruct (_parseNoCache _ _ _ _ _ _) as [[v|[pe|x']] st'];
    cbn in Hrun2; by injection Hrun2 as _ _ <-.
Qed.

End PackratOther.

Section PackratOtherWitness.
Import Packrat Interrupted.

Lemma parseCache_other_exception_witness :
  let run1 := _parseCache interrupted_parseNoCache 7%nat "ab" 0 true true stub_state 0 in
  let run2 := _parseCache interrupted_parseNoCache 7%nat "ab" 0 true true
                (snd (fst run1)) (snd run1) in
  fst (fst run1) = Raise (other_exception tt) /\ snd run2 = 2%nat.
Proof.
  intros run1 run2. split; [reflexivity|].
  assert (run1 = (Raise (other_exception tt), snd (fst run1), snd run1)) as Hrun1
    by reflexivity.
  assert (run2 = (fst (fst run2), snd (fst run2), snd run2)) as Hrun2 by reflexivity.
  destruct (parseCache_other_exception interrupted_parseNoCache 7%nat "ab" 0 true true
              stub_state (snd (fst run1)) (snd (fst run2)) 0 (snd run1) (snd run2) tt
              (fst (fst run2)) Hrun1) as (_ & _ & Hagain).
  exact (Hagain eq_refl eq_refl Hrun2).
Defined.

End PackratOtherWitness.

(** ** What the profiled choice passes on and what it counts *)

Section ProfilingFlow.
Import Profiling Report.
Context {Ret Other Rest : Type}.

Abbreviation world := (world Rest).
Abbreviation ParserElement := (ParserElement Ret Other Rest).
Abbreviation MatchFirst := (MatchFirst Ret Other Rest).
Abbreviation exception := (exception Other).

Implicit Types (self : MatchFirst) (e : ParserElement) (w : world).

(** An exception that the loop does not handle. *)
Abbreviation unhandled x := (x = AttributeError \/ exists o : Other, x = other_error o).

Lemma try_alternatives_first_unhandled self instring loc0 doActions i pre w errs w1 :
  all_fail self instring loc0 doActions i pre w errs w1 ->
  forall e post (x : exception) w2 maxExcLoc maxException,
    unhandled x ->
    attempt self (i + length pre) e instring loc0 doActions w1 = (Raise x, w2) ->
    try_alternatives self instring loc0 doActions i (pre ++ e :: post)
      maxExcLoc maxException w
    = (Raise x, w2).
Proof.
  induction 1 as [i w|i e' es w err w' errs w'' Hstep _ IH|i e' es w w' errs w'' Hstep _ IH];
    intros e post x w2 maxExcLoc maxException Hx He.
  - cbn in *. rewrite Nat.add_0_r in He. rewrite He.
    by destruct Hx as [->|[o ->]].
  - cbn [app try_alternatives length] in *. rewrite Hstep.
    rewrite Nat.add_succ_r in He.
    destruct (loc err >? maxExcLoc); by apply IH.
  - cbn [app try_alternatives length] in *. rewrite Hstep.
    rewrite Nat.add_succ_r in He.
    destruct (len instring >? maxExcLoc); by apply IH.
Qed.

(** X19: An exception of an alternative that is neither a parse error nor an
    [IndexError] ends the profiled [parseImpl] at once: it is raised as it
    is, and no later alternative is tried, whatever the alternatives before
    it failed with. *)
Theorem new_parseImpl_propagates self instring loc0 doActions w
    pre e post errs w1 (x : exception) w2 :
  exprs self = pre ++ e :: post ->
  all_fail self instring loc0 doActions 0 pre (first_use self w) errs w1 ->
  attempt self (length pre) e instring loc0 doActions w1 = (Raise x, w2) ->
  unhandled x ->
  new_parseImpl self instring loc0 doActions w = (Raise x, w2).
Proof.
  intros Hexprs Hpre He Hx. unfold new_parseImpl. rewrite Hexprs.
  by eapply try_alternatives_first_unhandled.
Qed.

(** One alternative that leaves the statistics of [self] alone: a use of
    it that returns counts once at its index, and one that raises leaves
    the counts as they are. *)
Lemma attempt_usage self i e instring loc0 doActions w r w' :
  (forall w0, _profiled_MatchFirst_objs (snd (_parse e instring loc0 doActions w0)) !! id self
              = _profiled_MatchFirst_objs w0 !! id self) ->
  attempt self i e instring loc0 doActions w = (r, w') ->
  match r with
  | Return _ =>
      exists us n, usage_of self w = Some us /\ us !! i = Some n
                   /\ usage_of self w' = Some (<[i := n + 1]> us)
  | Raise _ => usage_of self w' = usage_of self w
  end.
Proof.
  intros He. unfold attempt, usage_of. specialize (He w).
  destruct (_parse e instring loc0 doActions w) as [r0 w1]. cbn in He. rewrite <- He.
  unfold append_timing.
  destruct (_profiled_MatchFirst_objs w1 !! id self) as [st|] eqn:Hself.
  2:{ intros [= <- <-]. by rewrite Hself. }
  destruct (expr_timing_stats st !! i) as [ts|].
  2:{ intros [= <- <-]. by rewrite Hself. }
  destruct r0 as [ret|x].
  2:{ intros [= <- <-]. cbn. by rewrite lookup_insert_eq. }
  unfold count_usage. cbn. rewrite lookup_insert_eq. cbn.
  destruct (expr_usage_stats st !! i) as [n|] eqn:Hn; intros [= <- <-]; cbn.
  - exists (expr_usage_stats st), n. by rewrite insert_insert_eq, lookup_insert_eq.
  - by rewrite lookup_insert_eq.
Qed.

Lemma try_alternatives_usage self instring loc0 doActions es :
  (forall e, e ∈ es -> forall w0,
     _profiled_MatchFirst_objs (snd (_parse e instring loc0 doActions w0)) !! id self
     = _profiled_MatchFirst_objs w0 !! id self) ->
  forall i maxExcLoc maxException w r w',
    try_alternatives self instring loc0 doActions i es maxExcLoc maxException w = (r, w') ->
    match r with
    | Return _ =>
        exists us j n, usage_of self w = Some us /\ us !! j = Some n
                       /\ (i <= j < i + length es)%nat
                       /\ usage_of self w' = Some (<[j := n + 1]> us)
    | Raise _ => usage_of self w' = usage_of self w
    end.
Proof.
  induction es as [|e es IH]; intros Hes i maxExcLoc maxException w r w'.
  { cbn. by destruct maxException; intros [= <- <-]. }
  cbn [try_alternatives].
  assert (forall e', e' ∈ es -> forall w0,
            _profiled_MatchFirst_objs (snd (_parse e' instring loc0 doActions w0)) !! id self
            = _profiled_MatchFirst_objs w0 !! id self) as Hes'.
  { intros e' He'. apply Hes. by right. }
  pose proof (attempt_usage self i e instring loc0 doActions w) as Hstep.
  destruct (attempt self i e instring loc0 doActions w) as [r0 w0].
  specialize (Hstep r0 w0 (Hes e ltac:(left)) eq_refl).
  assert (forall maxExcLoc maxException,
            try_alternatives self instring loc0 doActions (S i) es maxExcLoc maxException w0
            = (r, w') ->
            usage_of self w0 = usage_of self w ->
            match r with
            | Return _ =>
                exists us j n, usage_of self w = Some us /\ us !! j = Some n
                               /\ (i <= j < i + length (e :: es))%nat
                               /\ usage_of self w' = Some (<[j := n + 1]> us)
            | Raise _ => usage_of self w' = usage_of self w
            end) as Hnext.
  { intros m mx Hrun Hsame. specialize (IH Hes' _ _ _ _ _ _ Hrun). rewrite Hsame in IH.
    destruct r; [|done]. destruct IH as (us & j & n & Hus & Hj & Hrange & Hw').
    exists us, j, n. cbn [length]. repeat split; try done; lia. }
  destruct r0 as [ret|[err| | |x]].
  - intros [= <- <-]. destruct Hstep as (us & n & Hus & Hn & Hw0).
    exists us, i, n. cbn [length]. repeat split; try done; lia.
  - destruct (loc err >? maxExcLoc); intros Hrun; by eapply Hnext.
  - destruct (len instring >? maxExcLoc); intros Hrun; by eapply Hnext.
  - by intros [= <- <-].
  - by intros [= <- <-].
Qed.

(** X20: With alternatives that leave the statistics of [self] alone, a call of
    the profiled [parseImpl] that returns adds one to exactly one usage
    count, that of an alternative of [self], and a call that raises leaves
    all usage counts as they were. *)
Theorem new_parseImpl_counts_once self instring loc0 doActions w r w' :
  (forall e, e ∈ exprs self -> forall w0,
     _profiled_MatchFirst_objs (snd (_parse e instring loc0 doActions w0)) !! id self
     = _profiled_MatchFirst_objs w0 !! id self) ->
  new_parseImpl self instring loc0 doActions w = (r, w') ->
  match r with
  | Return _ =>
      exists us j n, usage_of self (first_use self w) = Some us /\ us !! j = Some n
                     /\ (j < length (exprs self))%nat
                     /\ usage_of self w' = Some (<[j := n + 1]> us)
  | Raise _ => usage_of self w' = usage_of self (first_use self w)
  end.
Proof.
  intros Hes Hrun. unfold new_parseImpl in Hrun.
  pose proof (try_alternatives_usage self instring loc0 doActions (exprs self) Hes
                _ _ _ _ _ _ Hrun) as Hcount.
  destruct r; [|done]. destruct Hcount as (us & j & n & Hus & Hj & Hrange & Hw').
  exists us, j, n. repeat split; try done; lia.
Qed.

End ProfilingFlow.

Section ProfilingFlowWitnesses.
Import Profiling Report Crashing.

Lemma new_parseImpl_propagates_witness :
  fst (new_parseImpl choice_crashing "abc" 0 true start) = Raise (other_error tt).
Proof.
  eassert (all_fail choice_crashing "abc" 0 true 0 [fails_at 2 "a"]
             (first_use choice_crashing start) _ _) as Hpre.
  { eapply all_fail_parse; [by vm_compute|]. apply all_fail_nil. }
  erewrite (new_parseImpl_propagates choice_crashing "abc" 0 true start
              [fails_at 2 "a"] (crashes "b") [matches "c"] _ _ (other_error tt) _
              eq_refl Hpre); [done|by vm_compute|]. right. by exists tt.
Defined.

Lemma new_parseImpl_counts_once_witness :
  exists j, (j < 3)%nat
    /\ usage_of choice_matching (snd (new_parseImpl choice_matching "abc" 0 true start))
       = Some (<[j := 1]> [0; 0; 0]).
Proof.
  pose proof (new_parseImpl_counts_once choice_matching "abc" 0 true start
                (Return 1) (snd (new_parseImpl choice_matching "abc" 0 true start)))
    as Hcount.
  destruct Hcount as (us & j & n & Hus & Hj & Hrange & Hw').
  - intros e He w0. cbn in He. set_unfold in He. by destruct He as [->|[->|[->|[]]]].
  - by vm_compute.
  - vm_compute in Hus. injection Hus as <-. exists j. split; [exact Hrange|].
    rewrite Hw'. destruct j as [|[|[|j]]]; cbn in Hj; [by injection Hj as <-..|done].
Defined.

End ProfilingFlowWitnesses.

(** ** When the estimate raises *)

Section TimingRaises.
Import Profiling.

Lemma sorted_reverse_nil (l : list (Z * Q)) : sorted_reverse l = [] <-> l = [].
Proof.
  split; [|by intros ->]. destruct l as [|x l]; [done|].
  intros Hnil. by apply insert_reverse_nonempty in Hnil.
Qed.

(** X22: [naive_timing_improvement] raises [ValueError] exactly when there
    is no alternative or no average, which is when there is no pair to
    unpack; for all other lists it returns a number. *)
Theorem naive_timing_improvement_raises (usage : list Z) (aves : list Q) :
  (naive_timing_improvement usage aves = Raise ValueError <-> usage = [] \/ aves = [])
  /\ (usage <> [] /\ aves <> [] <-> exists q, naive_timing_improvement usage aves = Return q).
Proof.
  unfold naive_timing_improvement.
  destruct (sorted_reverse (zip usage aves)) as [|x ordered] eqn:Hord.
  - apply (proj1 (sorted_reverse_nil _)) in Hord.
    assert (usage = [] \/ aves = []) as Hnil.
    { destruct usage; [by left|]. destruct aves; [by right|by cbn in Hord]. }
    split; [done|]. split; [|by intros [q ?]].
    intros [Hu Ha]. by destruct Hnil.
  - assert (usage <> [] /\ aves <> []) as [Hu Ha].
    { split; intros ->; [done|]. by destruct usage. }
    split.
    + split; [done|]. by intros [?|?].
    + split; [by eexists|done].
Qed.

End TimingRaises.

(** ** The report on poorly ordered choices *)

Section ReportFacts.
Import Profiling Report.

Lemma insert_by_perm {A} (key : A -> Q) (x : A) (l : list A) : insert_by key x l ≡ₚ x :: l.
Proof.
  induction l as [|y l IH]; cbn; [done|].
  destruct (key y ?= key x)%Q; [done| |done].
  rewrite IH. apply Permutation_swap.
Qed.

Lemma sorted_by_perm {A} (key : A -> Q) (l : list A) : sorted_by key l ≡ₚ l.
Proof.
  induction l as [|x l IH]; cbn; [done|].
  change (foldr (insert_by key) [] l) with (sorted_by key l).
  by rewrite insert_by_perm, IH.
Qed.

Lemma Forall_insert_by {A} (P : A -> Prop) (key : A -> Q) x l :
  P x -> Forall P l -> Forall P (insert_by key x l).
Proof.
  intros Hx Hl. rewrite insert_by_perm. by constructor.
Qed.

Lemma insert_by_sorted {A} (key : A -> Q) (x : A) (l : list A) :
  StronglySorted (fun a b => key a <= key b)%Q l ->
  StronglySorted (fun a b => key a <= key b)%Q (insert_by key x l).
Proof.
  induction 1 as [|y l Hl IH Hy]; cbn; [by repeat constructor|].
  destruct (key y ?= key x)%Q eqn:Hcmp.
  - apply Qeq_alt in Hcmp. constructor; [by constructor|].
    constructor; [by rewrite Hcmp; apply Qle_refl|].
    eapply Forall_impl; [exact Hy|]. intros z Hz. cbn in Hz. by rewrite <- Hcmp.
  - apply Qlt_alt in Hcmp. constructor; [done|].
    apply Forall_insert_by; [by apply Qlt_le_weak|done].
  - apply Qgt_alt in Hcmp. constructor; [by constructor|].
    constructor; [by apply Qlt_le_weak|].
    eapply Forall_impl; [exact Hy|]. intros z Hz. cbn in Hz.
    eapply Qle_trans; [|exact Hz]. by apply Qlt_le_weak.
Qed.

Lemma sorted_by_sorted {A} (key : A -> Q) (l : list A) :
  StronglySorted (fun a b => key a <= key b)%Q (sorted_by key l).
Proof.
  induction l as [|x l IH]; cbn; [constructor|]. by apply insert_by_sorted.
Qed.

Lemma expr_timing_aves_nil (st : stats) :
  expr_timing_aves st = [] <-> expr_timing_stats st = [].
Proof. unfold expr_timing_aves. by destruct (expr_timing_stats st). Qed.

Lemma naive_timing_improvement_empty_slot (usage : list Z) (aves : list Q) :
  usage = [] \/ aves = [] -> naive_timing_improvement usage aves = Raise ValueError.
Proof.
  intros Hnil. assert (zip usage aves = []) as Hzip.
  { destruct Hnil as [->| ->]; [done|by destruct usage]. }
  unfold naive_timing_improvement. by rewrite Hzip.
Qed.

Lemma naive_timing_improvement_filled (usage : list Z) (aves : list Q) :
  usage <> [] -> aves <> [] -> exists q, naive_timing_improvement usage aves = Return q.
Proof.
  intros Husage Haves. unfold naive_timing_improvement.
  destruct usage as [|n usage]; [done|]. destruct aves as [|t aves]; [done|].
  cbn [zip zip_with]. change (sorted_reverse ((n, t) :: zip usage aves))
    with (insert_reverse (n, t) (sorted_reverse (zip usage aves))).
  pose proof (insert_reverse_nonempty (n, t) (sorted_reverse (zip usage aves))) as Hne.
  destruct (insert_reverse (n, t) (sorted_reverse (zip usage aves))); [done|by eexists].
Qed.

Lemma analyse_raises (objs : list (nat * stats)) :
  analyse objs = Raise ValueError
  <-> Exists (fun o => expr_usage_stats (snd o) = [] \/ expr_timing_stats (snd o) = []) objs.
Proof.
  induction objs as [|[k st] objs IH]; cbn [analyse].
  { split; [done|]. by intros ?%Exists_nil. }
  rewrite Exists_cons. cbn [snd].
  destruct (decide (expr_usage_stats st = [])) as [Hu|Hu].
  { rewrite naive_timing_improvement_empty_slot by (by left). split; [by left; left|done]. }
  destruct (decide (expr_timing_stats st = [])) as [Ht|Ht].
  { rewrite naive_timing_improvement_empty_slot by (right; by apply expr_timing_aves_nil).
    split; [by left; right|done]. }
  destruct (naive_timing_improvement_filled (expr_usage_stats st) (expr_timing_aves st))
    as [q ->]; [done|by rewrite expr_timing_aves_nil|].
  destruct (analyse objs) as [entries|[]].
  - split; [done|]. intros [[?|?]|Hrest]; [done..|]. by apply IH in Hrest.
  - split; [intros _; right; by apply IH|done].
Qed.

Lemma analyse_returns (objs : list (nat * stats)) (entries : list entry) :
  analyse objs = Return entries -> Forall2 describes objs entries.
Proof.
  revert entries. induction objs as [|[k st] objs IH]; intros entries; cbn [analyse].
  { intros [= <-]. constructor. }
  destruct (naive_timing_improvement (expr_usage_stats st) (expr_timing_aves st))
    as [q|] eqn:Hq; [|done].
  destruct (analyse objs) as [entries'|]; [|done].
  intros [= <-]. constructor; [done|by apply IH].
Qed.

(** X23: [print_poorly_ordered_MatchFirsts] raises [ValueError] exactly when a
    profiled object has no usage counts or no timings, as a choice without
    alternatives has. *)
Theorem print_poorly_ordered_MatchFirsts_raises (objs : list (nat * stats)) :
  print_poorly_ordered_MatchFirsts objs = Raise ValueError
  <-> exists k st, (k, st) ∈ objs /\ (expr_usage_stats st = [] \/ expr_timing_stats st = []).
Proof.
  unfold print_poorly_ordered_MatchFirsts.
  pose proof (analyse_raises objs) as Hraises. rewrite Exists_exists in Hraises.
  destruct (analyse objs) as [entries|[]].
  - split; [done|]. intros (k & st & Hin & Hnil).
    assert (Return entries = Raise ValueError :> result exc (list entry)); [|done].
    apply Hraises. by exists (k, st).
  - split; [|done]. intros _. destruct Hraises as [Hex _].
    destruct (Hex eq_refl) as ([k st] & Hin & Hnil). by exists k, st.
Qed.

(** X24: What [print_poorly_ordered_MatchFirsts] prints: with one entry
    computed for every object, the printed entries are the last 100 of the
    entries in ascending order of the estimate, so at most 100, every
    entry that is left out having an estimate that is not greater than any
    printed one. *)
Theorem print_poorly_ordered_MatchFirsts_printed (objs : list (nat * stats))
    (printed : list entry) :
  print_poorly_ordered_MatchFirsts objs = Return printed ->
  exists entries dropped,
    Forall2 describes objs entries
    /\ dropped ++ printed ≡ₚ entries
    /\ StronglySorted by_improvement (dropped ++ printed)
    /\ length printed = Nat.min 100 (length objs).
Proof.
  unfold print_poorly_ordered_MatchFirsts.
  destruct (analyse objs) as [entries|] eqn:Hentries; [|done]. intros [= <-].
  pose proof (analyse_returns _ _ Hentries) as Hdesc.
  set (ordered := sorted_by improvement entries).
  exists entries, (take (length ordered - 100) ordered).
  rewrite take_drop. split; [done|]. split; [apply sorted_by_perm|].
  split; [apply sorted_by_sorted|].
  rewrite length_drop. unfold ordered. rewrite (sorted_by_perm improvement entries).
  apply Forall2_length in Hdesc. lia.
Qed.

Lemma print_poorly_ordered_MatchFirsts_printed_witness :
  exists printed,
    print_poorly_ordered_MatchFirsts
      [(1%nat, Stats [1; 100] [[10 # 1000]; [1 # 1000]]); (2%nat, Stats [5] [[1 # 2; 3 # 2]])]
    = Return printed
    /\ length printed = 2%nat.
Proof.
  eexists. split; [reflexivity|].
  destruct (print_poorly_ordered_MatchFirsts_printed
              [(1%nat, Stats [1; 100] [[10 # 1000]; [1 # 1000]]);
               (2%nat, Stats [5] [[1 # 2; 3 # 2]])] _ eq_refl)
    as (entries & dropped & _ & _ & _ & Hlen).
  exact Hlen.
Defined.

End ReportFacts.

Section ReportAfterParsing.
Import Profiling Report.
Context {Ret Other Rest : Type}.

(** X25: A profiled choice without alternatives breaks the report: once it has
    been used, [print_poorly_ordered_MatchFirsts] raises [ValueError],
    in whatever order the dictionary yields its objects. *)
Theorem report_after_empty_choice (self : MatchFirst Ret Other Rest) (instring : string)
    (loc0 : Z) (doActions : bool) (w : world Rest) (objs : list (nat * stats)) :
  exprs self = [] ->
  _profiled_MatchFirst_objs w !! id self = None ->
  objs ≡ₚ map_to_list
            (_profiled_MatchFirst_objs (snd (new_parseImpl self instring loc0 doActions w))) ->
  print_poorly_ordered_MatchFirsts objs = Raise ValueError.
Proof.
  intros Hexprs Hnew Hobjs. unfold print_poorly_ordered_MatchFirsts.
  assert (analyse objs = Raise ValueError) as ->; [|done].
  apply analyse_raises, Exists_exists. exists (id self, Stats [] []). split; [|by left].
  rewrite Hobjs. apply elem_of_map_to_list.
  unfold new_parseImpl, first_use. rewrite Hexprs, Hnew. cbn.
  by rewrite lookup_insert_eq.
Qed.

End ReportAfterParsing.

Section ReportAfterParsingWitness.
Import Profiling Report Crashing.

Lemma report_after_empty_choice_witness :
  print_poorly_ordered_MatchFirsts [(4%nat, Stats [] [])] = Raise ValueError.
Proof.
  apply (report_after_empty_choice choice_empty "abc" 0 true start); [done..|].
  by vm_compute.
Defined.

End ReportAfterParsingWitness.

(** ** Memoization with exceptions *)

Section MemoFacts.
Import Memo.
Context {Args Res Exn BaseExn World : Type} `{EqDecision Args} (none : Res).
Context (func : Args -> state Args Res Exn World
                -> result (raised Exn BaseExn) Res * state Args Res Exn World).

Lemma cache_get_remove_ne (key k : Args) (c : store Args Res Exn) :
  k <> key -> cache_get key (cache_remove k c) = cache_get key c.
Proof.
  intros Hne. induction c as [|[k' v] c IH]; [done|]. cbn [cache_remove cache_get].
  destruct (decide (k' = k)) as [->|Hk].
  - rewrite IH. by destruct (decide (k = key)).
  - cbn [cache_get]. by rewrite IH.
Qed.

Lemma cache_get_to_front (key k : Args) (v : Res * option Exn) (c : store Args Res Exn) :
  cache_get key (to_front k v c) = if decide (k = key) then Some v else cache_get key c.
Proof.
  unfold to_front. cbn [cache_get].
  destruct (decide (k = key)); [done|]. by apply cache_get_remove_ne.
Qed.

(** A call that finds its arguments in the cache. *)
Lemma memoized_safe_func_hit (maxsize : option Z) (args : Args)
    (st : state Args Res Exn World) (n : nat) (v : Res * option Exn) :
  (forall m, maxsize = Some m -> 0 < m) ->
  cache_get args (cache st) = Some v ->
  exists st',
    memoized_safe_func none func true maxsize args st n = (Return v, st', n)
    /\ world st' = world st
    /\ forall key, cache_get key (cache st') = cache_get key (cache st).
Proof.
  intros Hsize Hget. unfold memoized_safe_func.
  destruct maxsize as [m|].
  - specialize (Hsize m eq_refl).
    destruct (Z.leb_spec m 0) as [?|_]; [lia|]. unfold bounded. rewrite Hget.
    eexists. split; [reflexivity|]. split; [done|]. intros key. cbn [cache].
    rewrite cache_get_to_front. by destruct (decide (args = key)) as [<-|].
  - unfold unbounded. rewrite Hget. by exists st.
Qed.

(** X26: With [lru_cache] and a [maxsize] that is [None] or positive, a
    call of the memoized function that returns or raises an [Exception] is
    remembered: the next call with the same arguments gives the same
    result, also the same exception, without running the function, and the
    cache holds what it held.  For a positive [maxsize] this is so where
    the call itself has not left an entry for its arguments in the cache,
    as a call does that calls the memoized function with the same
    arguments. *)
Theorem memoize_with_exceptions_remembers (maxsize : option Z) (args : Args)
    (st0 st1 : state Args Res Exn World) (n0 n1 : nat)
    (r : result (raised Exn BaseExn) Res) :
  memoized_func none func true maxsize args st0 n0 = (r, st1, n1) ->
  (forall b, r <> Raise (base_exception b)) ->
  (forall m, maxsize = Some m ->
     0 < m /\ (cache_get args (cache st0) = None ->
               cache_get args (cache (snd (func args st0))) = None)) ->
  exists st2,
    memoized_func none func true maxsize args st1 n1 = (r, st2, n1)
    /\ world st2 = world st1
    /\ forall key, cache_get key (cache st2) = cache_get key (cache st1).
Proof.
  intros Hrun Hbase Hsize.
  assert (exists v, cache_get args (cache st1) = Some v
                    /\ r = match snd v with
                           | Some exc => Raise (exception exc)
                           | None => Return (fst v)
                           end) as (v & Hget & ->).
  { unfold memoized_func, memoized_safe_func in Hrun.
    destruct maxsize as [m|].
    - destruct (Hsize m eq_refl) as [Hm Hnested].
      destruct (Z.leb_spec m 0) as [?|_]; [lia|]. unfold bounded, safe_func in Hrun.
      destruct (cache_get args (cache st0)) as [[res exc]|] eqn:Hget0.
      + exists (res, exc). destruct exc; injection Hrun as <- <- <-; cbn [cache];
          by rewrite cache_get_to_front, decide_True.
      + specialize (Hnested eq_refl).
        destruct (func args st0) as [[res|[exc|b]] st]; cbn [snd] in Hnested;
          cbn in Hrun; rewrite ?Hnested in Hrun.
        * injection Hrun as <- <- <-. exists (res, None). cbn [cache].
          destruct (_ <=? _)%nat; cbn [cache_get]; by rewrite decide_True.
        * injection Hrun as <- <- <-. exists (none, Some exc). cbn [cache].
          destruct (_ <=? _)%nat; cbn [cache_get]; by rewrite decide_True.
        * injection Hrun as <- <- <-. by destruct (Hbase b).
    - unfold unbounded, safe_func in Hrun.
      destruct (cache_get args (cache st0)) as [[res exc]|] eqn:Hget0.
      + exists (res, exc). by destruct exc; injection Hrun as <- <- <-.
      + destruct (func args st0) as [[res|[exc|b]] st]; cbn in Hrun.
        * injection Hrun as <- <- <-. exists (res, None). cbn [cache].
          by rewrite cache_get_to_front, decide_True.
        * injection Hrun as <- <- <-. exists (none, Some exc). cbn [cache].
          by rewrite cache_get_to_front, decide_True.
        * injection Hrun as <- <- <-. by destruct (Hbase b). }
  destruct (memoized_safe_func_hit maxsize args st1 n1 v) as (st2 & Hhit & Hworld & Hsame);
    [by intros m Hm; apply Hsize|done|].
  exists st2. unfold memoized_func. rewrite Hhit. by destruct v as [res [exc|]].
Qed.

(** X27: Without [lru_cache], with a [maxsize] that is not positive, and
    on a miss, the memoized function is the function: wrapping the result
    or the exception into a pair and unwrapping it gives what the function
    gave, after one run of it. *)
Theorem memoize_with_exceptions_transparent (lru_cache : bool) (maxsize : option Z)
    (args : Args) (st : state Args Res Exn World) (n : nat) :
  lru_cache = false \/ (exists m, maxsize = Some m /\ m <= 0)
  \/ cache_get args (cache st) = None ->
  let run := memoized_func none func lru_cache maxsize args st n in
  fst (fst run) = fst (func args st) /\ snd run = S n
  /\ world (snd (fst run)) = world (snd (func args st)).
Proof.
  intros Hmiss. cbv zeta.
  assert (let run := match safe_func none func args st n with
                     | (Return (res, exc), st, runs) =>
                         match exc with
                         | Some exc => (Raise (exception exc), st, runs)
                         | None => (Return res, st, runs)
                         end
                     | (Raise b, st, runs) => (Raise (base_exception b), st, runs)
                     end in
          fst (fst run) = fst (func args st) /\ snd run = S n
          /\ world (snd (fst run)) = world (snd (func args st))) as Hplain.
  { unfold safe_func. by destruct (func args st) as [[res|[exc|b]] st']. }
  unfold memoized_func, memoized_safe_func.
  destruct lru_cache; [|exact Hplain].
  destruct Hmiss as [|[(m & -> & Hm)|Hmiss]]; [done| |].
  - destruct (Z.leb_spec m 0) as [_|?]; [exact Hplain|lia].
  - destruct maxsize as [m|].
    + destruct (m <=? 0); [exact Hplain|]. unfold bounded, safe_func. rewrite Hmiss.
      destruct (func args st) as [[res|[exc|b]] st']; cbn; done.
    + unfold unbounded, safe_func. rewrite Hmiss.
      by destruct (func args st) as [[res|[exc|b]] st'].
Qed.

End MemoFacts.

Section MemoWitnesses.
Import Memo.

Lemma memoize_with_exceptions_remembers_witness :
  let run1 := memoized_func 0 stub_func true (Some 128) (-3) (State [] tt) 0 in
  exists st2,
    fst (fst run1) = Raise (exception "negative")
    /\ memoized_func 0 stub_func true (Some 128) (-3) (snd (fst run1)) (snd run1)
       = (Raise (exception "negative"), st2, 1%nat).
Proof.
  intros run1.
  assert (run1 = (Raise (exception "negative"), snd (fst run1), snd run1)) as Hrun1
    by reflexivity.
  destruct (memoize_with_exceptions_remembers 0 stub_func (Some 128) (-3) (State [] tt)
              (snd (fst run1)) 0 (snd run1) (Raise (exception "negative")) Hrun1)
    as (st2 & Hrun2 & _).
  - by intros b.
  - intros m [= <-]. split; [lia|]. by intros _.
  - exists st2. split; [reflexivity|exact Hrun2].
Defined.

Lemma memoize_with_exceptions_transparent_witness :
  let run := memoized_func 0 stub_func false None 4 (State [] tt) 0 in
  fst (fst run) = Return 16 /\ snd run = 1%nat.
Proof.
  intros run.
  destruct (memoize_with_exceptions_transparent 0 stub_func false None 4
              (State [] tt) 0) as (Hres & Hruns & _); [by left|].
  split; [exact Hres|exact Hruns].
Defined.

(** With a [maxsize] of zero nothing is remembered: two calls run the
    function twice. *)
Example memoize_maxsize_zero :
  let run1 := memoized_func 0 stub_func true (Some 0) 4 (State [] tt) 0 in
  let run2 := memoized_func 0 stub_func true (Some 0) 4 (snd (fst run1)) (snd run1) in
  run1 = (Return 16, State [] tt, 1%nat) /\ run2 = (Return 16, State [] tt, 2%nat).
Proof. split; reflexivity. Qed.

(** A bounded cache keeps the entry that the call itself left for its
    arguments, and the next call gives that one; an unbounded cache
    replaces it by the result of the call. *)
Example memoize_nested_entry :
  let again maxsize :=
    let run1 := memoized_func 0 nesting_func true maxsize 7 (State [] tt) 0 in
    (fst (fst run1),
     fst (fst (memoized_func 0 nesting_func true maxsize 7 (snd (fst run1)) (snd run1)))) in
  again (Some 128) = (Return 1, Return 2) /\ again None = (Return 1, Return 1).
Proof. split; reflexivity. Qed.

End MemoWitnesses.

(** ** [keydefaultdict] *)

Section KeyDefaultDictFacts.
Import KeyDefaultDict.
Context {K V Exn World : Type} `{Countable K}.
Context (default_factory : option (K -> state K V World -> result Exn V * state K V World)).

(** X28: A lookup in a [keydefaultdict] that returns leaves the key in the
    dictionary with the value returned, so that the next lookup of the key
    returns the same value without calling the factory.  For a key that was
    missing the value is what the factory returns for the key itself,
    called once. *)
Theorem keydefaultdict_getitem (key : K) (st st1 : state K V World) (n n1 : nat) (v : V) :
  getitem default_factory key st n = (Return v, st1, n1) ->
  items st1 !! key = Some v
  /\ getitem default_factory key st1 n1 = (Return v, st1, n1)
  /\ (items st !! key = None ->
      exists factory st',
        default_factory = Some factory /\ factory key st = (Return v, st')
        /\ st1 = setitem key v st' /\ n1 = S n).
Proof.
  unfold getitem at 1. destruct (items st !! key) as [v0|] eqn:Hkey.
  - intros [= <- <- <-]. unfold getitem. by rewrite Hkey.
  - unfold __missing__. destruct default_factory as [factory|]; [|done].
    destruct (factory key st) as [[value|e] st'] eqn:Hfactory; [|done].
    cbn. rewrite lookup_insert_eq. intros [= <- <- <-]. unfold getitem. cbn.
    rewrite lookup_insert_eq. split; [done|]. split; [done|]. intros _.
    by exists factory, st'.
Qed.

End KeyDefaultDictFacts.

Section KeyDefaultDictWitness.
Import KeyDefaultDict.

Lemma keydefaultdict_getitem_witness :
  let run := getitem (Some length_factory) "abc" (State ∅ tt) 0 in
  fst (fst run) = Return 3%nat
  /\ getitem (Some length_factory) "abc" (snd (fst run)) (snd run) = run.
Proof.
  intros run. split; [reflexivity|].
  assert (run = (Return 3%nat, snd (fst run), snd run)) as Hrun by reflexivity.
  destruct (keydefaultdict_getitem (Some length_factory) "abc" (State ∅ tt)
              (snd (fst run)) 0 (snd run) 3%nat Hrun) as (_ & Hagain & _).
  by rewrite Hagain.
Defined.

End KeyDefaultDictWitness.

(** ** What the installer reports, and the data files *)

Section KernelReports.
Import Kernel KernelData.
Context {FS : Type} `{!OS FS}.
Context (icoconut_custom_kernel_dir icoconut_custom_kernel_install_loc : path).
Context (icoconut_custom_kernel_file_loc : path).
Context (fixpath : path -> path) (WINDOWS : bool) (default_encoding : string).
Context (exec_prefix : path) (sys_executable : string).
Context (json_dumps : json -> Z -> string) (encode : string -> string -> bytes).

Abbreviation dest := (kernel_dest icoconut_custom_kernel_install_loc fixpath exec_prefix).
Abbreviation steps :=
  (install_steps icoconut_custom_kernel_dir icoconut_custom_kernel_install_loc fixpath
     default_encoding exec_prefix sys_executable json_dumps encode).
Abbreviation install :=
  (install_custom_kernel icoconut_custom_kernel_dir icoconut_custom_kernel_install_loc
     fixpath WINDOWS default_encoding exec_prefix sys_executable json_dumps encode).

(** Where the steps of the installation succeed and the destination is a
    directory, the kernel file is in it. *)
Lemma install_steps_written executable (fs : FS) u fs' :
  steps executable fs = (Some u, fs') ->
  isdir dest fs' = true ->
  read_bytes (dest ++ ["kernel.json"]) fs'
  = Some (kernel_json default_encoding sys_executable json_dumps encode executable).
Proof.
  intros Hsteps Hdir. unfold install_steps in Hsteps.
  apply and_then_Some in Hsteps as (fs_made & Hmake & Hrest).
  apply and_then_Some in Hrest as (fs_dir & Hensure & Hcopy).
  injection Hensure as <-. unfold kernel_source in Hcopy. destruct u.
  eapply copy_read; [exact Hcopy| |exact Hdir].
  rewrite ensure_dir_read. by eapply make_custom_kernel_written.
Qed.

(** An installation that reports nothing is one whose steps succeeded. *)
Lemma install_custom_kernel_silent executable logger (fs : FS) :
  snd (install executable logger fs) = [] ->
  exists u, steps executable fs = (Some u, snd (fst (install executable logger fs))).
Proof.
  unfold install_custom_kernel.
  destruct (steps executable fs) as [[u|] fs1]; cbn; [by exists u|].
  destruct (path_exists _ fs1); cbn; intros Hnil;
    by apply app_eq_nil in Hnil as [_ ?].
Qed.

(** X29: [install_custom_kernel] reports exactly when it fails, and everything
    it reports goes the same way: to the logger when there is one, and to
    [warn] and [traceback] when there is none. *)
Theorem install_custom_kernel_channel (executable : option string) (logger : bool) (fs : FS) :
  let run :=
    install_custom_kernel icoconut_custom_kernel_dir icoconut_custom_kernel_install_loc
      fixpath WINDOWS default_encoding exec_prefix sys_executable json_dumps encode
      executable logger fs in
  (fst (fst run) = None <-> snd run <> [])
  /\ Forall (fun ev =>
       if logger
       then ev = logger_log_exc \/ ev = logger_print_exc \/ exists m, ev = logger_warn m
       else ev = traceback_print_exc \/ exists m, ev = warn m) (snd run).
Proof.
  cbv zeta. unfold install_custom_kernel.
  destruct (steps executable fs) as [[u|] fs1]; cbn [fst snd].
  { split; [done|constructor]. }
  destruct (path_exists _ fs1), logger; cbn [fst snd app]; (split; [done|]);
    repeat (apply Forall_cons; split); try apply Forall_nil; eauto 6.
Qed.

(** X30: [get_kernel_data_files] answers an empty list, and touches nothing,
    for a command line without a [bdist] or [install] command.  For one
    with such a command it answers the one entry of the kernel file, whether
    or not the installation worked; and for a [bdist] command the kernel
    that it installs, if it reports nothing and the destination is a
    directory, runs [python], also where an [install] command is given
    too. *)
Theorem get_kernel_data_files_result (argv : list string) (fs : FS) :
  let run :=
    get_kernel_data_files icoconut_custom_kernel_dir icoconut_custom_kernel_install_loc
      icoconut_custom_kernel_file_loc fixpath WINDOWS default_encoding exec_prefix
      sys_executable json_dumps encode argv fs in
  let fs' := snd (fst run) in
  (existsb (String.prefix "bdist") argv = false ->
   existsb (String.prefix "install") argv = false -> run = ([], fs, []))
  /\ (existsb (String.prefix "bdist") argv = true
      \/ existsb (String.prefix "install") argv = true ->
      fst (fst run)
      = [(icoconut_custom_kernel_install_loc, [icoconut_custom_kernel_file_loc])])
  /\ (existsb (String.prefix "bdist") argv = true ->
      snd run = [] -> isdir dest fs' = true ->
      read_bytes (dest ++ ["kernel.json"]) fs'
      = Some (encode (json_dumps (kernel_dict "python") 1) default_encoding)).
Proof.
  cbv zeta. unfold get_kernel_data_files, install_and_list.
  split; [by intros -> ->|]. split.
  - intros Hcmd. destruct (existsb (String.prefix "bdist") argv).
    + by destruct (install (Some "python") false fs) as [[r fs1] reported].
    + destruct Hcmd as [?| ->]; [done|].
      by destruct (install (Some sys_executable) false fs) as [[r fs1] reported].
  - intros ->.
    pose proof (install_custom_kernel_silent (Some "python") false fs) as Hsilent.
    destruct (install (Some "python") false fs) as [[r fs1] reported]. cbn [fst snd] in *.
    intros Hnil Hdir. destruct (Hsilent Hnil) as [u Hsteps].
    by rewrite (install_steps_written _ _ _ _ Hsteps Hdir).
Qed.

End KernelReports.

Section KernelReportsWitness.
Import Kernel KernelData.

Lemma get_kernel_data_files_result_witness :
  let run := data_files_on ["setup.py"; "bdist_wheel"; "install"] writable in
  fst (fst run)
  = [(["share"; "jupyter"; "kernels"; "coconut"],
      [["coconut"; "icoconut"; "coconut"; "kernel.json"]])]
  /\ read_bytes ["usr"; "share"; "jupyter"; "kernels"; "coconut"; "kernel.json"]
       (snd (fst run))
     = Some (ascii_encode (dumps 0 (kernel_dict "python")) "utf-8").
Proof.
  intros run.
  destruct (get_kernel_data_files_result ["coconut"; "icoconut"; "coconut"]
              ["share"; "jupyter"; "kernels"; "coconut"]
              ["coconut"; "icoconut"; "coconut"; "kernel.json"] (fun p => p) false "utf-8"
              ["usr"] "python3" (fun j _ => dumps 0 j) ascii_encode
              ["setup.py"; "bdist_wheel"; "install"] writable) as (_ & Hlist & Hkernel).
  split; [apply Hlist; by left|]. apply Hkernel; by vm_compute.
Defined.

End KernelReportsWitness.
